(** * odata-query in Rocq: lexer, grammar, roundtrip printer and SQL visitors

    A shallow embedding of the Python package [odata_query]:
    - [Ast]       : the dataclasses of [ast.py] and [Duration.unpack];
    - [Regex]     : a backtracking matcher with capture groups, in the order
                    in which Python's [re] explores alternatives, used for the
                    token rules of the SLY lexer and for [DURATION_PATTERN];
    - [Lexer]     : [ODataLexer] of [grammar.py] and SLY's [tokenize] loop;
    - [Grammar]   : [ODataParser]'s productions and actions, read as the set
                    of values of all complete derivations of a token list;
    - [Roundtrip] : [AstToODataVisitor] of [roundtrip.py];
    - [Sql]       : [visit_*] of the three SQL dialect visitors in [sql/].

    Strings are ASCII text: the Rocq [ascii] type stands for the code points
    0..127 of a Python [str]. *)

From Stdlib Require Import Bool Arith List String Ascii Lia ZArith.
Import ListNotations.
Open Scope string_scope.
Set Warnings "-register-all".

(** ** Python exceptions raised by the code *)

Inductive exn : Type :=
| TokenizingException (token : string)
| ParsingException
| UnknownFunctionException (function_name : string)
| ArgumentCountException (function_name : string)
    (exp_min_args exp_max_args given_args : nat)
| UnsupportedFunctionException (function_name : string)
| NameError (name : string)
| AttributeError (cls attr : string)
| ValueError (msg : string)
| TypeError (msg : string)
| IndexError
| NotImplementedError.

(** A computation that returns a value or raises. *)
Inductive res (A : Type) : Type :=
| Ok (a : A)
| Error (e : exn).
Arguments Ok {A} a.
Arguments Error {A} e.

Definition bind {A B} (m : res A) (f : A -> res B) : res B :=
  match m with Ok a => f a | Error e => Error e end.

Notation "x <- m ;; f" := (bind m (fun x => f))
  (at level 61, m at next level, right associativity).

(** ** A backtracking regular-expression matcher *)

Module Regex.

(** Regular expressions; [RGroup i r] is the capturing group number [i]. *)
Inductive re : Type :=
| RChar (p : ascii -> bool)
| REps
| RSeq (r1 r2 : re)
| RAlt (r1 r2 : re)
| RStar (r : re)
| RGroup (i : nat) (r : re).

(** Captures, the latest first: group number, input at the group's start
    and input at its end. *)
Definition caps := list (nat * (list ascii * list ascii)).

(** The matcher in continuation-passing style: alternatives are tried in
    order, [RStar] is greedy, and the first success in this order is the
    result, as in Python's [re]. An iteration of [RStar] must consume
    input; [n] bounds the number of iterations and is never reached when it
    is at least the length of the input. *)
Fixpoint mt {A : Type} (n : nat) :
  re -> list ascii -> caps -> (list ascii -> caps -> option A) -> option A :=
  fix go r s c k :=
  match r with
  | RChar p => match s with x :: s' => if p x then k s' c else None | [] => None end
  | REps => k s c
  | RSeq r1 r2 => go r1 s c (fun s1 c1 => go r2 s1 c1 k)
  | RAlt r1 r2 => match go r1 s c k with Some v => Some v | None => go r2 s c k end
  | RGroup i r1 => go r1 s c (fun s1 c1 => k s1 ((i, (s, s1)) :: c1))
  | RStar r1 =>
      match n with
      | 0 => k s c
      | S n' =>
          match go r1 s c (fun s1 c1 =>
                  if Nat.ltb (List.length s1) (List.length s) then mt n' (RStar r1) s1 c1 k else None) with
          | Some v => Some v
          | None => k s c
          end
      end
  end.

(** [pattern.fullmatch(s)] *)
Definition fullmatch (r : re) (s : list ascii) : option caps :=
  mt (List.length s) r s [] (fun s1 c => match s1 with [] => Some c | _ => None end).

(** [pattern.match(s)]: anchored at the start, any end. *)
Definition prefix_match (r : re) (s : list ascii) : option (list ascii * caps) :=
  mt (List.length s) r s [] (fun s1 c => Some (s1, c)).

(** [m.group(i)], [None] when the group did not take part. *)
Definition group (c : caps) (i : nat) : option (list ascii) :=
  match find (fun e => Nat.eqb (fst e) i) c with
  | Some (_, (s0, s1)) => Some (firstn (List.length s0 - List.length s1) s0)
  | None => None
  end.

(** Character classes on ASCII. *)
Definition code (c : ascii) : nat := nat_of_ascii c.
Definition between (lo hi : nat) (c : ascii) : bool := Nat.leb lo (code c) && Nat.leb (code c) hi.
Definition is_digit : ascii -> bool := between 48 57.
Definition is_lower : ascii -> bool := between 97 122.
Definition is_upper : ascii -> bool := between 65 90.
(** [\w] *)
Definition is_word (c : ascii) : bool :=
  is_digit c || is_lower c || is_upper c || Ascii.eqb c "_".
(** [\s]: tab to carriage return, the separators 0x1c..0x1f and space. *)
Definition is_space (c : ascii) : bool := between 9 13 c || between 28 32 c.

(** [str.upper] and [str.lower] on ASCII. *)
Definition to_upper (c : ascii) : ascii :=
  if is_lower c then ascii_of_nat (code c - 32) else c.
Definition to_lower (c : ascii) : ascii :=
  if is_upper c then ascii_of_nat (code c + 32) else c.

(** Builders for the syntax of Python patterns. *)
Definition chr (x : ascii) : re := RChar (Ascii.eqb x).
Fixpoint lit (s : string) : re :=
  match s with EmptyString => REps | String x s' => RSeq (chr x) (lit s') end.
(** [r?] *)
Definition opt (r : re) : re := RAlt r REps.
(** [r+] *)
Definition plus (r : re) : re := RSeq r (RStar r).
(** [r{k}] *)
Fixpoint rep (k : nat) (r : re) : re :=
  match k with 0 => REps | S k' => RSeq r (rep k' r) end.
(** [r{0,k}], greedy *)
Fixpoint upto (k : nat) (r : re) : re :=
  match k with 0 => REps | S k' => opt (RSeq r (upto k' r)) end.
(** concatenation of a list *)
Fixpoint seqs (l : list re) : re :=
  match l with [] => REps | [r] => r | r :: l' => RSeq r (seqs l') end.
Definition oneof (s : string) : re :=
  RChar (fun x => existsb (Ascii.eqb x) (list_ascii_of_string s)).
Definition digit : re := RChar is_digit.
Definition range (lo hi : ascii) : re := RChar (between (code lo) (code hi)).

(** The IGNORECASE flag. *)
Fixpoint ci (r : re) : re :=
  match r with
  | RChar p => RChar (fun x => p x || p (to_lower x) || p (to_upper x))
  | REps => REps
  | RSeq r1 r2 => RSeq (ci r1) (ci r2)
  | RAlt r1 r2 => RAlt (ci r1) (ci r2)
  | RStar r1 => RStar (ci r1)
  | RGroup i r1 => RGroup i (ci r1)
  end.

End Regex.

(** ** [ast.py] *)

Module Ast.

(** The dataclasses of [ast.py]. Python does not check field types; the
    parser stores an [Attribute] in the [attr] field of an [Attribute]
    before re-nesting it, so that field holds a string or a node. *)
Inductive node : Type :=
| Identifier (name : string) (namespace : list string)
| Attribute (owner : node) (attr : string + node)
| Null
| Integer (val : string)
| Float (val : string)
| Boolean (val : string)
| String (val : string)
| Geography (val : string)
| Date (val : string)
| Time (val : string)
| DateTime (val : string)
| Duration (val : string)
| GUID (val : string)
| List (val : list node)
| Add | Sub | Mult | Div | Mod
| BinOp (op left right : node)
| Eq | NotEq | Lt | LtE | Gt | GtE | In
| Compare (comparator left right : node)
| And | Or
| BoolOp (op left right : node)
| Not | USub
| UnaryOp (op operand : node)
| NamedParam (name param : node)
| Call (func : node) (args : list node)
| Any | All
| Lambda (identifier expression : node)
| CollectionLambda (owner operator : node) (lambda_ : option node).

(** [type(node).__name__] *)
Definition class_name (n : node) : string :=
  match n with
  | Identifier _ _ => "Identifier" | Attribute _ _ => "Attribute"
  | Null => "Null" | Integer _ => "Integer" | Float _ => "Float"
  | Boolean _ => "Boolean" | String _ => "String"
  | Geography _ => "Geography" | Date _ => "Date" | Time _ => "Time"
  | DateTime _ => "DateTime" | Duration _ => "Duration" | GUID _ => "GUID"
  | List _ => "List" | Add => "Add" | Sub => "Sub" | Mult => "Mult"
  | Div => "Div" | Mod => "Mod" | BinOp _ _ _ => "BinOp" | Eq => "Eq"
  | NotEq => "NotEq" | Lt => "Lt" | LtE => "LtE" | Gt => "Gt"
  | GtE => "GtE" | In => "In" | Compare _ _ _ => "Compare" | And => "And"
  | Or => "Or" | BoolOp _ _ _ => "BoolOp" | Not => "Not" | USub => "USub"
  | UnaryOp _ _ => "UnaryOp" | NamedParam _ _ => "NamedParam"
  | Call _ _ => "Call" | Any => "Any" | All => "All"
  | Lambda _ _ => "Lambda" | CollectionLambda _ _ _ => "CollectionLambda"
  end.

(** The attribute access [node.name]: only [Identifier] (a string) and
    [NamedParam] (an [Identifier]) have a field called [name]. *)
Definition get_name (n : node) : res (string + node) :=
  match n with
  | Identifier nm _ => Ok (inl nm)
  | NamedParam nm _ => Ok (inr nm)
  | _ => Error (AttributeError (class_name n) "name")
  end.

Import Regex.

(** [DURATION_PATTERN]:
    [([+-])?P(\d+Y)?(\d+M)?(\d+D)?(?:T(\d+H)?(\d+M)?(\d+(?:\.\d+)?S)?)?] *)
Definition DURATION_PATTERN : re :=
  seqs [opt (RGroup 1 (oneof "+-")); chr "P";
        opt (RGroup 2 (RSeq (plus digit) (chr "Y")));
        opt (RGroup 3 (RSeq (plus digit) (chr "M")));
        opt (RGroup 4 (RSeq (plus digit) (chr "D")));
        opt (seqs [chr "T";
                   opt (RGroup 5 (RSeq (plus digit) (chr "H")));
                   opt (RGroup 6 (RSeq (plus digit) (chr "M")));
                   opt (RGroup 7 (seqs [plus digit;
                                        opt (RSeq (chr ".") (plus digit));
                                        chr "S"]))])].

(** [x[:-1] if x else None] *)
Definition strip_unit (g : option (list ascii)) : option string :=
  match g with
  | Some ((_ :: _) as l) => Some (string_of_list_ascii (removelast l))
  | _ => None
  end.

(** [Duration.unpack]: the Python tuple
    [(sign, years, months, days, hours, minutes, seconds)] as a list. *)
Definition unpack (val : string) : res (list (option string)) :=
  match fullmatch DURATION_PATTERN (list_ascii_of_string val) with
  | None => Error (ValueError ("Could not unpack Duration with value " ++ val))
  | Some c =>
      Ok [option_map string_of_list_ascii (group c 1);
          strip_unit (group c 2); strip_unit (group c 3); strip_unit (group c 4);
          strip_unit (group c 5); strip_unit (group c 6); strip_unit (group c 7)]
  end.

End Ast.


(** ** Python string helpers *)

Module Py.
Import Regex.

(** [s.upper()] on ASCII *)
Definition upper (s : list ascii) : list ascii := map to_upper s.

Fixpoint starts_with (s pre : list ascii) : bool :=
  match pre, s with
  | [], _ => true
  | p :: pre', x :: s' => Ascii.eqb p x && starts_with s' pre'
  | _ :: _, [] => false
  end.

(** [s.replace(old, new)], scanning left to right; [fuel] is the length. *)
Fixpoint replace_go (fuel : nat) (old new s : list ascii) : list ascii :=
  match fuel with
  | 0 => s
  | S f =>
      match s with
      | [] => []
      | x :: s' =>
          if starts_with s old
          then new ++ replace_go f old new (skipn (List.length old) s)
          else x :: replace_go f old new s'
      end
  end.
Definition replace (old new s : list ascii) : list ascii :=
  replace_go (List.length s) old new s.

(** [s[i:-1]] for a non-negative [i] *)
Definition slice_to_last (i : nat) (s : list ascii) : list ascii :=
  firstn (List.length s - 1 - i) (skipn i s).

End Py.

(** ** The lexer: [ODataLexer] and SLY's [Lexer.tokenize] *)

Module Lexer.
Import Regex.

Inductive tkind : Type :=
| ODATA_IDENTIFIER | NULL | STRING | GUID | DATETIME | DATE | TIME
| DURATION | DECIMAL | INTEGER | BOOLEAN
| ADD | SUB | MUL | DIV | MOD | UMINUS
| AND | OR | NOT | EQ | NE | LT | LE | GT | GE | IN
| ANY | ALL | WS
| LIT (c : ascii).

Definition tkind_eqb (a b : tkind) : bool :=
  match a, b with
  | ODATA_IDENTIFIER, ODATA_IDENTIFIER | NULL, NULL | STRING, STRING
  | GUID, GUID | DATETIME, DATETIME | DATE, DATE | TIME, TIME
  | DURATION, DURATION | DECIMAL, DECIMAL | INTEGER, INTEGER
  | BOOLEAN, BOOLEAN | ADD, ADD | SUB, SUB | MUL, MUL | DIV, DIV
  | MOD, MOD | UMINUS, UMINUS | AND, AND | OR, OR | NOT, NOT | EQ, EQ
  | NE, NE | LT, LT | LE, LE | GT, GT | GE, GE | IN, IN | ANY, ANY
  | ALL, ALL | WS, WS => true
  | LIT x, LIT y => Ascii.eqb x y
  | _, _ => false
  end.

(** [tok.value]: an AST node set by a token function, or the matched
    text (the [WS] token and the literal characters). *)
Inductive tokval : Type :=
| TNode (n : Ast.node)
| TText (s : string).

Record token : Type := mk_token { tok_type : tkind; tok_value : tokval }.

(** The token patterns. Unnamed groups inside a pattern get number 0; only
    the group wrapping a whole token pattern is read back. *)
Definition _RWS : re := plus (RChar is_space).
Definition _INTEGER : re := RSeq (opt (oneof "+-")) (plus digit).
Definition _DATE : re :=
  seqs [range "1" "9"; rep 3 digit; chr "-";
        RAlt (RSeq (chr "0") digit) (RSeq (chr "1") (range "0" "2")); chr "-";
        RAlt (RSeq (range "0" "2") digit) (RSeq (chr "3") (oneof "01"))].
(** [_TIME] is [(?:[01]\d|2[0-3]):[0-5]\d(:?:[0-5]\d(?:\.\d{1,12})?)]: a head
    and a final capturing group, which [DATETIME] makes optional. *)
Definition _TIME_head : re :=
  seqs [RAlt (RSeq (oneof "01") digit) (RSeq (chr "2") (range "0" "3"));
        chr ":"; range "0" "5"; digit].
Definition _TIME_group : re :=
  RGroup 0 (seqs [opt (chr ":"); chr ":"; range "0" "5"; digit;
                  opt (RSeq (chr ".") (RSeq digit (upto 11 digit)))]).
Definition _TIME : re := RSeq _TIME_head _TIME_group.

Definition DURATION_re : re :=
  seqs [lit "duration'"; opt (oneof "+-"); chr "P";
        opt (RSeq (plus digit) (chr "D"));
        opt (seqs [chr "T"; opt (RSeq (plus digit) (chr "H"));
                   opt (RSeq (plus digit) (chr "M"));
                   opt (seqs [plus digit; opt (RSeq (chr ".") (plus digit)); chr "S"])]);
        chr "'"].
Definition STRING_re : re :=
  seqs [chr "'"; RStar (RAlt (RChar (fun x => negb (Ascii.eqb x "'"))) (lit "''"));
        chr "'"].
Definition hex : re := RChar (fun x => is_digit x || between 97 102 x).
Definition GUID_re : re :=
  seqs [rep 8 hex; chr "-"; rep 4 hex; chr "-"; rep 4 hex; chr "-";
        rep 4 hex; chr "-"; rep 12 hex].
Definition DATETIME_re : re :=
  seqs [_DATE; chr "T"; _TIME_head; opt _TIME_group;
        opt (RGroup 0 (RAlt (chr "Z")
               (seqs [oneof "+-";
                      RAlt (RSeq (oneof "01") digit) (RSeq (chr "2") (range "0" "3"));
                      chr ":"; range "0" "5"; digit])))].
Definition exponent : re := seqs [chr "e"; opt (oneof "-+"); plus digit].
Definition DECIMAL_re : re :=
  RSeq _INTEGER
    (RGroup 0 (RAlt (RSeq (RSeq (chr ".") (plus digit)) exponent)
                    (RAlt (RSeq (chr ".") (plus digit)) exponent))).
(** [{_RWS}kw{_RWS}] *)
Definition kw (w : string) : re := seqs [_RWS; lit w; _RWS].

(** The token rules in the order of their definition in the class body. *)
Definition token_rules : list (tkind * re) :=
  [(DURATION, DURATION_re); (STRING, STRING_re); (GUID, GUID_re);
   (DATETIME, DATETIME_re); (DATE, _DATE); (TIME, _TIME);
   (DECIMAL, DECIMAL_re); (INTEGER, _INTEGER);
   (BOOLEAN, RAlt (lit "true") (lit "false")); (NULL, lit "null");
   (ADD, kw "add"); (SUB, kw "sub"); (MUL, kw "mul"); (DIV, kw "div");
   (MOD, kw "mod"); (UMINUS, chr "-");
   (AND, kw "and"); (OR, kw "or"); (NOT, RSeq (lit "not") _RWS);
   (EQ, kw "eq"); (NE, kw "ne"); (LT, kw "lt"); (LE, kw "le");
   (GT, kw "gt"); (GE, kw "ge"); (IN, kw "in");
   (ANY, lit "any"); (ALL, lit "all");
   (ODATA_IDENTIFIER,
     RSeq (RChar (fun x => Ascii.eqb x "_" || is_lower x)) (upto 127 (RChar is_word)));
   (WS, _RWS)].

(** SLY joins the rules into [(?P<NAME1>re1)|(?P<NAME2>re2)|...]; the group
    of rule [i] has number [i + 1]. Several rules start with [(?i)], which
    Python 3.7 to 3.10 applies to the whole joined pattern. *)
Fixpoint alternation (i : nat) (rules : list (tkind * re)) : re :=
  match rules with
  | [] => RChar (fun _ => false)
  | [(_, r)] => RGroup i r
  | (_, r) :: rest => RAlt (RGroup i r) (alternation (S i) rest)
  end.
Definition master_re : re := ci (alternation 1 token_rules).

(** The token functions of [ODataLexer] ([WS] has none). *)
Definition token_value (k : tkind) (value : list ascii) : tokval :=
  let v := string_of_list_ascii value in
  match k with
  | DURATION => TNode (Ast.Duration (string_of_list_ascii
                   (Py.slice_to_last (String.length "DURATION" + 1) (Py.upper value))))
  | STRING => TNode (Ast.String (string_of_list_ascii
                 (Py.replace ["'"; "'"]%char ["'"]%char (Py.slice_to_last 1 value))))
  | GUID => TNode (Ast.GUID v)
  | DATETIME => TNode (Ast.DateTime v)
  | DATE => TNode (Ast.Date v)
  | TIME => TNode (Ast.Time v)
  | DECIMAL => TNode (Ast.Float v)
  | INTEGER => TNode (Ast.Integer v)
  | BOOLEAN => TNode (Ast.Boolean v)
  | NULL => TNode Ast.Null
  | ADD => TNode Ast.Add | SUB => TNode Ast.Sub | MUL => TNode Ast.Mult
  | DIV => TNode Ast.Div | MOD => TNode Ast.Mod | UMINUS => TNode Ast.USub
  | AND => TNode Ast.And | OR => TNode Ast.Or | NOT => TNode Ast.Not
  | EQ => TNode Ast.Eq | NE => TNode Ast.NotEq | LT => TNode Ast.Lt
  | LE => TNode Ast.LtE | GT => TNode Ast.Gt | GE => TNode Ast.GtE
  | IN => TNode Ast.In | ANY => TNode Ast.Any | ALL => TNode Ast.All
  | ODATA_IDENTIFIER => TNode (Ast.Identifier v [])
  | WS | LIT _ => TText v
  end.

Definition literals : list ascii := ["("; ")"; ","; "/"; ":"]%char.

(** The names bound at the top level of [grammar.py], with a description
    of their values. *)
Definition grammar_globals : list (string * string) :=
  [("List", "typing.List"); ("Lexer", "sly.Lexer"); ("Parser", "sly.Parser");
   ("ast", "module odata_query.ast"); ("exceptions", "module odata_query.exceptions");
   ("_RWS", "\s+"); ("_INTEGER", "[+-]?\d+");
   ("_DATE", "[1-9]\d{3}-(?:0\d|1[0-2])-(?:[0-2]\d|3[01])");
   ("_TIME", "(?:[01]\d|2[0-3]):[0-5]\d(:?:[0-5]\d(?:\.\d{1,12})?)");
   ("ODATA_FUNCTIONS", "dict"); ("ODataLexer", "class"); ("ODataParser", "class")].

(** Name resolution inside a method of [grammar.py]: locals, then the
    module's globals; the names of Python's builtins are not listed, and
    [text] is not one of them. *)
Definition lookup_global (name : string) : option string :=
  match find (fun e => String.eqb (fst e) name) grammar_globals with
  | Some (_, v) => Some v
  | None => None
  end.

(** [ODataLexer.error(self, token)]: [raise exceptions.TokenizingException(text)];
    [text] is not a local of [error], so it is looked up in the module. *)
Definition error (tok : string) : res (list token) :=
  match lookup_global "text" with
  | Some v => Error (TokenizingException v)
  | None => Error (NameError "text")
  end.

(** SLY's [tokenize] loop ([ignore] is empty). [fuel] is the input length:
    every step consumes a character. *)
Fixpoint tokenize_from (fuel : nat) (s : list ascii) : res (list token) :=
  match fuel with
  | 0 => Ok []
  | S f =>
      match s with
      | [] => Ok []
      | x :: rest =>
          match prefix_match master_re s with
          | Some (s1, (i, _) :: _) =>
              match nth_error token_rules (i - 1) with
              | Some (k, _) =>
                  let value := firstn (List.length s - List.length s1) s in
                  ts <- tokenize_from f s1 ;;
                  Ok (mk_token k (token_value k value) :: ts)
              | None => Ok []  (* no group of [master_re] has this number *)
              end
          | Some (_, []) => Ok []  (* every alternative of [master_re] is a group *)
          | None =>
              if existsb (Ascii.eqb x) literals
              then ts <- tokenize_from f rest ;;
                   Ok (mk_token (LIT x) (TText (String x EmptyString)) :: ts)
              else error (string_of_list_ascii s)
          end
      end
  end.

(** [list(ODataLexer().tokenize(text))] *)
Definition tokenize (text : string) : res (list token) :=
  let s := list_ascii_of_string text in tokenize_from (List.length s) s.

End Lexer.

(** ** The parser: [ODataParser]

    A production's value is the value of its action; an action that raises
    makes the whole derivation raise. The reductions of a derivation run
    bottom-up and left to right, so a derivation raises the first error in
    that order. [ODataParser] is an LALR(1) parser with precedence
    declarations that builds one of these derivations; the model keeps all
    of them, so a property of every value holds of the one the parser
    builds. *)

Module Grammar.
Import Ast Lexer.

(** All derivations of a nonterminal that span exactly a token list. *)
Definition P (A : Type) : Type := list token -> list (res A).

Definition res_map {A B} (f : A -> B) (r : res A) : res B :=
  match r with Ok a => Ok (f a) | Error e => Error e end.

(** Two consecutive children: the left child's errors come first. *)
Definition pair_res {A B} (a : res A) (b : res B) : res (A * B) :=
  match a with
  | Error e => Error e
  | Ok x => match b with Error e => Error e | Ok y => Ok (x, y) end
  end.

Fixpoint splits (ts : list token) : list (list token * list token) :=
  match ts with
  | [] => [([], [])]
  | t :: r => ([], ts) :: map (fun '(l, r') => (t :: l, r')) (splits r)
  end.

(** The end of a right-hand side. *)
Definition done : P unit :=
  fun ts => match ts with [] => [Ok tt] | _ => [] end.

(** [X Y]: every split of the input; the right part is tried first. *)
Definition seq {A B} (p : P A) (q : P B) : P (A * B) :=
  fun ts =>
    flat_map (fun lr =>
      match q (snd lr) with
      | [] => []
      | bs => flat_map (fun a => map (pair_res a) bs) (p (fst lr))
      end) (splits ts).

(** A terminal whose value is an AST node, followed by the rest. *)
Definition tok_node (k : tkind) (t : token) : option node :=
  if tkind_eqb (tok_type t) k
  then match tok_value t with TNode n => Some n | TText _ => None end
  else None.

Definition seq_n {B} (k : tkind) (q : P B) : P (node * B) :=
  fun ts =>
    match ts with
    | t :: r => match tok_node k t with
                | Some n => map (res_map (pair n)) (q r)
                | None => []
                end
    | [] => []
    end.

(** A literal character, followed by the rest. *)
Definition seq_l {B} (c : ascii) (q : P B) : P B :=
  fun ts =>
    match ts with
    | t :: r => if tkind_eqb (tok_type t) (LIT c) then q r else []
    | [] => []
    end.

(** [BWS : WS | empty], followed by the rest. *)
Definition seq_bws {B} (q : P B) : P B :=
  fun ts =>
    app (q ts) (match ts with
                | t :: r => if tkind_eqb (tok_type t) WS then q r else []
                | [] => []
                end).

(** Running an action on the children's values. *)
Definition act {A B} (f : A -> res B) (p : P A) : P B :=
  fun ts => map (fun r => match r with Ok a => f a | Error e => Error e end) (p ts).

Definition alt {A} (ps : list (P A)) : P A :=
  fun ts => flat_map (fun p => p ts) ps.

(** [ODATA_FUNCTIONS]: an exact number of arguments, or [(min, max)]. *)
Definition ODATA_FUNCTIONS : list (string * (nat + nat * nat)) :=
  [("concat", inl 2); ("contains", inl 2); ("endswith", inl 2);
   ("indexof", inl 2); ("length", inl 1); ("startswith", inl 2);
   ("substring", inr (2, 3)); ("matchesPattern", inl 2);
   ("tolower", inl 1); ("toupper", inl 1); ("trim", inl 1);
   ("year", inl 1); ("month", inl 1); ("day", inl 1); ("hour", inl 1);
   ("minute", inl 1); ("second", inl 1); ("fractionalseconds", inl 1);
   ("totalseconds", inl 1); ("date", inl 1); ("time", inl 1);
   ("totaloffsetminutes", inl 1); ("mindatetime", inl 0);
   ("maxdatetime", inl 0); ("now", inl 0);
   ("round", inl 1); ("floor", inl 1); ("ceiling", inl 1);
   ("geo.distance", inl 1); ("geo.length", inl 1); ("geo.intersects", inl 2);
   ("hassubset", inl 2); ("hassubsequence", inl 2)].

(** [ODATA_FUNCTIONS[name]], [None] for a [KeyError]. *)
Definition lookup_function (name : string) : option (nat + nat * nat) :=
  match find (fun e => String.eqb (fst e) name) ODATA_FUNCTIONS with
  | Some (_, v) => Some v
  | None => None
  end.

(** [ODataParser._function_call]. [func] comes from an [ODATA_IDENTIFIER]
    token, so [func.name] is a string; a [NamedParam] name would be an
    unhashable dict key. *)
Definition _function_call (func : node) (args : list node) : res node :=
  nm <- get_name func ;;
  match nm with
  | inr _ => Error (TypeError "unhashable type")
  | inl func_name =>
      let n_args_given := List.length args in
      match lookup_function func_name with
      | None => Error (UnknownFunctionException func_name)
      | Some (inl n_args_exp) =>
          if negb (Nat.eqb n_args_given n_args_exp)
          then Error (ArgumentCountException func_name n_args_exp n_args_exp n_args_given)
          else Ok (Call func args)
      | Some (inr (lo, hi)) =>
          if Nat.ltb n_args_given lo || Nat.ltb hi n_args_given
          then Error (ArgumentCountException func_name lo hi n_args_given)
          else Ok (Call func args)
      end
  end.

(** [ODataParser._explode_attr] *)
Fixpoint _explode_attr (attr : node) : res (list string) :=
  match attr with
  | Attribute owner a =>
      exploded <- match owner with
                  | Identifier name _ => Ok [name]
                  | Attribute _ _ => _explode_attr owner
                  | _ => Error NotImplementedError
                  end ;;
      match a with
      | inl s => Ok (app exploded [s])
      | inr (Attribute _ _ as n) => rest <- _explode_attr n ;; Ok (app exploded rest)
      | inr _ => Error NotImplementedError
      end
  | _ => Error (AttributeError (class_name attr) "owner")
  end.

(** [ODataParser._reverse_attributes]: [exploded.pop()], then
    [exploded.pop(0)], then the remaining names from left to right. *)
Definition _reverse_attributes (attr : node) : res node :=
  exploded <- _explode_attr attr ;;
  match rev exploded with
  | [] => Error IndexError
  | leaf_attr :: rinit =>
      match rev rinit with
      | [] => Error IndexError
      | first :: inters =>
          Ok (Attribute (fold_left (fun owner inter => Attribute owner (inl inter))
                           inters (Identifier first [])) (inl leaf_attr))
      end
  end.

(** A terminal alone. *)
Definition term (k : tkind) : P node := act (fun '(n, _) => Ok n) (seq_n k done).

(** [p[1].val] on the value of [list_expr]. *)
Definition list_val (n : node) : res (list node) :=
  match n with List l => Ok l | _ => Error (AttributeError (class_name n) "val") end.

(** The derivations of each nonterminal that has several productions or is
    used with a shorter input; [lambda_] and the nonterminals between
    [property_path_expr] and [any_expr] are spelled out below. *)
Record tables : Type := mk_tables {
  t_common_expr : P node;
  t_list_items : P (list node);
  t_list_expr : P node;
  t_member_expr : P node;
  t_lambda : P node }.

Section Productions.
(** The tables for strictly shorter inputs. *)
Variable prev : tables.

(** [lambda_ : ODATA_IDENTIFIER BWS ":" BWS common_expr] *)
Definition lambda_ : P node :=
  act (fun '(id, e) => Ok (Lambda id e))
    (seq_n ODATA_IDENTIFIER (seq_bws (seq_l ":" (seq_bws (t_common_expr prev))))).

(** [any_expr] and [all_expr], with the [lambda_] of a shorter input. *)
Definition any_expr : P (node * option node) :=
  alt [act (fun '(op, (l, _)) => Ok (op, Some l))
         (seq_n ANY (seq_l "(" (seq_bws (seq (t_lambda prev) (seq_bws (seq_l ")" done))))));
       act (fun '(op, _) => Ok (op, None))
         (seq_n ANY (seq_l "(" (seq_bws (seq_l ")" done))))].

Definition all_expr : P (node * option node) :=
  act (fun '(op, (l, _)) => Ok (op, Some l))
    (seq_n ALL (seq_l "(" (seq_bws (seq (t_lambda prev) (seq_bws (seq_l ")" done)))))).

(** [collection_path_expr : '/' any_expr | '/' all_expr] *)
Definition collection_path_expr : P (node * option node) :=
  seq_l "/" (alt [any_expr; all_expr]).

(** [single_navigation_expr : '/' member_expr] *)
Definition single_navigation_expr : P node := seq_l "/" (t_member_expr prev).

(** The action of [property_path_expr : entity_navigation_property
    single_navigation_expr]. *)
Definition navigation_action (p0 p1 : node) : res node :=
  match p1 with
  | Attribute _ _ => _reverse_attributes (Attribute p0 (inr p1))
  | CollectionLambda owner operator lambda =>
      nm <- get_name owner ;; Ok (CollectionLambda (Attribute p0 nm) operator lambda)
  | _ => nm <- get_name p1 ;; Ok (Attribute p0 nm)
  end.

(** [property_path_expr], which is also [member_expr] and
    [first_member_expr]; [entity_navigation_property] is [ODATA_IDENTIFIER]. *)
Definition property_path_expr : P node :=
  alt [term ODATA_IDENTIFIER;
       act (fun '(p0, p1) => navigation_action p0 p1)
         (seq_n ODATA_IDENTIFIER single_navigation_expr);
       act (fun '(p0, (op, lam)) => Ok (CollectionLambda p0 op lam))
         (seq_n ODATA_IDENTIFIER collection_path_expr)].

(** [list_items] *)
Definition list_items : P (list node) :=
  alt [act (fun '(a, b) => Ok [a; b])
         (seq (t_common_expr prev) (seq_bws (seq_l "," (seq_bws (t_common_expr prev)))));
       act (fun '(l, e) => Ok (app l [e]))
         (seq (t_list_items prev) (seq_bws (seq_l "," (seq_bws (t_common_expr prev)))))].

(** [list_expr] *)
Definition list_expr : P node :=
  alt [act (fun '(e, _) => Ok (List [e]))
         (seq_l "(" (seq_bws (seq (t_common_expr prev)
            (seq_bws (seq_l "," (seq_bws (seq_l ")" done)))))));
       act (fun '(l, _) => Ok (List l))
         (seq_l "(" (seq_bws (seq (t_list_items prev) (seq_bws (seq_l ")" done)))))].

(** [common_expr OP common_expr] *)
Definition binop (mk : node -> node -> node -> node) (k : tkind) : P node :=
  act (fun '(l, (op, r)) => Ok (mk op l r))
    (seq (t_common_expr prev) (seq_n k (t_common_expr prev))).

Definition primitive_literal : P node :=
  alt (map term [NULL; INTEGER; DECIMAL; STRING; BOOLEAN; GUID; DATE; TIME;
                 DATETIME; DURATION]).

(** [common_expr], in the order of the source. *)
Definition common_expr : P node :=
  alt [act (fun '(e, _) => Ok e)
         (seq_l "(" (seq_bws (seq (t_common_expr prev) (seq_bws (seq_l ")" done)))));
       primitive_literal;
       property_path_expr;
       list_expr;
       act (fun '(op, e) => Ok (UnaryOp op e)) (seq_n UMINUS (seq_bws (t_common_expr prev)));
       alt (map (binop BinOp) [ADD; SUB; MUL; DIV; MOD]);
       alt (map (binop Compare) [EQ; NE; LT; LE; GT; GE]);
       act (fun '(l, (op, r)) => Ok (Compare op l r))
         (seq (t_common_expr prev) (seq_n IN (t_list_expr prev)));
       alt (map (binop BoolOp) [AND; OR]);
       act (fun '(op, e) => Ok (UnaryOp op e)) (seq_n NOT (t_common_expr prev));
       act (fun '(f, _) => _function_call f [])
         (seq_n ODATA_IDENTIFIER (seq_l "(" (seq_l ")" done)));
       act (fun '(f, (e, _)) => _function_call f [e])
         (seq_n ODATA_IDENTIFIER (seq_l "(" (seq_bws (seq (t_common_expr prev)
            (seq_bws (seq_l ")" done))))));
       act (fun '(f, l) => args <- list_val l ;; _function_call f args)
         (seq_n ODATA_IDENTIFIER (t_list_expr prev))].

Definition build : tables :=
  mk_tables common_expr list_items list_expr property_path_expr lambda_.

End Productions.

(** [level n] holds all derivations of inputs of at most [n] tokens: every
    production other than a unit production has its children on strictly
    shorter inputs. *)
Fixpoint level (n : nat) : tables :=
  match n with
  | 0 => mk_tables (fun _ => []) (fun _ => []) (fun _ => []) (fun _ => []) (fun _ => [])
  | S n' => build (level n')
  end.

(** The values of all derivations of [common_expr], the start symbol. *)
Definition parses (ts : list token) : list (res node) :=
  t_common_expr (level (List.length ts)) ts.

(** [ODataParser().parse(ODataLexer().tokenize(text))], reading the tokens
    first; an empty list means a [ParsingException]. SLY pulls the tokens
    one at a time, so on an input the lexer rejects the program may raise
    the parser's error for a prefix first; the ASTs it returns are the
    [Ok] values here, which need the whole input tokenized. *)
Definition parse (text : string) : list (res node) :=
  match tokenize text with
  | Ok ts => parses ts
  | Error e => [Error e]
  end.

End Grammar.

(** ** [roundtrip.py]: [AstToODataVisitor]

    A visit returns a Python [str] or [None] (from [generic_visit]); [+] on
    [None] and [str.join] over a [None] raise a [TypeError]. *)

Module Roundtrip.
Import Ast.

Definition pystr : Type := option string.

Definition s_ (s : string) : res pystr := Ok (Some s).

(** [a + b], evaluating [a] and then [b]. *)
Definition plus (a b : res pystr) : res pystr :=
  x <- a ;; y <- b ;;
  match x, y with
  | Some x, Some y => Ok (Some (x ++ y))
  | _, _ => Error (TypeError "+")
  end.

Fixpoint join_str (sep : string) (l : list string) : string :=
  match l with
  | [] => "" | [x] => x | x :: l' => x ++ sep ++ join_str sep l'
  end.

(** [sep.join(items)] once the items are computed. *)
Definition join (sep : string) (items : list pystr) : res pystr :=
  match fold_right (fun o acc => match o, acc with
                                 | Some x, Some l => Some (x :: l)
                                 | _, _ => None
                                 end) (Some []) items with
  | Some l => s_ (join_str sep l)
  | None => Error (TypeError "sequence item: expected str instance")
  end.

(** [PRECEDENCE.get(cls, 100)], a class being given by any of its nodes. *)
Definition PRECEDENCE (cls : node) : nat :=
  match cls with
  | Attribute _ _ | Call _ _ => 10
  | Not | USub => 9
  | Mult | Div | Mod => 8
  | Add | Sub => 7
  | Gt | GtE | Lt | LtE => 6
  | Eq | NotEq => 5
  | And => 4
  | Or => 3
  | _ => 100
  end.

(** The class compared in [_visit_and_paren_if_precedence_lower]: [node.op],
    else [node.comparator], else the node's own class. *)
Definition node_op (n : node) : node :=
  match n with
  | BinOp op _ _ | BoolOp op _ _ | UnaryOp op _ => op
  | Compare comparator _ _ => comparator
  | _ => n
  end.

(** [_visit_and_paren_if_precedence_lower], given [self.visit(node)]. *)
Definition paren_if_lower (r : res pystr) (n precedence : node) : res pystr :=
  if Nat.ltb (PRECEDENCE (node_op n)) (PRECEDENCE precedence)
  then plus (plus (s_ "(") r) (s_ ")")
  else r.

(** [AstToODataVisitor.visit]; the classes without a [visit_] method
    ([Geography], [NamedParam]) go to [generic_visit], which visits their
    node fields and returns [None]. *)
Fixpoint visit (n : node) : res pystr :=
  let fix visit_all (l : list node) : res (list pystr) :=
    match l with
    | [] => Ok []
    | x :: l' => a <- visit x ;; r <- visit_all l' ;; Ok (a :: r)
    end in
  let binary (op l r : node) :=
    left <- paren_if_lower (visit l) l op ;;
    right <- paren_if_lower (visit r) r op ;;
    plus (plus (plus (plus (Ok left) (s_ " ")) (visit op)) (s_ " ")) (Ok right) in
  match n with
  | Identifier name namespace =>
      match namespace with
      | [] => s_ name
      | _ => plus (plus (s_ (join_str "." namespace)) (s_ ".")) (s_ name)
      end
  | Attribute owner attr =>
      plus (plus (visit owner) (s_ "/"))
           (match attr with inl a => s_ a | inr _ => Error (TypeError "+") end)
  | Null => s_ "null"
  | String val => s_ ("'" ++ val ++ "'")
  | Duration val => s_ ("duration'" ++ val ++ "'")
  | Integer val | Float val | Boolean val | Date val | Time val | DateTime val
  | GUID val => s_ val
  | List val => plus (plus (s_ "(") (xs <- visit_all val ;; join ", " xs)) (s_ ")")
  | Add => s_ "add" | Sub => s_ "sub" | Mult => s_ "mul" | Div => s_ "div"
  | Mod => s_ "mod"
  | BinOp op l r => binary op l r
  | Eq => s_ "eq" | NotEq => s_ "ne" | Lt => s_ "lt" | LtE => s_ "le"
  | Gt => s_ "gt" | GtE => s_ "ge" | In => s_ "in"
  | Compare comparator l r => binary comparator l r
  | And => s_ "and" | Or => s_ "or"
  | BoolOp op l r => binary op l r
  | Not => s_ "not" | USub => s_ "-"
  | UnaryOp op operand =>
      o <- paren_if_lower (visit operand) operand op ;;
      plus (plus (visit op) (s_ " ")) (Ok o)
  | Call func args =>
      plus (plus (plus (visit func) (s_ "("))
                 (xs <- visit_all args ;; join ", " xs)) (s_ ")")
  | Any => s_ "any" | All => s_ "all"
  | Lambda identifier expression =>
      plus (plus (visit identifier) (s_ ": ")) (visit expression)
  | CollectionLambda owner operator lambda =>
      plus (plus (plus (plus (plus (visit owner) (s_ "/")) (visit operator)) (s_ "("))
                 (match lambda with Some l => visit l | None => s_ "" end)) (s_ ")")
  | Geography _ => Ok None
  | NamedParam name param => _ <- visit name ;; _ <- visit param ;; Ok None
  end.

End Roundtrip.

(** ** [sql/]: [AstToSqlVisitor], [AstToSqliteSqlVisitor], [AstToAthenaSqlVisitor] *)

Module Sql.
Import Regex Ast.

Inductive dialect : Type := Base | Sqlite | Athena.

(** A visit returns a [str], an [int] ([visit_Boolean] of SQLite) or [None]
    (from [generic_visit]). *)
Inductive sqlval : Type :=
| SStr (s : string)
| SInt (n : nat)
| SNone.

Fixpoint nat_str_go (fuel n : nat) (acc : string) : string :=
  match fuel with
  | 0 => acc
  | S f =>
      let acc' := String.String (ascii_of_nat (48 + Nat.modulo n 10)) acc in
      if Nat.ltb n 10 then acc' else nat_str_go f (Nat.div n 10) acc'
  end.

(** [f"{v}"] *)
Definition fmt (v : sqlval) : string :=
  match v with SStr s => s | SInt n => nat_str_go (S n) n "" | SNone => "None" end.

(** The double quote character. *)
Definition dq : string := String.String "034"%char EmptyString.

(** [", ".join(...)] once the items are computed. *)
Definition join (sep : string) (items : list sqlval) : res string :=
  match fold_right (fun v acc => match v, acc with
                                 | SStr x, Some l => Some (x :: l)
                                 | _, _ => None
                                 end) (Some []) items with
  | Some l => Ok (Roundtrip.join_str sep l)
  | None => Error (TypeError "sequence item: expected str instance")
  end.

(** [bool(s)] for an optional string. *)
Definition truthy (o : option string) : bool :=
  match o with Some s => negb (String.eqb s "") | None => false end.

(** [clean_sqlite_identifier] and [clean_athena_identifier] (same text):
    lower-case, then [[^a-zA-Z0-9_]] replaced by [_]; [id_new[0]] raises on
    an empty name. On ASCII text [str.lower] maps each character to one
    character, as [to_lower] does. *)
Definition clean_identifier (identifier : string) : res string :=
  let id_new := map (fun c => if is_word c then c else "_"%char)
                    (map to_lower (list_ascii_of_string identifier)) in
  match id_new with
  | [] => Error IndexError
  | _ => Ok (string_of_list_ascii id_new)
  end.

(** Python's [==] on dataclass instances: same class and equal fields. *)
Fixpoint node_eqb (a b : node) : bool :=
  let fix list_eqb (l1 l2 : list node) : bool :=
    match l1, l2 with
    | [], [] => true
    | x :: l1', y :: l2' => node_eqb x y && list_eqb l1' l2'
    | _, _ => false
    end in
  let fix strs_eqb (l1 l2 : list string) : bool :=
    match l1, l2 with
    | [], [] => true
    | x :: l1', y :: l2' => String.eqb x y && strs_eqb l1' l2'
    | _, _ => false
    end in
  match a, b with
  | Identifier n1 s1, Identifier n2 s2 => String.eqb n1 n2 && strs_eqb s1 s2
  | Attribute o1 a1, Attribute o2 a2 =>
      node_eqb o1 o2 &&
      match a1, a2 with
      | inl x, inl y => String.eqb x y
      | inr x, inr y => node_eqb x y
      | _, _ => false
      end
  | Integer x, Integer y | Float x, Float y | Boolean x, Boolean y
  | String x, String y | Geography x, Geography y | Date x, Date y
  | Time x, Time y | DateTime x, DateTime y | Duration x, Duration y
  | GUID x, GUID y => String.eqb x y
  | List l1, List l2 => list_eqb l1 l2
  | Null, Null | Add, Add | Sub, Sub | Mult, Mult | Div, Div | Mod, Mod
  | Eq, Eq | NotEq, NotEq | Lt, Lt | LtE, LtE | Gt, Gt | GtE, GtE | In, In
  | And, And | Or, Or | Not, Not | USub, USub | Any, Any | All, All => true
  | BinOp o1 l1 r1, BinOp o2 l2 r2 | Compare o1 l1 r1, Compare o2 l2 r2
  | BoolOp o1 l1 r1, BoolOp o2 l2 r2 =>
      node_eqb o1 o2 && node_eqb l1 l2 && node_eqb r1 r2
  | UnaryOp o1 x1, UnaryOp o2 x2 | NamedParam o1 x1, NamedParam o2 x2
  | Lambda o1 x1, Lambda o2 x2 => node_eqb o1 o2 && node_eqb x1 x2
  | Call f1 l1, Call f2 l2 => node_eqb f1 f2 && list_eqb l1 l2
  | CollectionLambda o1 p1 m1, CollectionLambda o2 p2 m2 =>
      node_eqb o1 o2 && node_eqb p1 p2 &&
      match m1, m2 with
      | Some x, Some y => node_eqb x y
      | None, None => true
      | _, _ => false
      end
  | _, _ => false
  end.

(** [isinstance(n, (ast.BoolOp, ast.Compare))] *)
Definition is_bool_expr (n : node) : bool :=
  match n with BoolOp _ _ _ | Compare _ _ _ => true | _ => false end.

Definition wrap (s : string) : string := "(" ++ s ++ ")".

(** The INTERVAL expression of [visit_Duration]. *)
Definition intervals_sql (sign : option string) (intervals : list string) : string :=
  let sign := match sign with Some s => s | None => "" end in
  match intervals with
  | [] => ""
  | [i] => sign ++ i
  | _ => sign ++ wrap (Roundtrip.join_str " + " intervals)
  end.

Definition interval (v : option string) (unit : string) : list string :=
  match v with
  | Some s => if truthy v then ["INTERVAL '" ++ s ++ "' " ++ unit] else []
  | None => []
  end.

(** [visit_Duration] of [AstToSqlVisitor], given [node.unpack()]. *)
Definition visit_Duration_base (parts : list (option string)) : res sqlval :=
  match parts with
  | [sign; years; months; days; hours; minutes; seconds] =>
      Ok (SStr (intervals_sql sign
           (interval years "YEAR" ++ interval months "MONTH" ++ interval days "DAY" ++
            interval hours "HOUR" ++ interval minutes "MINUTE" ++
            interval seconds "SECOND")%list))
  | _ => Error (ValueError "wrong number of values to unpack (expected 7)")
  end.

Fixpoint split_on (c : ascii) (s : list ascii) : list (list ascii) :=
  match s with
  | [] => [[]]
  | x :: s' =>
      let r := split_on c s' in
      if Ascii.eqb x c then [] :: r
      else match r with p :: r' => (x :: p) :: r' | [] => [[x]] end
  end.

(** ["{:0<3.3}".format(m)]: at most three characters, padded with [0]. *)
Definition millis_fmt (m : list ascii) : string :=
  let m3 := firstn 3 m in
  string_of_list_ascii (m3 ++ repeat "0"%char (3 - List.length m3)).

(** [visit_Duration] of [AstToAthenaSqlVisitor], given [node.unpack()]:
    [sign, days, hours, minutes, seconds = node.unpack()]. *)
Definition visit_Duration_athena (parts : list (option string)) : res sqlval :=
  match parts with
  | [sign; days; hours; minutes; seconds] =>
      sm <- match seconds with
            | Some s =>
                let l := list_ascii_of_string s in
                if truthy seconds && existsb (Ascii.eqb ".") l
                then match split_on "." l with
                     | [a; b] => Ok (Some (string_of_list_ascii a), Some (millis_fmt b))
                     | _ => Error (ValueError "wrong number of values to unpack (expected 2)")
                     end
                else Ok (seconds, None)
            | None => Ok (None, None)
            end ;;
      Ok (SStr (intervals_sql sign
           (interval days "DAY" ++ interval hours "HOUR" ++ interval minutes "MINUTE" ++
            interval (fst sm) "SECOND" ++ interval (snd sm) "MILLISECOND")%list))
  | _ => Error (ValueError "wrong number of values to unpack (expected 5)")
  end.

(** [visit_Compare] (same text in the three dialects), given
    [left = self.visit(node.left)], [right = self.visit(node.right)] and
    [comparator = self.visit(node.comparator)]. *)
Definition visit_Compare (comparator l r : node) (left right comp : sqlval) : sqlval :=
  let left := if is_bool_expr l then wrap (fmt left) else fmt left in
  let right := if is_bool_expr r then wrap (fmt right) else fmt right in
  let comp := match r, comparator with
              | Null, Eq => "IS"
              | Null, NotEq => "IS NOT"
              | _, _ => fmt comp
              end in
  SStr (left ++ " " ++ comp ++ " " ++ right).

(** [visit_BoolOp] (same text in the three dialects), given the visits of
    [node.left], [node.op] and [node.right]. *)
Definition visit_BoolOp (op l r : node) (left o right : sqlval) : sqlval :=
  let left := match l with
              | BoolOp lop _ _ => if negb (node_eqb lop op) then wrap (fmt left) else fmt left
              | _ => fmt left
              end in
  let right := match r with
               | BoolOp rop _ _ => if negb (node_eqb rop op) then wrap (fmt right) else fmt right
               | _ => fmt right
               end in
  SStr (left ++ " " ++ fmt o ++ " " ++ right).

(** [visit_UnaryOp] (same text in the three dialects). *)
Definition visit_UnaryOp (operand : node) (o x : sqlval) : sqlval :=
  let x := match operand with BoolOp _ _ _ => wrap (fmt x) | _ => fmt x end in
  SStr (fmt o ++ " " ++ x).

Section Visitor.

(** [self.table_alias] *)
Variable table_alias : option string.

(** [getattr(self, "sqlfunc_" + name)] called on [node.args]: [None] when the visitor
    of the dialect has no such method, otherwise the method's result, given
    the argument nodes and the visit of each of them. *)
Variable sqlfunc : dialect -> string -> list node -> list (res sqlval) -> option (res sqlval).

Variable d : dialect.

Definition visit_Identifier (name : string) : res sqlval :=
  name' <- match d with Base => Ok name | _ => clean_identifier name end ;;
  let sql_id := dq ++ name' ++ dq in
  Ok (SStr (if truthy table_alias
            then dq ++ match table_alias with Some a => a | None => "" end ++ dq ++ "." ++ sql_id
            else sql_id)).

(** [self.visit(node)] of the visitor of dialect [d]; classes without a
    [visit_] method go to [generic_visit], which visits their node fields
    in order and returns [None]. *)
Fixpoint visit (n : node) : res sqlval :=
  let fix visit_all (l : list node) : res (list sqlval) :=
    match l with
    | [] => Ok []
    | x :: l' => a <- visit x ;; r <- visit_all l' ;; Ok (a :: r)
    end in
  let fix visit_each (l : list node) : list (res sqlval) :=
    match l with [] => [] | x :: l' => visit x :: visit_each l' end in
  match n with
  | Identifier name _ => visit_Identifier name
  | Null => Ok (SStr "NULL")
  | Integer val | Float val => Ok (SStr val)
  | Boolean val =>
      match d with
      | Sqlite => Ok (SInt (if String.eqb val "false" then 0 else 1))
      | _ => Ok (SStr (string_of_list_ascii (Py.upper (list_ascii_of_string val))))
      end
  | String val =>
      Ok (SStr ("'" ++ string_of_list_ascii
                  (Py.replace ["'"]%char ["'"; "'"]%char (list_ascii_of_string val)) ++ "'"))
  | Date val =>
      match d with
      | Sqlite => Ok (SStr ("date('" ++ val ++ "')"))
      | _ => Ok (SStr ("DATE '" ++ val ++ "'"))
      end
  | DateTime val =>
      match d with
      | Base => Ok (SStr ("TIMESTAMP '" ++ string_of_list_ascii
                     (Py.replace ["T"]%char [" "]%char (list_ascii_of_string val)) ++ "'"))
      | Sqlite => Ok (SStr ("datetime('" ++ val ++ "')"))
      | Athena => Ok (SStr ("from_iso8601_timestamp('" ++ val ++ "')"))
      end
  | Duration val =>
      match d with
      | Base => parts <- unpack val ;; visit_Duration_base parts
      | Athena => parts <- unpack val ;; visit_Duration_athena parts
      | Sqlite => Ok SNone
      end
  | GUID val => Ok (SStr ("'" ++ val ++ "'"))
  | List val =>
      xs <- visit_all val ;; options <- join ", " xs ;; Ok (SStr (wrap options))
  | Add => Ok (SStr "+") | Sub => Ok (SStr "-") | Mult => Ok (SStr "*")
  | Div => Ok (SStr "/") | Mod => Ok (SStr "%")
  | BinOp op l r =>
      left <- visit l ;; right <- visit r ;; o <- visit op ;;
      Ok (SStr (fmt left ++ " " ++ fmt o ++ " " ++ fmt right))
  | Eq => Ok (SStr "=") | NotEq => Ok (SStr "!=") | Lt => Ok (SStr "<")
  | LtE => Ok (SStr "<=") | Gt => Ok (SStr ">") | GtE => Ok (SStr ">=")
  | In => Ok (SStr "IN")
  | Compare comparator l r =>
      left <- visit l ;; right <- visit r ;; comp <- visit comparator ;;
      Ok (visit_Compare comparator l r left right comp)
  | And => Ok (SStr "AND") | Or => Ok (SStr "OR")
  | BoolOp op l r =>
      left <- visit l ;; o <- visit op ;; right <- visit r ;;
      Ok (visit_BoolOp op l r left o right)
  | Not => Ok (SStr "NOT")
  | UnaryOp op operand =>
      o <- visit op ;; x <- visit operand ;; Ok (visit_UnaryOp operand o x)
  | Call func args =>
      match get_name func with
      | Error _ => Error (AttributeError (class_name func) "name")
      | Ok (inr _) => Error (TypeError "can only concatenate str")
      | Ok (inl name) =>
          match sqlfunc d (string_of_list_ascii (map to_lower (list_ascii_of_string name)))
                  args (visit_each args) with
          | Some r => r
          | None => Error (UnsupportedFunctionException name)
          end
      end
  | Attribute owner _ => _ <- visit owner ;; Ok SNone
  | Lambda identifier expression =>
      _ <- visit identifier ;; _ <- visit expression ;; Ok SNone
  | CollectionLambda owner operator lambda =>
      _ <- visit owner ;; _ <- visit operator ;;
      match lambda with Some l => _ <- visit l ;; Ok SNone | None => Ok SNone end
  | NamedParam name param => _ <- visit name ;; _ <- visit param ;; Ok SNone
  | Time _ | Geography _ | USub | Any | All => Ok SNone
  end.

End Visitor.

End Sql.

(** * Properties *)

(** ** Predicates used in the statements and proofs *)

Module Spec.
Import Ast Lexer Grammar.

(** The registry admits [n] arguments. *)
Definition arity_ok (a : nat + nat * nat) (n : nat) : Prop :=
  match a with
  | inl k => n = k
  | inr (lo, hi) => lo <= n <= hi
  end.

(** A [Call] whose function is a registered name and whose number of
    arguments the registry admits. *)
Definition call_ok (func : node) (args : list node) : Prop :=
  exists name ns a, func = Identifier name ns /\ lookup_function name = Some a /\
                    arity_ok a (List.length args).

(** The shape of every AST the parser returns: attribute names are strings
    (attribute chains are left-nested), every call is registered with an
    admitted number of arguments, and the right operand of an [in] is a
    [List]. *)
Fixpoint wf (n : node) : Prop :=
  let fix wfl (l : list node) : Prop :=
    match l with [] => True | x :: l' => wf x /\ wfl l' end in
  match n with
  | Attribute owner attr => wf owner /\ (exists s, attr = inl s)
  | List val => wfl val
  | BinOp op l r | BoolOp op l r => wf op /\ wf l /\ wf r
  | Compare comparator l r =>
      wf comparator /\ wf l /\ wf r /\ (comparator = In -> exists val, r = List val)
  | UnaryOp op operand => wf op /\ wf operand
  | Call func args => call_ok func args /\ wf func /\ wfl args
  | Lambda identifier expression => wf identifier /\ wf expression
  | CollectionLambda owner operator lambda =>
      wf owner /\ wf operator /\ match lambda with Some l => wf l | None => True end
  | NamedParam name param => wf name /\ wf param
  | _ => True
  end.

(** The values of [member_expr]: a name, an attribute, or a collection
    lambda on a name or an attribute. *)
Definition member_ok (n : node) : Prop :=
  wf n /\
  match n with
  | Identifier _ _ | Attribute _ _ => True
  | CollectionLambda owner _ _ =>
      match owner with Identifier _ _ | Attribute _ _ => True | _ => False end
  | _ => False
  end.

(** [n] is the value the lexer gives a token of kind [k]. *)
Definition tokval_of (k : tkind) (n : node) : Prop :=
  exists value, token_value k value = TNode n.

(** A token as the lexer makes it. *)
Definition tok_ok (t : token) : Prop :=
  exists value, tok_value t = token_value (tok_type t) value.

(** Every value of every derivation of [p] on lexer tokens satisfies [Q]. *)
Definition OkAll {A} (Q : A -> Prop) (rs : list (res A)) : Prop :=
  forall a, List.In (Ok a) rs -> Q a.

Definition POk {A} (Q : A -> Prop) (p : P A) : Prop :=
  forall ts, Forall tok_ok ts -> OkAll Q (p ts).

Record tables_ok (tb : tables) : Prop := {
  ok_common_expr : POk wf (t_common_expr tb);
  ok_list_items : POk (Forall wf) (t_list_items tb);
  ok_list_expr : POk (fun n => wf n /\ exists val, n = List val) (t_list_expr tb);
  ok_member_expr : POk member_ok (t_member_expr tb);
  ok_lambda : POk wf (t_lambda tb) }.

(** The values of [any_expr] and [all_expr]: the operator and the lambda. *)
Definition lam_ok (x : node * option node) : Prop :=
  wf (fst x) /\ match snd x with Some l => wf l | None => True end.

(** [Q] holds at every node of an AST. *)
Fixpoint all_nodes (Q : node -> Prop) (n : node) : Prop :=
  let fix all_l (l : list node) : Prop :=
    match l with [] => True | x :: l' => all_nodes Q x /\ all_l l' end in
  Q n /\
  match n with
  | Attribute owner attr =>
      all_nodes Q owner /\ match attr with inr a => all_nodes Q a | inl _ => True end
  | List val => all_l val
  | BinOp a b c | Compare a b c | BoolOp a b c =>
      all_nodes Q a /\ all_nodes Q b /\ all_nodes Q c
  | UnaryOp a b | Lambda a b | NamedParam a b => all_nodes Q a /\ all_nodes Q b
  | Call func args => all_nodes Q func /\ all_l args
  | CollectionLambda owner operator lambda =>
      all_nodes Q owner /\ all_nodes Q operator /\
      match lambda with Some l => all_nodes Q l | None => True end
  | _ => True
  end.

(** A [Call] node names a registered function with an admitted number of
    arguments. *)
Definition call_node_ok (m : node) : Prop :=
  match m with Call func args => call_ok func args | _ => True end.

(** The right operand of a [Compare] with comparator [In] is a [List]. *)
Definition in_node_ok (m : node) : Prop :=
  match m with Compare In _ r => exists val, r = List val | _ => True end.

(** The [attr] field of an [Attribute] node is a string, so that an
    attribute path nests to the left. *)
Definition attr_node_ok (m : node) : Prop :=
  match m with Attribute _ attr => exists s, attr = inl s | _ => True end.

(** [isinstance(n, (ast.BoolOp, ast.Compare))] *)
Definition bool_typed (n : node) : Prop :=
  match n with BoolOp _ _ _ | Compare _ _ _ => True | _ => False end.

(** A [BoolOp] node whose operator is not [op]. *)
Definition other_boolop (op n : node) : Prop :=
  match n with BoolOp nop _ _ => nop <> op | _ => False end.

End Spec.

(** ** Matching, as relations *)

Module RegexSpec.
Import Regex.
Local Open Scope list_scope.

(** [mrel r s c s1 c1]: [r] matches the input [s] up to the rest [s1],
    turning the captures [c] into [c1]; an iteration of [RStar] consumes
    input, as in [mt]. *)
Inductive mrel : re -> list ascii -> caps -> list ascii -> caps -> Prop :=
| MChar p x s c : p x = true -> mrel (RChar p) (x :: s) c s c
| MEps s c : mrel REps s c s c
| MSeq r1 r2 s c s1 c1 s2 c2 :
    mrel r1 s c s1 c1 -> mrel r2 s1 c1 s2 c2 -> mrel (RSeq r1 r2) s c s2 c2
| MAltL r1 r2 s c s1 c1 : mrel r1 s c s1 c1 -> mrel (RAlt r1 r2) s c s1 c1
| MAltR r1 r2 s c s1 c1 : mrel r2 s c s1 c1 -> mrel (RAlt r1 r2) s c s1 c1
| MStarNil r s c : mrel (RStar r) s c s c
| MStarCons r s c s1 c1 s2 c2 :
    mrel r s c s1 c1 -> List.length s1 < List.length s ->
    mrel (RStar r) s1 c1 s2 c2 -> mrel (RStar r) s c s2 c2
| MGroup i r s c s1 c1 :
    mrel r s c s1 c1 -> mrel (RGroup i r) s c s1 ((i, (s, s1)) :: c1).

(** The words [r] matches. *)
Inductive lang : re -> list ascii -> Prop :=
| LChar p x : p x = true -> lang (RChar p) [x]
| LEps : lang REps []
| LSeq r1 r2 w1 w2 : lang r1 w1 -> lang r2 w2 -> lang (RSeq r1 r2) (w1 ++ w2)
| LAltL r1 r2 w : lang r1 w -> lang (RAlt r1 r2) w
| LAltR r1 r2 w : lang r2 w -> lang (RAlt r1 r2) w
| LStarNil r : lang (RStar r) []
| LStarCons r w1 w2 : lang r w1 -> w1 <> [] -> lang (RStar r) w2 -> lang (RStar r) (w1 ++ w2)
| LGroup i r w : lang r w -> lang (RGroup i r) w.

(** The numbers of the groups of [r]. *)
Fixpoint groups (r : re) : list nat :=
  match r with
  | RChar _ | REps => []
  | RSeq r1 r2 | RAlt r1 r2 => groups r1 ++ groups r2
  | RStar r1 => groups r1
  | RGroup i r1 => i :: groups r1
  end.

(** A non-empty run of decimal digits. *)
Definition digits (d : list ascii) : Prop :=
  d <> [] /\ Forall (fun x => is_digit x = true) d.

(** [d] followed by the unit letter [u], or nothing. *)
Definition opt_unit (u : ascii) (p : list ascii) : Prop :=
  p = [] \/ exists d, digits d /\ p = d ++ [u].

(** The upper-cased text between the quotes of a [DURATION] token:
    [[+-]?P(\d+D)?(T(\d+H)?(\d+M)?(\d+(\.\d+)?S)?)?]. *)
Definition dur_shape (v : list ascii) : Prop :=
  exists sg dp tp,
    v = sg ++ "P"%char :: dp ++ tp /\
    (sg = [] \/ sg = ["+"%char] \/ sg = ["-"%char]) /\
    opt_unit "D" dp /\
    (tp = [] \/
     exists h m sec,
       tp = "T"%char :: h ++ m ++ sec /\ opt_unit "H" h /\ opt_unit "M" m /\
       (sec = [] \/
        exists d f, digits d /\ (f = [] \/ exists e, digits e /\ f = "."%char :: e) /\
                    sec = d ++ f ++ ["S"%char])).

(** Every [ascii]. *)
Definition all_ascii : list ascii := map ascii_of_nat (seq 0 256).

End RegexSpec.

(** ** [typing.py] *)

Module Typing.
Import Ast.

(** [isinstance(node, ast._Literal)] *)
Definition is_literal (n : node) : bool :=
  match n with
  | Null | Integer _ | Float _ | Boolean _ | String _ | Geography _ | Date _
  | Time _ | DateTime _ | Duration _ | GUID _ | List _ => true
  | _ => false
  end.

(** [func in (...)] *)
Definition in_names (func : string) (names : list string) : bool :=
  existsb (String.eqb func) names.

(** [infer_type] and [infer_return_type]; a type is given by its class
    name, [None] is Python's [None]. [node.args[i]] raises [IndexError]
    past the end, and [a or b] returns [a] when it is a class. *)
Fixpoint infer_type (n : node) : res (option string) :=
  if is_literal n then Ok (Some (class_name n)) else
  match n with
  | Compare _ _ _ | BoolOp _ _ _ => Ok (Some "Boolean")
  | Call func args =>
      f <- get_name func ;;
      match f with
      | inr _ => Ok None
      | inl func =>
          if in_names func ["contains"; "endswith"; "startswith"; "hassubset";
                            "hassubsequence"; "geo.intersects"]
          then Ok (Some "Boolean")
          else if in_names func ["indexof"; "length"; "year"; "month"; "day"; "hour";
                                 "minute"; "second"; "totaloffsetminutes"]
          then Ok (Some "Integer")
          else if in_names func ["fractionalseconds"; "totalseconds"; "ceiling"; "floor";
                                 "round"; "geo.distance"; "geo.length"]
          then Ok (Some "Float")
          else if in_names func ["tolower"; "toupper"; "trim"] then Ok (Some "String")
          else if String.eqb func "date" then Ok (Some "Date")
          else if in_names func ["maxdatetime"; "mindatetime"; "now"] then Ok (Some "DateTime")
          else if String.eqb func "concat" then
            match args with
            | [] => Error IndexError
            | a0 :: rest =>
                t0 <- infer_type a0 ;;
                match t0 with
                | Some _ => Ok t0
                | None =>
                    match rest with
                    | [] => Error IndexError
                    | a1 :: _ => infer_type a1
                    end
                end
            end
          else if String.eqb func "substring" then
            match args with
            | [] => Error IndexError
            | a0 :: _ => infer_type a0
            end
          else Ok None
      end
  | _ => Ok None
  end.

End Typing.

(** ** [ast.py]: [Identifier.full_name] and [Boolean.py_val] *)

Module AstProps.
Import Regex Ast.

(** [".".join(self.namespace + (self.name,))] *)
Definition full_name (name : string) (namespace : list string) : string :=
  Roundtrip.join_str "." (namespace ++ [name])%list.

(** [Boolean.py_val]: [self.val.lower() == "true"] *)
Definition Boolean_py_val (val : string) : bool :=
  String.eqb (string_of_list_ascii (map to_lower (list_ascii_of_string val))) "true".

End AstProps.

(** ** [rewrite.py]: [AliasRewriter] and [IdentifierStripper], over
    [visitor.NodeTransformer] *)

Module Rewrite.
Import Ast.

(** [hash(node)] succeeds: a frozen dataclass hashes the tuple of its
    fields, and the [list] fields of [List] and [Call] are unhashable. *)
Fixpoint hashable (n : node) : bool :=
  match n with
  | List _ | Call _ _ => false
  | Attribute o a => hashable o && match a with inl _ => true | inr m => hashable m end
  | BinOp a b c | Compare a b c | BoolOp a b c => hashable a && hashable b && hashable c
  | UnaryOp a b | NamedParam a b | Lambda a b => hashable a && hashable b
  | CollectionLambda a b c =>
      hashable a && hashable b && match c with Some m => hashable m | None => true end
  | _ => true
  end.

Section AliasRewriter.

(** [self.replacements], the dict built in [__init__], as its items in
    insertion order; a key given twice keeps the last value. *)
Variable replacements : list (node * node).

(** [node in self.replacements] and [self.replacements[node]]: [None] when
    the node is not a key. *)
Definition dict_get (k : node) : res (option node) :=
  if hashable k
  then Ok (option_map snd (find (fun e => Sql.node_eqb (fst e) k) (rev replacements)))
  else Error (TypeError "unhashable type: 'list'").

(** [AliasRewriter.visit]: [visit_Identifier] and [visit_Attribute], the
    other classes going to [NodeTransformer.generic_visit], which rebuilds
    the node from its visited node and list fields, in field order. *)
Fixpoint AliasRewriter_visit (n : node) : res node :=
  let fix visit_all (l : list node) : res (list node) :=
    match l with
    | [] => Ok []
    | x :: l' => a <- AliasRewriter_visit x ;; r <- visit_all l' ;; Ok (a :: r)
    end in
  match n with
  | Identifier _ _ =>
      r <- dict_get n ;; Ok (match r with Some v => v | None => n end)
  | Attribute owner attr =>
      r <- dict_get n ;;
      match r with
      | Some v => Ok v
      | None => new_owner <- AliasRewriter_visit owner ;; Ok (Attribute new_owner attr)
      end
  | List val => l <- visit_all val ;; Ok (List l)
  | BinOp op l r =>
      op' <- AliasRewriter_visit op ;; l' <- AliasRewriter_visit l ;;
      r' <- AliasRewriter_visit r ;; Ok (BinOp op' l' r')
  | Compare c l r =>
      c' <- AliasRewriter_visit c ;; l' <- AliasRewriter_visit l ;;
      r' <- AliasRewriter_visit r ;; Ok (Compare c' l' r')
  | BoolOp op l r =>
      op' <- AliasRewriter_visit op ;; l' <- AliasRewriter_visit l ;;
      r' <- AliasRewriter_visit r ;; Ok (BoolOp op' l' r')
  | UnaryOp op x =>
      op' <- AliasRewriter_visit op ;; x' <- AliasRewriter_visit x ;; Ok (UnaryOp op' x')
  | NamedParam name param =>
      name' <- AliasRewriter_visit name ;; param' <- AliasRewriter_visit param ;;
      Ok (NamedParam name' param')
  | Call func args =>
      func' <- AliasRewriter_visit func ;; args' <- visit_all args ;; Ok (Call func' args')
  | Lambda i e =>
      i' <- AliasRewriter_visit i ;; e' <- AliasRewriter_visit e ;; Ok (Lambda i' e')
  | CollectionLambda owner operator lambda =>
      owner' <- AliasRewriter_visit owner ;; operator' <- AliasRewriter_visit operator ;;
      match lambda with
      | Some l => l' <- AliasRewriter_visit l ;; Ok (CollectionLambda owner' operator' (Some l'))
      | None => Ok (CollectionLambda owner' operator' None)
      end
  | _ => Ok n
  end.

End AliasRewriter.

Section IdentifierStripper.

(** [self.strip] *)
Variable strip : node.

(** [IdentifierStripper.visit] of [rewrite.py]: [visit_Attribute], the
    other classes going to [NodeTransformer.generic_visit]. [None] stands
    for the one result the node type cannot hold: [ast.Identifier(node.attr)]
    built from an [attr] that is a node. *)
Fixpoint IdentifierStripper_visit (n : node) : option node :=
  let fix visit_all (l : list node) : option (list node) :=
    match l with
    | [] => Some []
    | x :: l' =>
        match IdentifierStripper_visit x, visit_all l' with
        | Some a, Some r => Some (a :: r)
        | _, _ => None
        end
    end in
  let visit2 (k : node -> node -> node) (a b : node) :=
    match IdentifierStripper_visit a, IdentifierStripper_visit b with
    | Some a', Some b' => Some (k a' b')
    | _, _ => None
    end in
  let visit3 (k : node -> node -> node -> node) (a b c : node) :=
    match IdentifierStripper_visit a, IdentifierStripper_visit b,
          IdentifierStripper_visit c with
    | Some a', Some b', Some c' => Some (k a' b' c')
    | _, _, _ => None
    end in
  match n with
  | Attribute owner attr =>
      if Sql.node_eqb owner strip
      then match attr with inl a => Some (Identifier a []) | inr _ => None end
      else match owner with
           | Attribute _ _ =>
               match IdentifierStripper_visit owner with
               | Some o => Some (Attribute o attr)
               | None => None
               end
           | _ => Some n
           end
  | List val => match visit_all val with Some l => Some (List l) | None => None end
  | BinOp op l r => visit3 BinOp op l r
  | Compare c l r => visit3 Compare c l r
  | BoolOp op l r => visit3 BoolOp op l r
  | UnaryOp op x => visit2 UnaryOp op x
  | NamedParam name param => visit2 NamedParam name param
  | Call func args =>
      match IdentifierStripper_visit func, visit_all args with
      | Some f, Some a => Some (Call f a)
      | _, _ => None
      end
  | Lambda i e => visit2 Lambda i e
  | CollectionLambda owner operator lambda =>
      match IdentifierStripper_visit owner, IdentifierStripper_visit operator with
      | Some o, Some p =>
          match lambda with
          | Some l =>
              match IdentifierStripper_visit l with
              | Some l' => Some (CollectionLambda o p (Some l'))
              | None => None
              end
          | None => Some (CollectionLambda o p None)
          end
      | _, _ => None
      end
  | _ => Some n
  end.

End IdentifierStripper.

End Rewrite.

(** ** [utils.py]: [expression_relative_to_identifier] *)

Module Utils.
Import Ast.

(** What [IdentifierStripper.visit] of [utils.py] does: return a node, or
    raise [dataclasses.FrozenInstanceError] on assigning [field] of a
    frozen node; [Unrepresented] stands for [ast.Identifier(node.attr)]
    built from an [attr] that is a node. *)
Inductive outcome : Type :=
| Returned (n : node)
| FrozenInstanceError (field : string)
| Unrepresented.

(** Visiting a field and then [setattr(node, field, ...)] on the frozen node. *)
Definition then_setattr (r : outcome) (field : string) : outcome :=
  match r with Returned _ => FrozenInstanceError field | e => e end.

Section IdentifierStripper.

(** [self.strip] *)
Variable strip : node.

(** [IdentifierStripper.visit]: [visit_Attribute], and the mutating
    [generic_visit], which visits the first field (each item of it, for a
    list) and then assigns it, for a node that has fields. *)
Fixpoint visit (n : node) : outcome :=
  let fix visit_items (l : list node) : option outcome :=
    match l with
    | [] => None
    | x :: l' => match visit x with Returned _ => visit_items l' | e => Some e end
    end in
  match n with
  | Attribute owner attr =>
      if Sql.node_eqb owner strip
      then match attr with inl a => Returned (Identifier a []) | inr _ => Unrepresented end
      else match owner with
           | Attribute _ _ => then_setattr (visit owner) "owner"
           | _ => Returned n
           end
  | Identifier _ _ => FrozenInstanceError "name"
  | Integer _ | Float _ | Boolean _ | String _ | Geography _ | Date _ | Time _
  | DateTime _ | Duration _ | GUID _ => FrozenInstanceError "val"
  | List val =>
      match visit_items val with Some e => e | None => FrozenInstanceError "val" end
  | BinOp op _ _ | BoolOp op _ _ | UnaryOp op _ => then_setattr (visit op) "op"
  | Compare comparator _ _ => then_setattr (visit comparator) "comparator"
  | NamedParam name _ => then_setattr (visit name) "name"
  | Call func _ => then_setattr (visit func) "func"
  | Lambda identifier _ => then_setattr (visit identifier) "identifier"
  | CollectionLambda owner _ _ => then_setattr (visit owner) "owner"
  | Null | Add | Sub | Mult | Div | Mod | Eq | NotEq | Lt | LtE | Gt | GtE | In
  | And | Or | Not | USub | Any | All => Returned n
  end.

End IdentifierStripper.

Definition expression_relative_to_identifier (identifier expression : node) : outcome :=
  visit identifier expression.

End Utils.

(** ** Predicates used in the statements about the code above *)

Module ExtraSpec.
Import Regex Ast.

(** The attribute path [root/s1/.../sk], nested to the left as the parser
    builds it. *)
Definition path (root : node) (segs : list string) : node :=
  fold_left (fun owner s => Attribute owner (inl s)) segs root.

(** The node has no dataclass fields. *)
Definition fieldless (n : node) : bool :=
  match n with
  | Null | Add | Sub | Mult | Div | Mod | Eq | NotEq | Lt | LtE | Gt | GtE | In
  | And | Or | Not | USub | Any | All => true
  | _ => false
  end.

Definition is_attribute (n : node) : bool :=
  match n with Attribute _ _ => true | _ => false end.

(** The expressions [utils.IdentifierStripper] returns from: a node without
    fields, or an attribute whose owner is [strip] or is not an attribute. *)
Definition relative_ok (strip n : node) : bool :=
  match n with
  | Attribute owner _ => Sql.node_eqb owner strip || negb (is_attribute owner)
  | _ => fieldless n
  end.

(** What it then returns. *)
Definition relative_result (strip n : node) : node :=
  match n with
  | Attribute owner (inl a) => if Sql.node_eqb owner strip then Identifier a [] else n
  | _ => n
  end.

(** A quote doubled, any other character kept. *)
Definition quote_char (c : ascii) : list ascii :=
  if Ascii.eqb c "'" then ["'"; "'"]%char else [c].

(** How SQL reads the text after the opening quote of a string literal, up
    to its closing quote: [''] stands for one quote, and a lone quote ends
    the literal ([None] when it ends before the given text does). *)
Fixpoint sql_unescape (l : list ascii) : option (list ascii) :=
  match l with
  | [] => Some []
  | c :: r =>
      if Ascii.eqb c "'" then
        match r with
        | c2 :: r' => if Ascii.eqb c2 "'" then option_map (cons c) (sql_unescape r') else None
        | [] => None
        end
      else option_map (cons c) (sql_unescape r)
  end.

(** No name or attribute of the AST is a key of [replacements]. *)
Definition alias_free (replacements : list (node * node)) (n : node) : Prop :=
  Spec.all_nodes (fun m => match m with
                           | Identifier _ _ | Attribute _ _ =>
                               Rewrite.dict_get replacements m = Ok None
                           | _ => True
                           end) n.

(** A type [infer_type] can give: [None], or the class of a literal. *)
Definition type_ok (t : option string) : Prop :=
  t = None \/ exists m, Typing.is_literal m = true /\ t = Some (class_name m).

(** What [UNSAFE_CHARS.sub("_", ...)] makes of one character. *)
Definition clean_char (c : ascii) : ascii := if is_word c then c else "_"%char.

(** The node classes [AstToODataVisitor] has a [visit_] method for, with a
    string in the [attr] field of an [Attribute]. *)
Definition native (m : node) : Prop :=
  match m with
  | Geography _ | NamedParam _ _ | Attribute _ (inr _) => False
  | _ => True
  end.

Definition printable (n : node) : Prop := Spec.all_nodes native n.

(** The parse tables keep [printable] ASTs. *)
Record tables_printable (tb : Grammar.tables) : Prop := {
  pr_common_expr : Spec.POk printable (Grammar.t_common_expr tb);
  pr_list_items : Spec.POk (Forall printable) (Grammar.t_list_items tb);
  pr_list_expr : Spec.POk (fun n => printable n /\ exists val, n = List val)
                   (Grammar.t_list_expr tb);
  pr_member_expr : Spec.POk printable (Grammar.t_member_expr tb);
  pr_lambda : Spec.POk printable (Grammar.t_lambda tb) }.

(** The values of [any_expr] and [all_expr]. *)
Definition lam_printable (x : node * option node) : Prop :=
  printable (fst x) /\ match snd x with Some l => printable l | None => True end.

End ExtraSpec.

(** ** The lexer *)

Module LexerFacts.
Import Ast Lexer Spec.

Lemma tkind_eqb_eq (a b : tkind) : tkind_eqb a b = true -> a = b.
Proof.
  destruct a, b; simpl; try discriminate; try reflexivity.
  intros H. apply Ascii.eqb_eq in H. now subst.
Qed.

Lemma tokenize_from_step (f : nat) (x : ascii) (rest : list ascii) :
  tokenize_from (S f) (x :: rest) =
  match Regex.prefix_match master_re (x :: rest) with
  | Some (s1, (i, _) :: _) =>
      match nth_error token_rules (i - 1) with
      | Some (k, _) =>
          let value := firstn (List.length (x :: rest) - List.length s1) (x :: rest) in
          ts <- tokenize_from f s1 ;;
          Ok (mk_token k (token_value k value) :: ts)
      | None => Ok []
      end
  | Some (_, []) => Ok []
  | None =>
      if existsb (Ascii.eqb x) literals
      then ts <- tokenize_from f rest ;;
           Ok (mk_token (LIT x) (TText (String.String x EmptyString)) :: ts)
      else error (string_of_list_ascii (x :: rest))
  end.
Proof. reflexivity. Qed.

(** [tokenize_from] raises only from [ODataLexer.error]. *)
Lemma tokenize_from_error (f : nat) (s : list ascii) (e : exn) :
  tokenize_from f s = Error e -> e = NameError "text".
Proof.
  revert s. induction f as [|f IH]; intros s H; [discriminate|].
  destruct s as [|x rest]; [discriminate|]. rewrite tokenize_from_step in H.
  destruct (Regex.prefix_match master_re (x :: rest)) as [[s1 [|[i g] c]]|].
  - discriminate.
  - destruct (nth_error token_rules (i - 1)) as [[k r]|]; [|discriminate].
    destruct (tokenize_from f s1) eqn:E; simpl in H; [discriminate|].
    inversion H; subst. now apply (IH s1).
  - destruct (existsb (Ascii.eqb x) literals).
    + destruct (tokenize_from f rest) eqn:E; simpl in H; [discriminate|].
      inversion H; subst. now apply (IH rest).
    + unfold error in H. simpl in H. now inversion H.
Qed.

(** Every token carries the value its token function gives it. *)
Lemma tokenize_from_ok (f : nat) (s : list ascii) (ts : list token) :
  tokenize_from f s = Ok ts -> Forall tok_ok ts.
Proof.
  revert s ts. induction f as [|f IH]; intros s ts H.
  - inversion H; constructor.
  - destruct s as [|x rest]; [inversion H; constructor|].
    rewrite tokenize_from_step in H.
    destruct (Regex.prefix_match master_re (x :: rest)) as [[s1 [|[i g] c]]|].
    + inversion H; constructor.
    + destruct (nth_error token_rules (i - 1)) as [[k r]|]; [|inversion H; constructor].
      destruct (tokenize_from f s1) as [ts'|e] eqn:E; simpl in H; [|discriminate].
      inversion H; subst. constructor.
      * eexists; reflexivity.
      * now apply (IH s1).
    + destruct (existsb (Ascii.eqb x) literals).
      * destruct (tokenize_from f rest) as [ts'|e] eqn:E; simpl in H; [|discriminate].
        inversion H; subst. constructor.
        -- exists [x]. reflexivity.
        -- now apply (IH rest).
      * unfold error in H. simpl in H. discriminate.
Qed.

Lemma tokenize_ok (text : string) (ts : list token) :
  tokenize text = Ok ts -> Forall tok_ok ts.
Proof. apply tokenize_from_ok. Qed.

End LexerFacts.

(** ** The grammar: combinators *)

Module GrammarFacts.
Import Ast Lexer Grammar Spec LexerFacts.

Lemma splits_app (ts l r : list token) : List.In (l, r) (splits ts) -> app l r = ts.
Proof.
  revert l r. induction ts as [|t ts IH]; intros l r H; simpl in H.
  - destruct H as [H|[]]. now inversion H.
  - destruct H as [H|H]; [now inversion H|].
    apply in_map_iff in H. destruct H as [[l' r'] [E H]]. inversion E; subst.
    simpl. f_equal. now apply IH.
Qed.

Lemma POk_nil {A} (Q : A -> Prop) : POk Q (fun _ => []).
Proof. intros ts _ a []. Qed.

Lemma POk_true {A} (p : P A) : POk (fun _ => True) p.
Proof. intros ts _ a _. exact I. Qed.

Lemma POk_weaken {A} (Q Q' : A -> Prop) (p : P A) :
  (forall a, Q a -> Q' a) -> POk Q p -> POk Q' p.
Proof. intros HQ Hp ts Hts a Ha. apply HQ, (Hp ts Hts a Ha). Qed.

Lemma POk_alt {A} (Q : A -> Prop) (ps : list (P A)) :
  (forall p, List.In p ps -> POk Q p) -> POk Q (alt ps).
Proof.
  intros Hps ts Hts a Ha. unfold alt in Ha. apply in_flat_map in Ha.
  destruct Ha as [p [Hp Ha]]. exact (Hps p Hp ts Hts a Ha).
Qed.

Lemma POk_act {A B} (Qa : A -> Prop) (Qb : B -> Prop) (f : A -> res B) (p : P A) :
  POk Qa p -> (forall a b, Qa a -> f a = Ok b -> Qb b) -> POk Qb (act f p).
Proof.
  intros Hp Hf ts Hts b Hb. unfold act in Hb. apply in_map_iff in Hb.
  destruct Hb as [[a|e] [E Ha]]; [|discriminate].
  exact (Hf a b (Hp ts Hts a Ha) E).
Qed.

Lemma POk_seq {A B} (Qa : A -> Prop) (Qb : B -> Prop) (p : P A) (q : P B) :
  POk Qa p -> POk Qb q -> POk (fun ab => Qa (fst ab) /\ Qb (snd ab)) (seq p q).
Proof.
  intros Hp Hq ts Hts [a b] Hab. unfold seq in Hab. apply in_flat_map in Hab.
  destruct Hab as [[l r] [Hlr Hab]]. simpl in Hab.
  pose proof (splits_app _ _ _ Hlr) as E. subst ts.
  apply Forall_app in Hts. destruct Hts as [Hl Hr].
  destruct (q r) as [|b0 bs] eqn:Eq; [contradiction|].
  apply in_flat_map in Hab. destruct Hab as [ra [Hra Hab]].
  change (List.In (Ok (a, b)) (map (pair_res ra) (b0 :: bs))) in Hab.
  apply in_map_iff in Hab. destruct Hab as [rb [E Hrb]].
  destruct ra as [a'|e]; [|discriminate]. destruct rb as [b'|e]; [|discriminate].
  simpl in E. inversion E; subst. simpl. split.
  - exact (Hp l Hl a Hra).
  - apply (Hq r Hr b). now rewrite Eq.
Qed.

Lemma tok_node_some (k : tkind) (t : token) (n : node) :
  tok_ok t -> tok_node k t = Some n -> tokval_of k n.
Proof.
  unfold tok_node. intros [value Hv] H.
  destruct (tkind_eqb (tok_type t) k) eqn:Ek; [|discriminate].
  apply tkind_eqb_eq in Ek. subst k.
  destruct (tok_value t) as [n'|s] eqn:Et; [|discriminate].
  inversion H; subst. exists value. now rewrite <- Hv.
Qed.

Lemma POk_seq_n {B} (k : tkind) (Qb : B -> Prop) (q : P B) :
  POk Qb q -> POk (fun nb => tokval_of k (fst nb) /\ Qb (snd nb)) (seq_n k q).
Proof.
  intros Hq ts Hts [n b] Hnb. destruct ts as [|t r]; [destruct Hnb|].
  inversion Hts as [|? ? Ht Hr]; subst. simpl in Hnb.
  destruct (tok_node k t) as [n'|] eqn:En; [|destruct Hnb].
  apply in_map_iff in Hnb. destruct Hnb as [[b'|e] [E Hb]]; [|discriminate].
  simpl in E. inversion E; subst. simpl. split.
  - exact (tok_node_some k t n Ht En).
  - exact (Hq r Hr b Hb).
Qed.

Lemma POk_seq_l {B} (c : ascii) (Q : B -> Prop) (q : P B) : POk Q q -> POk Q (seq_l c q).
Proof.
  intros Hq ts Hts b Hb. destruct ts as [|t r]; [destruct Hb|].
  inversion Hts; subst. simpl in Hb.
  destruct (tkind_eqb (tok_type t) (LIT c)); [|destruct Hb]. now apply (Hq r).
Qed.

Lemma POk_seq_bws {B} (Q : B -> Prop) (q : P B) : POk Q q -> POk Q (seq_bws q).
Proof.
  intros Hq ts Hts b Hb. unfold seq_bws in Hb. apply in_app_or in Hb.
  destruct Hb as [Hb|Hb]; [now apply (Hq ts)|].
  destruct ts as [|t r]; [destruct Hb|]. inversion Hts; subst.
  destruct (tkind_eqb (tok_type t) WS); [|destruct Hb]. now apply (Hq r).
Qed.

Lemma POk_term (k : tkind) : POk (tokval_of k) (term k).
Proof.
  unfold term. eapply POk_act; [apply POk_seq_n, (POk_true done)|].
  intros [n u] b [H _] E. simpl in E. inversion E; now subst.
Qed.

(** ** The grammar: every value of every derivation is well-formed *)

(** Every node of a well-formed AST is well-formed. *)
Lemma wf_all_nodes (Q : node -> Prop) (HQ : forall m, wf m -> Q m) :
  forall n, wf n -> all_nodes Q n.
Proof.
  fix IH 1. intros n Hn. pose proof (HQ n Hn) as Hq.
  destruct n; simpl in Hn |- *; (split; [exact Hq|]); try exact I.
  - destruct Hn as [H1 [s ->]]. split; [exact (IH _ H1)|exact I].
  - revert Hn. generalize val. fix IHl 1. intros [|x l] H; [exact I|].
    destruct H as [H1 H2]. split; [exact (IH x H1)|exact (IHl l H2)].
  - destruct Hn as [H1 [H2 H3]]. split; [exact (IH _ H1)|split; [exact (IH _ H2)|exact (IH _ H3)]].
  - destruct Hn as [H1 [H2 [H3 _]]].
    split; [exact (IH _ H1)|split; [exact (IH _ H2)|exact (IH _ H3)]].
  - destruct Hn as [H1 [H2 H3]]. split; [exact (IH _ H1)|split; [exact (IH _ H2)|exact (IH _ H3)]].
  - destruct Hn as [H1 H2]. split; [exact (IH _ H1)|exact (IH _ H2)].
  - destruct Hn as [H1 H2]. split; [exact (IH _ H1)|exact (IH _ H2)].
  - destruct Hn as [_ [H1 H2]]. split; [exact (IH _ H1)|].
    revert H2. generalize args. fix IHl 1. intros [|x l] H; [exact I|].
    destruct H as [H3 H4]. split; [exact (IH x H3)|exact (IHl l H4)].
  - destruct Hn as [H1 H2]. split; [exact (IH _ H1)|exact (IH _ H2)].
  - destruct Hn as [H1 [H2 H3]]. split; [exact (IH _ H1)|split; [exact (IH _ H2)|]].
    destruct lambda_0 as [l|]; [exact (IH _ H3)|exact I].
Qed.

Lemma wf_local (n : node) :
  wf n -> call_node_ok n /\ in_node_ok n /\ attr_node_ok n.
Proof.
  intros Hn. split; [|split].
  - destruct n; simpl in *; tauto.
  - destruct n as [| | | | | | | | | | | | | | | | | | | | | | | | | | |c l r| | | | | | | | | | | |];
      simpl; try exact I.
    destruct c; try exact I. apply Hn. reflexivity.
  - destruct n; simpl in *; tauto.
Qed.

Lemma tokval_wf (k : tkind) (n : node) : tokval_of k n -> wf n.
Proof. intros [v H]. destruct k; simpl in H; inversion H; simpl; auto. Qed.

Lemma tokval_identifier (n : node) :
  tokval_of ODATA_IDENTIFIER n -> exists name, n = Identifier name [].
Proof. intros [v H]. simpl in H. inversion H. eauto. Qed.

Lemma tokval_not_in (k : tkind) (n : node) : tokval_of k n -> k <> IN -> n <> In.
Proof. intros [v H] Hk E. subst n. destruct k; simpl in H; inversion H; congruence. Qed.

Lemma wf_List (l : list node) : wf (List l) <-> Forall wf l.
Proof.
  induction l as [|x l IH]; simpl.
  - split; auto.
  - rewrite Forall_cons_iff. simpl in IH. rewrite IH. tauto.
Qed.

Lemma wf_Call (f : node) (args : list node) :
  wf (Call f args) <-> call_ok f args /\ wf f /\ wf (List args).
Proof. simpl. tauto. Qed.

Lemma function_call_wf (f : node) (args : list node) (b : node) :
  tokval_of ODATA_IDENTIFIER f -> Forall wf args -> _function_call f args = Ok b -> wf b.
Proof.
  intros Hf Hargs E. apply tokval_identifier in Hf. destruct Hf as [name ->].
  unfold _function_call in E. simpl in E.
  destruct (lookup_function name) as [[k|[lo hi]]|] eqn:El; [| |discriminate].
  - destruct (negb (Nat.eqb (List.length args) k)) eqn:Ek; [discriminate|].
    inversion E; subst. apply wf_Call. split; [|split; [exact I|now apply wf_List]].
    exists name, [], (inl k). repeat split; auto.
    apply negb_false_iff, Nat.eqb_eq in Ek. exact Ek.
  - destruct (Nat.ltb (List.length args) lo || Nat.ltb hi (List.length args)) eqn:Er;
      [discriminate|].
    apply orb_false_iff in Er. destruct Er as [E1 E2].
    apply Nat.ltb_ge in E1. apply Nat.ltb_ge in E2.
    inversion E; subst. apply wf_Call. split; [|split; [exact I|now apply wf_List]].
    exists name, [], (inr (lo, hi)). repeat split; auto.
Qed.

Lemma fold_attributes_wf (inters : list string) (o : node) :
  wf o -> wf (fold_left (fun owner inter => Attribute owner (inl inter)) inters o).
Proof.
  revert o. induction inters as [|x inters IH]; intros o Ho; simpl; auto.
  apply IH. simpl. eauto.
Qed.

Lemma reverse_attributes_ok (x b : node) : _reverse_attributes x = Ok b -> member_ok b.
Proof.
  unfold _reverse_attributes. intros E.
  destruct (_explode_attr x) as [ex|e]; simpl in E; [|discriminate].
  destruct (rev ex) as [|leaf rinit]; [discriminate|].
  destruct (rev rinit) as [|first inters]; [discriminate|].
  inversion E; subst. split; [|exact I]. simpl. split; eauto.
  apply fold_attributes_wf. exact I.
Qed.

Lemma navigation_action_ok (p0 p1 b : node) :
  tokval_of ODATA_IDENTIFIER p0 -> member_ok p1 -> navigation_action p0 p1 = Ok b ->
  member_ok b.
Proof.
  intros H0 [Hw1 Hs1] E. apply tokval_identifier in H0. destruct H0 as [name0 ->].
  destruct p1; simpl in Hs1; try contradiction; simpl in E.
  - inversion E; subst. split; [simpl; eauto|exact I].
  - now apply reverse_attributes_ok in E.
  - destruct p1_1; try contradiction; simpl in E; [|discriminate].
    inversion E; subst. simpl in Hw1. split; [|exact I].
    simpl. intuition eauto.
Qed.

Section Level.
Variable prev : tables.
Hypothesis Hprev : tables_ok prev.

Lemma lambda_ok : POk wf (lambda_ prev).
Proof.
  unfold lambda_. eapply POk_act.
  - apply POk_seq_n, POk_seq_bws, POk_seq_l, POk_seq_bws, (ok_common_expr _ Hprev).
  - intros [id e] b [H1 H2] E. inversion E; subst. simpl.
    split; [exact (tokval_wf _ _ H1)|exact H2].
Qed.

Lemma collection_path_ok : POk lam_ok (collection_path_expr prev).
Proof.
  unfold collection_path_expr. apply POk_seq_l, POk_alt.
  intros p [<-|[<-|[]]]; [unfold any_expr; apply POk_alt; intros p [<-|[<-|[]]]|].
  - eapply POk_act.
    + apply POk_seq_n, POk_seq_l, POk_seq_bws, POk_seq; [exact (ok_lambda _ Hprev)|].
      apply (POk_true _).
    + intros [op [l u]] b [H1 [H2 _]] E. inversion E; subst.
      split; [exact (tokval_wf _ _ H1)|exact H2].
  - eapply POk_act; [apply POk_seq_n, (POk_true _)|].
    intros [op u] b [H1 _] E. inversion E; subst. split; [exact (tokval_wf _ _ H1)|exact I].
  - unfold all_expr. eapply POk_act.
    + apply POk_seq_n, POk_seq_l, POk_seq_bws, POk_seq; [exact (ok_lambda _ Hprev)|].
      apply (POk_true _).
    + intros [op [l u]] b [H1 [H2 _]] E. inversion E; subst.
      split; [exact (tokval_wf _ _ H1)|exact H2].
Qed.

Lemma property_path_ok : POk member_ok (property_path_expr prev).
Proof.
  unfold property_path_expr. apply POk_alt. intros p [<-|[<-|[<-|[]]]].
  - eapply POk_weaken; [|apply POk_term].
    intros n Hn. apply tokval_identifier in Hn. destruct Hn as [name ->]. split; exact I.
  - eapply POk_act; [apply POk_seq_n, POk_seq_l, (ok_member_expr _ Hprev)|].
    intros [p0 p1] b [H0 H1] E. exact (navigation_action_ok p0 p1 b H0 H1 E).
  - eapply POk_act; [apply POk_seq_n, collection_path_ok|].
    intros [p0 [op lam]] b [H0 H1] E. inversion E; subst.
    unfold lam_ok in H1. simpl in H0, H1. destruct H1 as [H1 H2].
    apply tokval_identifier in H0. destruct H0 as [name ->].
    split; [simpl; auto|exact I].
Qed.

Lemma list_items_ok : POk (Forall wf) (list_items prev).
Proof.
  unfold list_items. apply POk_alt. intros p [<-|[<-|[]]].
  - eapply POk_act.
    + apply POk_seq; [exact (ok_common_expr _ Hprev)|].
      apply POk_seq_bws, POk_seq_l, POk_seq_bws, (ok_common_expr _ Hprev).
    + intros [a c] b [H1 H2] E. inversion E; subst. simpl in *. auto.
  - eapply POk_act.
    + apply POk_seq; [exact (ok_list_items _ Hprev)|].
      apply POk_seq_bws, POk_seq_l, POk_seq_bws, (ok_common_expr _ Hprev).
    + intros [l c] b [H1 H2] E. inversion E; subst. simpl in *.
      apply Forall_app. auto.
Qed.

Lemma list_expr_ok : POk (fun n => wf n /\ exists val, n = List val) (list_expr prev).
Proof.
  unfold list_expr. apply POk_alt. intros p [<-|[<-|[]]].
  - eapply POk_act.
    + apply POk_seq_l, POk_seq_bws, POk_seq; [exact (ok_common_expr _ Hprev)|].
      apply (POk_true _).
    + intros [e u] b [H1 _] E. inversion E; subst. split; [|eauto].
      apply wf_List. auto.
  - eapply POk_act.
    + apply POk_seq_l, POk_seq_bws, POk_seq; [exact (ok_list_items _ Hprev)|].
      apply (POk_true _).
    + intros [l u] b [H1 _] E. inversion E; subst. split; [|eauto].
      now apply wf_List.
Qed.

Lemma binop_ok (mk : node -> node -> node -> node) (k : tkind) :
  (forall op l r, tokval_of k op -> wf l -> wf r -> wf (mk op l r)) ->
  POk wf (binop prev mk k).
Proof.
  intros Hmk. unfold binop. eapply POk_act.
  - apply POk_seq; [exact (ok_common_expr _ Hprev)|].
    apply POk_seq_n, (ok_common_expr _ Hprev).
  - intros [l [op r]] b [H1 [H2 H3]] E. inversion E; subst. simpl in *. auto.
Qed.

Lemma common_expr_ok : POk wf (common_expr prev).
Proof.
  pose proof (ok_common_expr _ Hprev) as Hc.
  unfold common_expr. apply POk_alt.
  intros p Hp. cbn [List.In] in Hp.
  destruct Hp as [<-|[<-|[<-|[<-|[<-|[<-|[<-|[<-|[<-|[<-|[<-|[<-|[<-|[]]]]]]]]]]]]]].
  - eapply POk_act; [apply POk_seq_l, POk_seq_bws, POk_seq, (POk_true _); exact Hc|].
    intros [e u] b [H _] E. inversion E; now subst.
  - unfold primitive_literal. apply POk_alt. intros p Hp.
    apply in_map_iff in Hp. destruct Hp as [k [<- _]].
    eapply POk_weaken; [|apply POk_term]. apply tokval_wf.
  - eapply POk_weaken; [|exact property_path_ok]. now intros n [H _].
  - eapply POk_weaken; [|exact list_expr_ok]. now intros n [H _].
  - eapply POk_act; [apply POk_seq_n, POk_seq_bws, Hc|].
    intros [op e] b [H1 H2] E. inversion E; subst. simpl in *.
    split; [exact (tokval_wf _ _ H1)|exact H2].
  - apply POk_alt. intros p Hp. apply in_map_iff in Hp. destruct Hp as [k [<- _]].
    apply binop_ok. intros op l r H1 H2 H3. simpl. split; [exact (tokval_wf _ _ H1)|auto].
  - apply POk_alt. intros p Hp. apply in_map_iff in Hp. destruct Hp as [k [<- Hk]].
    apply binop_ok. intros op l r H1 H2 H3. simpl.
    split; [exact (tokval_wf _ _ H1)|]. split; [exact H2|]. split; [exact H3|].
    intros Eop. exfalso. refine (tokval_not_in k op H1 _ Eop).
    simpl in Hk. intuition (subst; discriminate).
  - eapply POk_act; [apply POk_seq; [exact Hc|apply POk_seq_n, (ok_list_expr _ Hprev)]|].
    intros [l [op r]] b [H1 [H2 [H3 H4]]] E. inversion E; subst. simpl in *.
    split; [exact (tokval_wf _ _ H2)|]. split; [exact H1|]. split; [exact H3|].
    intros _. exact H4.
  - apply POk_alt. intros p Hp. apply in_map_iff in Hp. destruct Hp as [k [<- _]].
    apply binop_ok. intros op l r H1 H2 H3. simpl. split; [exact (tokval_wf _ _ H1)|auto].
  - eapply POk_act; [apply POk_seq_n, Hc|].
    intros [op e] b [H1 H2] E. inversion E; subst. simpl in *.
    split; [exact (tokval_wf _ _ H1)|exact H2].
  - eapply POk_act; [apply POk_seq_n, (POk_true _)|].
    intros [f u] b [H1 _] E. exact (function_call_wf f [] b H1 (Forall_nil _) E).
  - eapply POk_act;
      [apply POk_seq_n, POk_seq_l, POk_seq_bws, POk_seq, (POk_true _); exact Hc|].
    intros [f [e u]] b [H1 [H2 _]] E. simpl in *.
    exact (function_call_wf f [e] b H1 (Forall_cons _ H2 (Forall_nil _)) E).
  - eapply POk_act; [apply POk_seq_n, (ok_list_expr _ Hprev)|].
    intros [f l] b [H1 H2] E. simpl in H1, H2, E. destruct H2 as [H2 [val ->]].
    simpl in E. apply wf_List in H2. exact (function_call_wf f val b H1 H2 E).
Qed.

Lemma build_ok : tables_ok (build prev).
Proof.
  constructor; simpl.
  - exact common_expr_ok.
  - exact list_items_ok.
  - exact list_expr_ok.
  - exact property_path_ok.
  - exact lambda_ok.
Qed.

End Level.

Lemma level_ok (n : nat) : tables_ok (level n).
Proof.
  induction n as [|n IH]; simpl.
  - constructor; apply POk_nil.
  - now apply build_ok.
Qed.

(** Every AST [parse] returns is well-formed. *)
Lemma parse_wf (text : string) (n : node) : List.In (Ok n) (parse text) -> wf n.
Proof.
  unfold parse. destruct (tokenize text) as [ts|e] eqn:Et.
  - intros H. apply (ok_common_expr _ (level_ok (List.length ts)) ts); [|exact H].
    exact (tokenize_ok text ts Et).
  - intros [H|[]]. discriminate.
Qed.

End GrammarFacts.

(** ** Python's [==] on AST nodes *)

Module SqlFacts.
Import Ast Sql.

Lemma strs_eqb_eq (l1 l2 : list string) :
  (fix strs_eqb (l1 l2 : list string) : bool :=
     match l1, l2 with
     | [], [] => true
     | x :: l1', y :: l2' => String.eqb x y && strs_eqb l1' l2'
     | _, _ => false
     end) l1 l2 = true <-> l1 = l2.
Proof.
  revert l2. induction l1 as [|x l1 IH]; intros [|y l2]; simpl; try (split; congruence).
  rewrite andb_true_iff, String.eqb_eq, IH. split; [intros [-> ->]; reflexivity|].
  intros E. inversion E. auto.
Qed.

Ltac eqb_parts IH :=
  repeat match goal with
  | H : _ && _ = true |- _ => apply andb_true_iff in H; destruct H
  | H : String.eqb _ _ = true |- _ => apply String.eqb_eq in H; subst
  | H : node_eqb _ _ = true |- _ => apply IH in H; subst
  end.

Lemma node_eqb_eq : forall a b, node_eqb a b = true -> a = b.
Proof.
  fix IH 1. intros a b H.
  destruct a; destruct b; simpl in H; try discriminate; eqb_parts IH; try reflexivity.
  - apply strs_eqb_eq in H0. now subst.
  - destruct attr, attr0; try discriminate.
    + apply String.eqb_eq in H0. now subst.
    + apply IH in H0. now subst.
  - f_equal. revert val0 H. generalize val. fix IHl 1.
    intros [|x l1] [|y l2] H; simpl in H; try discriminate; [reflexivity|].
    eqb_parts IH. f_equal. exact (IHl l1 l2 H0).
  - f_equal. revert args0 H0. generalize args. fix IHl 1.
    intros [|x l1] [|y l2] H; simpl in H; try discriminate; [reflexivity|].
    eqb_parts IH. f_equal. exact (IHl l1 l2 H0).
  - destruct lambda_, lambda_0; try discriminate; [|reflexivity].
    apply IH in H0. now subst.
Qed.

Lemma node_eqb_refl : forall a, node_eqb a a = true.
Proof.
  fix IH 1. intros a. destruct a; simpl; rewrite ?String.eqb_refl, ?IH; simpl; try reflexivity.
  - apply strs_eqb_eq. reflexivity.
  - destruct attr; [apply String.eqb_refl|apply IH].
  - generalize val. fix IHl 1. intros [|x l]; [reflexivity|]. rewrite IH. exact (IHl l).
  - generalize args. fix IHl 1. intros [|x l]; [reflexivity|]. rewrite IH. exact (IHl l).
  - destruct lambda_; [apply IH|reflexivity].
Qed.

Lemma node_eqb_spec (a b : node) : node_eqb a b = true <-> a = b.
Proof. split; [apply node_eqb_eq|intros ->; apply node_eqb_refl]. Qed.

Section Unfold.
Variable table_alias : option string.
Variable sqlfunc : dialect -> string -> list node -> list (res sqlval) -> option (res sqlval).
Variable d : dialect.

Lemma visit_Compare_eq (c l r : node) :
  visit table_alias sqlfunc d (Compare c l r) =
  (left <- visit table_alias sqlfunc d l ;; right <- visit table_alias sqlfunc d r ;;
   comp <- visit table_alias sqlfunc d c ;; Ok (visit_Compare c l r left right comp)).
Proof. reflexivity. Qed.

Lemma visit_BoolOp_eq (op l r : node) :
  visit table_alias sqlfunc d (BoolOp op l r) =
  (left <- visit table_alias sqlfunc d l ;; o <- visit table_alias sqlfunc d op ;;
   right <- visit table_alias sqlfunc d r ;; Ok (visit_BoolOp op l r left o right)).
Proof. reflexivity. Qed.

End Unfold.

(** How [visit_BoolOp] renders one child. *)
Lemma boolop_child (op c : node) (v : sqlval) :
  let x := match c with
           | BoolOp cop _ _ => if negb (node_eqb cop op) then wrap (fmt v) else fmt v
           | _ => fmt v
           end in
  (x = wrap (fmt v) /\ Spec.other_boolop op c) \/ (x = fmt v /\ ~ Spec.other_boolop op c).
Proof.
  destruct c; simpl; try (right; split; [reflexivity|tauto]).
  destruct (node_eqb c1 op) eqn:E; simpl.
  - right. split; [reflexivity|]. apply node_eqb_spec in E. tauto.
  - left. split; [reflexivity|]. intros ->. rewrite node_eqb_refl in E. discriminate.
Qed.

(** How [visit_Compare] renders one operand. *)
Lemma compare_operand (c : node) (v : sqlval) :
  let x := if is_bool_expr c then wrap (fmt v) else fmt v in
  (x = wrap (fmt v) /\ Spec.bool_typed c) \/ (x = fmt v /\ ~ Spec.bool_typed c).
Proof. destruct c; simpl; auto. Qed.

End SqlFacts.

(** ** The matcher against the relations *)

Module RegexFacts.
Import Regex RegexSpec.
Local Open Scope list_scope.

Section Equations.
Context {A : Type}.

Lemma mt_char n p s c (k : list ascii -> caps -> option A) :
  mt n (RChar p) s c k = match s with x :: s' => if p x then k s' c else None | [] => None end.
Proof. destruct n; reflexivity. Qed.

Lemma mt_eps n s c (k : list ascii -> caps -> option A) : mt n REps s c k = k s c.
Proof. destruct n; reflexivity. Qed.

Lemma mt_seq n r1 r2 s c (k : list ascii -> caps -> option A) :
  mt n (RSeq r1 r2) s c k = mt n r1 s c (fun s1 c1 => mt n r2 s1 c1 k).
Proof. destruct n; reflexivity. Qed.

Lemma mt_alt n r1 r2 s c (k : list ascii -> caps -> option A) :
  mt n (RAlt r1 r2) s c k =
  match mt n r1 s c k with Some v => Some v | None => mt n r2 s c k end.
Proof. destruct n; reflexivity. Qed.

Lemma mt_group n i r s c (k : list ascii -> caps -> option A) :
  mt n (RGroup i r) s c k = mt n r s c (fun s1 c1 => k s1 ((i, (s, s1)) :: c1)).
Proof. destruct n; reflexivity. Qed.

Lemma mt_star_0 r s c (k : list ascii -> caps -> option A) : mt 0 (RStar r) s c k = k s c.
Proof. reflexivity. Qed.

Lemma mt_star_S n r s c (k : list ascii -> caps -> option A) :
  mt (S n) (RStar r) s c k =
  match mt (S n) r s c (fun s1 c1 =>
          if Nat.ltb (List.length s1) (List.length s) then mt n (RStar r) s1 c1 k else None) with
  | Some v => Some v
  | None => k s c
  end.
Proof. reflexivity. Qed.

(** Every result of [mt] comes from a match. *)
Lemma mt_sound (n : nat) :
  forall r s c (k : list ascii -> caps -> option A) v,
  mt n r s c k = Some v -> exists s1 c1, mrel r s c s1 c1 /\ k s1 c1 = Some v.
Proof.
  induction n as [|n IHn]; intros r; induction r as [p| |r1 IH1 r2 IH2|r1 IH1 r2 IH2|r IH|i r IH];
    intros s c k v H.
  all: try (rewrite mt_char in H; destruct s as [|x s]; [discriminate|];
            destruct (p x) eqn:Ep; [|discriminate]; exists s, c; split; [now constructor|exact H]).
  all: try (rewrite mt_eps in H; exists s, c; split; [constructor|exact H]).
  all: try (rewrite mt_seq in H; apply IH1 in H; destruct H as [s1 [c1 [H1 H]]];
            apply IH2 in H; destruct H as [s2 [c2 [H2 H]]];
            exists s2, c2; split; [econstructor; eassumption|exact H]).
  all: try (rewrite mt_alt in H; destruct (mt _ r1 s c k) eqn:E;
            [inversion H; subst; apply IH1 in E; destruct E as [s1 [c1 [H1 E]]];
             exists s1, c1; split; [now apply MAltL|exact E]
            |apply IH2 in H; destruct H as [s1 [c1 [H1 H]]];
             exists s1, c1; split; [now apply MAltR|exact H]]).
  all: try (rewrite mt_group in H; apply IH in H; destruct H as [s1 [c1 [H1 H]]];
            exists s1, ((i, (s, s1)) :: c1); split; [now apply MGroup|exact H]).
  - rewrite mt_star_0 in H. exists s, c. split; [constructor|exact H].
  - rewrite mt_star_S in H.
    destruct (mt (S n) r s c _) eqn:E.
    + inversion H; subst. apply IH in E. destruct E as [s1 [c1 [H1 E]]].
      destruct (Nat.ltb (List.length s1) (List.length s)) eqn:Lt; [|discriminate].
      apply Nat.ltb_lt in Lt. apply IHn in E. destruct E as [s2 [c2 [H2 E]]].
      exists s2, c2. split; [econstructor; eassumption|exact E].
    + exists s, c. split; [constructor|exact H].
Qed.

Lemma mrel_length r s c s1 c1 : mrel r s c s1 c1 -> List.length s1 <= List.length s.
Proof. induction 1; simpl; lia. Qed.

(** A match is found whenever there is one that the continuation accepts. *)
Lemma mt_complete r s c s1 c1 :
  mrel r s c s1 c1 ->
  forall n (k : list ascii -> caps -> option A) v,
  List.length s <= n -> k s1 c1 = Some v -> exists v', mt n r s c k = Some v'.
Proof.
  induction 1 as [p x s c Hp|s c|r1 r2 s c s1 c1 s2 c2 H1 IH1 H2 IH2
                 |r1 r2 s c s1 c1 H IH|r1 r2 s c s1 c1 H IH|r s c
                 |r s c s1 c1 s2 c2 H1 IH1 Lt H2 IH2|i r s c s1 c1 H IH];
    intros n k v Hn Hk.
  - rewrite mt_char, Hp. eauto.
  - rewrite mt_eps. eauto.
  - rewrite mt_seq. pose proof (mrel_length _ _ _ _ _ H1) as L1.
    destruct (IH2 n k v ltac:(lia) Hk) as [v' Hv'].
    exact (IH1 n _ v' Hn Hv').
  - rewrite mt_alt. destruct (IH n k v Hn Hk) as [v' ->]. eauto.
  - rewrite mt_alt. destruct (mt n r1 s c k); [eauto|]. exact (IH n k v Hn Hk).
  - destruct n; [rewrite mt_star_0; eauto|rewrite mt_star_S].
    destruct (mt (S n) r s c _); eauto.
  - destruct n as [|n]; [simpl in Lt; lia|]. rewrite mt_star_S.
    destruct (IH2 n k v ltac:(lia) Hk) as [v' Hv'].
    destruct (IH1 (S n) (fun s1 c1 =>
        if Nat.ltb (List.length s1) (List.length s) then mt n (RStar r) s1 c1 k else None)
        v' Hn) as [v'' ->]; [|eauto].
    apply Nat.ltb_lt in Lt. now rewrite Lt.
  - rewrite mt_group. exact (IH n _ v Hn Hk).
Qed.

End Equations.

Lemma mrel_lang r s c s1 c1 : mrel r s c s1 c1 -> exists w, s = w ++ s1 /\ lang r w.
Proof.
  induction 1 as [p x s c Hp|s c|r1 r2 s c s1 c1 s2 c2 H1 IH1 H2 IH2
                 |r1 r2 s c s1 c1 H IH|r1 r2 s c s1 c1 H IH|r s c
                 |r s c s1 c1 s2 c2 H1 IH1 Lt H2 IH2|i r s c s1 c1 H IH].
  - exists [x]. split; [reflexivity|now constructor].
  - exists []. split; [reflexivity|constructor].
  - destruct IH1 as [w1 [-> L1]]. destruct IH2 as [w2 [-> L2]].
    exists (w1 ++ w2). split; [now rewrite app_assoc|now constructor].
  - destruct IH as [w [-> L]]. exists w. split; [reflexivity|now constructor].
  - destruct IH as [w [-> L]]. exists w. split; [reflexivity|now apply LAltR].
  - exists []. split; [reflexivity|constructor].
  - destruct IH1 as [w1 [-> L1]]. destruct IH2 as [w2 [-> L2]].
    exists (w1 ++ w2). split; [now rewrite app_assoc|].
    constructor; auto. intros ->. simpl in Lt. lia.
  - destruct IH as [w [-> L]]. exists w. split; [reflexivity|now constructor].
Qed.

Lemma lang_mrel r w : lang r w -> forall s1 c, exists c1, mrel r (w ++ s1) c s1 c1.
Proof.
  induction 1 as [p x Hp| |r1 r2 w1 w2 L1 IH1 L2 IH2|r1 r2 w L IH|r1 r2 w L IH|r
                 |r w1 w2 L1 IH1 Hne L2 IH2|i r w L IH]; intros s1 c.
  - exists c. now constructor.
  - exists c. constructor.
  - destruct (IH1 (w2 ++ s1) c) as [c1 M1]. destruct (IH2 s1 c1) as [c2 M2].
    exists c2. rewrite <- app_assoc. econstructor; eassumption.
  - destruct (IH s1 c) as [c1 M]. exists c1. now constructor.
  - destruct (IH s1 c) as [c1 M]. exists c1. now apply MAltR.
  - exists c. constructor.
  - destruct (IH1 (w2 ++ s1) c) as [c1 M1]. destruct (IH2 s1 c1) as [c2 M2].
    exists c2. rewrite <- app_assoc. econstructor; [eassumption| |eassumption].
    destruct w1; [congruence|]. simpl. rewrite !length_app. lia.
  - destruct (IH s1 c) as [c1 M]. exists ((i, (w ++ s1, s1)) :: c1). now constructor.
Qed.

(** The captures a match adds come from the groups of the pattern. *)
Lemma mrel_caps r s c s1 c1 :
  mrel r s c s1 c1 ->
  exists new, c1 = new ++ c /\ Forall (fun e => List.In (fst e) (groups r)) new.
Proof.
  induction 1 as [p x s c Hp|s c|r1 r2 s c s1 c1 s2 c2 H1 IH1 H2 IH2
                 |r1 r2 s c s1 c1 H IH|r1 r2 s c s1 c1 H IH|r s c
                 |r s c s1 c1 s2 c2 H1 IH1 Lt H2 IH2|i r s c s1 c1 H IH].
  - exists []. auto.
  - exists []. auto.
  - destruct IH1 as [n1 [-> F1]]. destruct IH2 as [n2 [-> F2]].
    exists (n2 ++ n1). rewrite app_assoc. split; [reflexivity|]. simpl.
    apply Forall_app. split; eapply Forall_impl; try eassumption; intros e He;
      apply in_or_app; auto.
  - destruct IH as [n1 [-> F1]]. exists n1. split; [reflexivity|]. simpl.
    eapply Forall_impl; [|eassumption]. intros e He. apply in_or_app; auto.
  - destruct IH as [n1 [-> F1]]. exists n1. split; [reflexivity|]. simpl.
    eapply Forall_impl; [|eassumption]. intros e He. apply in_or_app; auto.
  - exists []. auto.
  - destruct IH1 as [n1 [-> F1]]. destruct IH2 as [n2 [-> F2]].
    exists (n2 ++ n1). rewrite app_assoc. split; [reflexivity|].
    apply Forall_app. auto.
  - destruct IH as [n1 [-> F1]]. exists ((i, (s, s1)) :: n1). split; [reflexivity|].
    constructor; [simpl; auto|]. eapply Forall_impl; [|eassumption]. simpl. auto.
Qed.

(** Inversion of the relations, one constructor at a time. *)
Lemma mrel_seq_inv r1 r2 s c s2 c2 :
  mrel (RSeq r1 r2) s c s2 c2 -> exists s1 c1, mrel r1 s c s1 c1 /\ mrel r2 s1 c1 s2 c2.
Proof. intros H. inversion H; subst. eauto. Qed.

Lemma mrel_alt_inv r1 r2 s c s1 c1 :
  mrel (RAlt r1 r2) s c s1 c1 -> mrel r1 s c s1 c1 \/ mrel r2 s c s1 c1.
Proof. intros H. inversion H; subst; auto. Qed.

Lemma mrel_eps_inv s c s1 c1 : mrel REps s c s1 c1 -> s1 = s /\ c1 = c.
Proof. intros H. inversion H; subst; auto. Qed.

Lemma lang_char_inv p w : lang (RChar p) w -> exists x, w = [x] /\ p x = true.
Proof. intros H. inversion H; subst. eauto. Qed.

Lemma lang_eps_inv w : lang REps w -> w = [].
Proof. intros H. now inversion H. Qed.

Lemma lang_seq_inv r1 r2 w :
  lang (RSeq r1 r2) w -> exists w1 w2, w = w1 ++ w2 /\ lang r1 w1 /\ lang r2 w2.
Proof. intros H. inversion H; subst. eauto. Qed.

Lemma lang_alt_inv r1 r2 w : lang (RAlt r1 r2) w -> lang r1 w \/ lang r2 w.
Proof. intros H. inversion H; subst; auto. Qed.

Lemma lang_group_inv i r w : lang (RGroup i r) w -> lang r w.
Proof. intros H. now inversion H. Qed.

(** A property of characters checked on all of them. *)
Lemma ascii_forall (P : ascii -> bool) : forallb P all_ascii = true -> forall x, P x = true.
Proof.
  intros H x. unfold all_ascii in H. rewrite forallb_forall in H.
  rewrite <- (ascii_nat_embedding x). apply H. apply in_map.
  apply in_seq. pose proof (nat_ascii_bounded x). lia.
Qed.

(** The character predicates of [ci]. *)
Lemma ci_chr_upper (X x : ascii) :
  (Ascii.eqb X x || Ascii.eqb X (to_lower x) || Ascii.eqb X (to_upper x)) = true ->
  to_upper x = to_upper X.
Proof.
  assert (H : forall X, forallb (fun x => implb (Ascii.eqb X x || Ascii.eqb X (to_lower x) ||
                                                 Ascii.eqb X (to_upper x))
                                                (Ascii.eqb (to_upper x) (to_upper X)))
                                all_ascii = true).
  { apply (ascii_forall (fun X => forallb (fun x =>
             implb (Ascii.eqb X x || Ascii.eqb X (to_lower x) || Ascii.eqb X (to_upper x))
                   (Ascii.eqb (to_upper x) (to_upper X))) all_ascii)).
    vm_compute. reflexivity. }
  intros E. pose proof (ascii_forall _ (H X) x) as Hx. simpl in Hx.
  rewrite E in Hx. simpl in Hx. now apply Ascii.eqb_eq in Hx.
Qed.

Lemma ci_digit (x : ascii) :
  (is_digit x || is_digit (to_lower x) || is_digit (to_upper x)) = true ->
  is_digit x = true /\ to_upper x = x.
Proof.
  assert (H : forall x, implb (is_digit x || is_digit (to_lower x) || is_digit (to_upper x))
                              (is_digit x && Ascii.eqb (to_upper x) x) = true).
  { apply ascii_forall. vm_compute. reflexivity. }
  intros E. specialize (H x). rewrite E in H. simpl in H.
  apply andb_true_iff in H. destruct H as [H1 H2]. apply Ascii.eqb_eq in H2. auto.
Qed.

Lemma ci_sign (x : ascii) :
  ((fun x => existsb (Ascii.eqb x) (list_ascii_of_string "+-")) x ||
   (fun x => existsb (Ascii.eqb x) (list_ascii_of_string "+-")) (to_lower x) ||
   (fun x => existsb (Ascii.eqb x) (list_ascii_of_string "+-")) (to_upper x)) = true ->
  x = "+"%char \/ x = "-"%char.
Proof.
  assert (H : forall x,
     implb ((fun x => existsb (Ascii.eqb x) (list_ascii_of_string "+-")) x ||
            (fun x => existsb (Ascii.eqb x) (list_ascii_of_string "+-")) (to_lower x) ||
            (fun x => existsb (Ascii.eqb x) (list_ascii_of_string "+-")) (to_upper x))
           (Ascii.eqb x "+" || Ascii.eqb x "-") = true).
  { apply ascii_forall. vm_compute. reflexivity. }
  intros E. specialize (H x). destruct (Ascii.eqb x "+" || Ascii.eqb x "-") eqn:R.
  2:{ exfalso. cbv beta in E, H. rewrite E in H. discriminate. }
  apply orb_true_iff in R. rename R into H0. clear H. rename H0 into H. destruct H as [H|H]; apply Ascii.eqb_eq in H; auto.
Qed.

(** The pieces of [DURATION_re], read back after [upper]. *)
Lemma lang_ci_chr (X : ascii) w : lang (ci (chr X)) w -> map to_upper w = [to_upper X].
Proof.
  intros H. apply lang_char_inv in H. destruct H as [x [-> Hx]].
  simpl. f_equal. now apply ci_chr_upper.
Qed.

Lemma lang_ci_lit (str : string) w :
  lang (ci (lit str)) w -> map to_upper w = map to_upper (list_ascii_of_string str).
Proof.
  revert w. induction str as [|X str IH]; intros w H; simpl in H.
  - apply lang_eps_inv in H. now subst.
  - apply lang_seq_inv in H. destruct H as [w1 [w2 [-> [H1 H2]]]].
    rewrite map_app. apply lang_ci_chr in H1. rewrite H1. simpl. f_equal. now apply IH.
Qed.

Lemma lang_ci_star_digit w :
  lang (RStar (ci digit)) w -> Forall (fun x => is_digit x = true) w /\ map to_upper w = w.
Proof.
  intros H. remember (RStar (ci digit)) as r eqn:Er.
  induction H; try discriminate; inversion Er; subst.
  - auto.
  - destruct (IHlang2 eq_refl) as [F2 M2].
    apply lang_char_inv in H. destruct H as [x [-> Hx]]. apply ci_digit in Hx.
    destruct Hx as [Hd Hu]. simpl. split; [constructor; auto|now rewrite Hu, M2].
Qed.

Lemma lang_ci_plus_digit w : lang (ci (plus digit)) w -> digits w /\ map to_upper w = w.
Proof.
  intros H. simpl in H. apply lang_seq_inv in H. destruct H as [w1 [w2 [-> [H1 H2]]]].
  apply lang_char_inv in H1. destruct H1 as [x [-> Hx]]. apply ci_digit in Hx.
  destruct Hx as [Hd Hu]. apply lang_ci_star_digit in H2. destruct H2 as [F2 M2].
  split; [split; [discriminate|constructor; auto]|]. simpl. now rewrite Hu, M2.
Qed.

Lemma lang_ci_opt r w : lang (ci (opt r)) w -> w = [] \/ lang (ci r) w.
Proof.
  intros H. simpl in H. apply lang_alt_inv in H. destruct H as [H|H]; auto.
  apply lang_eps_inv in H. auto.
Qed.

Lemma lang_ci_unit (u : ascii) w :
  lang (ci (opt (RSeq (plus digit) (chr u)))) w -> opt_unit (to_upper u) (map to_upper w).
Proof.
  intros H. apply lang_ci_opt in H. destruct H as [->|H]; [now left|right].
  simpl in H. apply lang_seq_inv in H. destruct H as [w1 [w2 [-> [H1 H2]]]].
  change (lang (ci (plus digit)) w1) in H1. change (lang (ci (chr u)) w2) in H2.
  apply lang_ci_plus_digit in H1. apply lang_ci_chr in H2. destruct H1 as [D1 M1].
  exists w1. split; [exact D1|]. now rewrite map_app, M1, H2.
Qed.

Lemma lang_ci_sec w :
  lang (ci (opt (seqs [plus digit; opt (RSeq (chr ".") (plus digit)); chr "S"]))) w ->
  map to_upper w = [] \/
  exists d f, digits d /\ (f = [] \/ exists e, digits e /\ f = "."%char :: e) /\
              map to_upper w = d ++ f ++ ["S"%char].
Proof.
  intros H. apply lang_ci_opt in H. destruct H as [->|H]; [now left|right].
  cbn [ci seqs] in H.
  apply lang_seq_inv in H. destruct H as [w1 [w' [-> [H1 H']]]].
  apply lang_seq_inv in H'. destruct H' as [w2 [w3 [-> [H2 H3]]]].
  apply lang_ci_plus_digit in H1. destruct H1 as [D1 M1].
  apply lang_ci_chr in H3.
  exists w1, (map to_upper w2). split; [exact D1|]. split.
  - apply lang_ci_opt in H2. destruct H2 as [->|H2]; [now left|right].
    cbn [ci] in H2. apply lang_seq_inv in H2. destruct H2 as [w4 [w5 [-> [H4 H5]]]].
    apply lang_ci_chr in H4. apply lang_ci_plus_digit in H5. destruct H5 as [D5 M5].
    exists w5. split; [exact D5|]. now rewrite map_app, H4, M5.
  - now rewrite !map_app, M1, H3.
Qed.

Lemma lang_ci_time w :
  lang (ci (opt (seqs [chr "T"; opt (RSeq (plus digit) (chr "H"));
                       opt (RSeq (plus digit) (chr "M"));
                       opt (seqs [plus digit; opt (RSeq (chr ".") (plus digit)); chr "S"])])))
       w ->
  map to_upper w = [] \/
  exists h m sec,
    map to_upper w = "T"%char :: h ++ m ++ sec /\ opt_unit "H" h /\ opt_unit "M" m /\
    (sec = [] \/
     exists d f, digits d /\ (f = [] \/ exists e, digits e /\ f = "."%char :: e) /\
                 sec = d ++ f ++ ["S"%char]).
Proof.
  intros H. apply lang_ci_opt in H. destruct H as [->|H]; [now left|right].
  cbn [ci seqs] in H.
  apply lang_seq_inv in H. destruct H as [w1 [w' [-> [H1 H']]]].
  apply lang_seq_inv in H'. destruct H' as [w2 [w'' [-> [H2 H'']]]].
  apply lang_seq_inv in H''. destruct H'' as [w3 [w4 [-> [H3 H4]]]].
  apply lang_ci_chr in H1. apply lang_ci_unit in H2. apply lang_ci_unit in H3.
  apply lang_ci_sec in H4.
  exists (map to_upper w2), (map to_upper w3), (map to_upper w4).
  split; [now rewrite !map_app, H1|]. split; [exact H2|]. split; [exact H3|].
  destruct H4 as [H4|H4]; [now left|right]. exact H4.
Qed.

(** The text of a [DURATION] token, upper-cased: the prefix, the duration
    and the closing quote. *)
Lemma lang_duration w :
  lang (ci Lexer.DURATION_re) w ->
  exists v, map to_upper w = list_ascii_of_string "DURATION'" ++ v ++ ["'"%char] /\
            dur_shape v.
Proof.
  intros H. unfold Lexer.DURATION_re in H. cbn [ci seqs] in H.
  apply lang_seq_inv in H. destruct H as [w0 [x0 [-> [H0 X0]]]].
  apply lang_seq_inv in X0. destruct X0 as [w1 [x1 [-> [H1 X1]]]].
  apply lang_seq_inv in X1. destruct X1 as [w2 [x2 [-> [H2 X2]]]].
  apply lang_seq_inv in X2. destruct X2 as [w3 [x3 [-> [H3 X3]]]].
  apply lang_seq_inv in X3. destruct X3 as [w4 [w5 [-> [H4 H5]]]].
  apply lang_ci_lit in H0. apply lang_ci_chr in H2. apply lang_ci_unit in H3.
  apply lang_ci_time in H4. apply lang_ci_chr in H5.
  exists (map to_upper w1 ++ "P"%char :: map to_upper w3 ++ map to_upper w4).
  split.
  - assert (E0 : map to_upper (list_ascii_of_string "duration'") =
                 list_ascii_of_string "DURATION'") by (vm_compute; reflexivity).
    assert (EP : to_upper "P" = "P"%char) by (vm_compute; reflexivity).
    assert (EQ : to_upper "'" = "'"%char) by (vm_compute; reflexivity).
    rewrite !map_app, H0, H2, H5, E0, EP, EQ, <- !app_assoc, <- !app_comm_cons, <- !app_assoc.
    reflexivity.
  - exists (map to_upper w1), (map to_upper w3), (map to_upper w4).
    split; [reflexivity|]. split; [|split; [exact H3|exact H4]].
    apply lang_ci_opt in H1. destruct H1 as [->|H1]; [now left|right].
    apply lang_char_inv in H1. destruct H1 as [x [-> Hx]]. apply ci_sign in Hx.
    destruct Hx as [->| ->]; [left|right]; reflexivity.
Qed.

(** [DURATION_PATTERN] on the text of a [DURATION] token. *)
Lemma lang_chr (X : ascii) : lang (chr X) [X].
Proof. constructor. apply Ascii.eqb_refl. Qed.

Lemma lang_plus_digit d : digits d -> lang (plus digit) d.
Proof.
  intros [Hne F]. destruct d as [|x d]; [congruence|]. inversion F as [|? ? Hx Fd]; subst.
  change (x :: d) with ([x] ++ d). constructor; [now constructor|].
  clear Hne F Hx. induction Fd as [|y d Hy Fd IH]; [constructor|].
  change (y :: d) with ([y] ++ d). constructor; [now constructor|discriminate|exact IH].
Qed.

Lemma lang_opt_nil r : lang (opt r) [].
Proof. apply LAltR. constructor. Qed.

Lemma lang_opt_unit i (u : ascii) p :
  opt_unit u p -> lang (opt (RGroup i (RSeq (plus digit) (chr u)))) p.
Proof.
  intros [->|[d [Hd ->]]]; [apply lang_opt_nil|].
  apply LAltL. constructor. constructor; [now apply lang_plus_digit|apply lang_chr].
Qed.

Lemma dur_shape_lang v : dur_shape v -> lang Ast.DURATION_PATTERN v.
Proof.
  intros [sg [dp [tp [-> [Hsg [Hdp Htp]]]]]].
  unfold Ast.DURATION_PATTERN. cbn [seqs].
  change (sg ++ "P"%char :: dp ++ tp) with (sg ++ ["P"%char] ++ [] ++ [] ++ dp ++ tp).
  constructor.
  { destruct Hsg as [->|[->| ->]]; [apply lang_opt_nil| |];
      apply LAltL; constructor; constructor; reflexivity. }
  constructor; [apply lang_chr|].
  constructor; [apply lang_opt_nil|]. constructor; [apply lang_opt_nil|].
  constructor; [now apply lang_opt_unit|].
  destruct Htp as [->|[h [m [sec [-> [Hh [Hm Hsec]]]]]]]; [apply lang_opt_nil|].
  apply LAltL. change ("T"%char :: h ++ m ++ sec) with (["T"%char] ++ h ++ m ++ sec).
  constructor; [apply lang_chr|]. constructor; [now apply lang_opt_unit|].
  constructor; [now apply lang_opt_unit|].
  destruct Hsec as [->|[d [f [Hd [Hf ->]]]]]; [apply lang_opt_nil|].
  apply LAltL. constructor. constructor; [now apply lang_plus_digit|].
  constructor; [|apply lang_chr].
  destruct Hf as [->|[e [He ->]]]; [apply lang_opt_nil|].
  apply LAltL. change ("."%char :: e) with (["."%char] ++ e).
  constructor; [apply lang_chr|now apply lang_plus_digit].
Qed.

Lemma dur_shape_fullmatch v : dur_shape v -> exists c, fullmatch Ast.DURATION_PATTERN v = Some c.
Proof.
  intros H. apply dur_shape_lang in H. destruct (lang_mrel _ _ H [] []) as [c1 M].
  rewrite app_nil_r in M. unfold fullmatch.
  exact (mt_complete _ _ _ _ _ M (List.length v) _ c1 (le_n _) eq_refl).
Qed.

Lemma fullmatch_mrel r s c : fullmatch r s = Some c -> mrel r s [] [] c.
Proof.
  unfold fullmatch. intros H. apply mt_sound in H. destruct H as [s1 [c1 [M E]]].
  destruct s1; [|discriminate]. inversion E; now subst.
Qed.

Lemma prefix_match_mrel r s s1 c : prefix_match r s = Some (s1, c) -> mrel r s [] s1 c.
Proof.
  unfold prefix_match. intros H. apply mt_sound in H. destruct H as [s2 [c2 [M E]]].
  inversion E; now subst.
Qed.

Lemma lang_plus_digit_inv w : lang (plus digit) w -> digits w.
Proof.
  intros H. apply lang_seq_inv in H. destruct H as [w1 [w2 [-> [H1 H2]]]].
  apply lang_char_inv in H1. destruct H1 as [x [-> Hx]].
  split; [discriminate|]. constructor; [exact Hx|].
  remember (RStar digit) as r eqn:Er. clear Hx.
  induction H2; try discriminate; inversion Er; subst; [constructor|].
  apply Forall_app. split; [|now apply IHlang2].
  apply lang_char_inv in H2_. destruct H2_ as [y [-> Hy]]. now constructor.
Qed.

Lemma lang_unit_inv (u : ascii) w :
  lang (RSeq (plus digit) (chr u)) w -> exists d, digits d /\ w = d ++ [u].
Proof.
  intros H. apply lang_seq_inv in H. destruct H as [w1 [w2 [-> [H1 H2]]]].
  apply lang_plus_digit_inv in H1. apply lang_char_inv in H2.
  destruct H2 as [x [-> Hx]]. apply Ascii.eqb_eq in Hx. subst. eauto.
Qed.

(** Two runs of digits followed by a non-digit: the non-digits coincide. *)
Lemma digit_run_eq (d1 d2 t1 t2 : list ascii) (y1 y2 : ascii) :
  Forall (fun x => is_digit x = true) d1 -> Forall (fun x => is_digit x = true) d2 ->
  is_digit y1 = false -> is_digit y2 = false ->
  d1 ++ y1 :: t1 = d2 ++ y2 :: t2 -> y1 = y2.
Proof.
  revert d2. induction d1 as [|x d1 IH]; intros [|z d2] F1 F2 N1 N2 E;
    simpl in E; inversion E; subst; auto.
  - inversion F2; congruence.
  - inversion F1; congruence.
  - inversion F1; inversion F2; eauto.
Qed.

(** After the [P] of a duration comes either a day count ended by [D], a
    [T], or nothing: the first unit letter is [D]. *)
Lemma after_P dp tp d (u : ascii) s' :
  opt_unit "D" dp -> (tp = [] \/ exists rest, tp = "T"%char :: rest) ->
  digits d -> is_digit u = false -> dp ++ tp = (d ++ [u]) ++ s' -> u = "D"%char.
Proof.
  intros Hdp Htp [Hne Fd] Hu E. rewrite <- app_assoc in E. simpl in E.
  destruct Hdp as [->|[d1 [[_ F1] ->]]].
  - destruct d as [|x d]; [congruence|]. inversion Fd; subst.
    destruct Htp as [->|[rest ->]]; simpl in E; [discriminate|].
    inversion E; subst. discriminate.
  - rewrite <- app_assoc in E. simpl in E.
    symmetry. exact (digit_run_eq d1 d tp s' "D"%char u F1 Fd eq_refl Hu E).
Qed.

Lemma sign_prefix (sg w1 r s2 : list ascii) (x : ascii) :
  (sg = [] \/ sg = ["+"%char] \/ sg = ["-"%char]) ->
  (w1 = [] \/ exists y, w1 = [y] /\ (y = "+"%char \/ y = "-"%char)) ->
  x = "P"%char ->
  sg ++ "P"%char :: r = w1 ++ x :: s2 -> s2 = r.
Proof.
  intros Hsg Hw -> E.
  destruct Hsg as [->|[->| ->]]; destruct Hw as [->|[y [-> [-> | ->]]]];
    simpl in E; inversion E; auto.
Qed.

Lemma group_none (c : caps) (i : nat) (l : list nat) :
  Forall (fun e => List.In (fst e) l) c -> ~ List.In i l -> group c i = None.
Proof.
  intros F Ni. unfold group.
  assert (E : find (fun e => Nat.eqb (fst e) i) c = None).
  { induction F as [|e c He F IH]; [reflexivity|]. simpl.
    destruct (Nat.eqb (fst e) i) eqn:Ee; [|exact IH].
    apply Nat.eqb_eq in Ee. rewrite Ee in He. contradiction. }
  now rewrite E.
Qed.

(** A match of [DURATION_PATTERN] on a duration text takes neither the
    years group nor the months group before [T]. *)
Lemma dur_groups v c :
  dur_shape v -> mrel Ast.DURATION_PATTERN v [] [] c ->
  group c 2 = None /\ group c 3 = None.
Proof.
  intros [sg [dp [tp [Ev [Hsg [Hdp Htp]]]]]] M.
  assert (Htp' : tp = [] \/ exists rest, tp = "T"%char :: rest).
  { destruct Htp as [->|[h [m [sec [-> _]]]]]; eauto. }
  unfold Ast.DURATION_PATTERN in M. cbn [seqs] in M.
  apply mrel_seq_inv in M. destruct M as [s1 [c1 [M1 M]]].
  apply mrel_seq_inv in M. destruct M as [s2 [c2 [MP M]]].
  inversion MP as [p x s2' c2' Hx| | | | | | |]; subst s1 c2 p s2' c2'.
  apply Ascii.eqb_eq in Hx. symmetry in Hx.
  assert (Es2 : s2 = dp ++ tp).
  { destruct (mrel_lang _ _ _ _ _ M1) as [w1 [Ew1 L1]].
    apply (sign_prefix sg w1 _ _ x Hsg); [|exact Hx|congruence].
    apply lang_alt_inv in L1. destruct L1 as [L1|L1]; [right|left; now apply lang_eps_inv].
    apply lang_group_inv, lang_char_inv in L1. destruct L1 as [y [-> Hy]].
    exists y. split; [reflexivity|]. simpl in Hy.
    destruct (Ascii.eqb_spec y "+") as [->|_]; [auto|].
    destruct (Ascii.eqb_spec y "-") as [->|_]; [auto|discriminate]. }
  destruct (mrel_caps _ _ _ _ _ M1) as [n1 [Ec1 F1]].
  apply mrel_seq_inv in M. destruct M as [s3 [c3 [M2 M]]].
  apply mrel_alt_inv in M2. destruct M2 as [M2|M2].
  { exfalso. apply mrel_lang in M2. destruct M2 as [w [Ew L]].
    apply lang_group_inv, lang_unit_inv in L. destruct L as [d [Hd ->]].
    rewrite Es2 in Ew. pose proof (after_P _ _ _ "Y"%char _ Hdp Htp' Hd eq_refl Ew). discriminate. }
  apply mrel_eps_inv in M2. destruct M2 as [-> ->].
  apply mrel_seq_inv in M. destruct M as [s4 [c4 [M3 M]]].
  apply mrel_alt_inv in M3. destruct M3 as [M3|M3].
  { exfalso. apply mrel_lang in M3. destruct M3 as [w [Ew L]].
    apply lang_group_inv, lang_unit_inv in L. destruct L as [d [Hd ->]].
    rewrite Es2 in Ew. pose proof (after_P _ _ _ "M"%char _ Hdp Htp' Hd eq_refl Ew). discriminate. }
  apply mrel_eps_inv in M3. destruct M3 as [-> ->].
  destruct (mrel_caps _ _ _ _ _ M) as [n2 [-> F2]].
  replace (groups _) with [4; 5; 6; 7] in F2 by reflexivity.
  replace (groups _) with [1] in F1 by reflexivity.
  rewrite Ec1, app_nil_r.
  assert (F : Forall (fun e => List.In (fst e) [1; 4; 5; 6; 7]) (n2 ++ n1)).
  { apply Forall_app. split.
    - eapply Forall_impl; [|exact F2]. simpl. tauto.
    - eapply Forall_impl; [|exact F1]. simpl. tauto. }
  split; apply (group_none _ _ _ F); simpl; lia.
Qed.

Lemma dur_unpack v :
  dur_shape v ->
  exists sign d h m s,
    Ast.unpack (string_of_list_ascii v) = Ok [sign; None; None; d; h; m; s].
Proof.
  intros H. unfold Ast.unpack. rewrite list_ascii_of_string_of_list_ascii.
  destruct (dur_shape_fullmatch _ H) as [c Ec]. rewrite Ec.
  destruct (dur_groups _ _ H (fullmatch_mrel _ _ _ Ec)) as [-> ->].
  do 5 eexists. reflexivity.
Qed.

End RegexFacts.

(** ** The lexer on durations *)

Module DurationFacts.
Import Regex RegexSpec RegexFacts Lexer.
Local Open Scope list_scope.

Lemma ci_alternation_cons2 j k r k' r' rest :
  ci (alternation j ((k, r) :: (k', r') :: rest)) =
  RAlt (RGroup j (ci r)) (ci (alternation (S j) ((k', r') :: rest))).
Proof. reflexivity. Qed.

(** The first capture of a match of the joined pattern is the group of the
    rule that matched; its number is that of the rule. *)
Lemma alternation_head rules : forall j s c s1 c1,
  mrel (ci (alternation j rules)) s c s1 c1 ->
  exists i g c', c1 = (i, g) :: c' /\ j <= i /\
    (i = j -> exists k r rest, rules = (k, r) :: rest /\ mrel (ci r) s c s1 c').
Proof.
  induction rules as [|[k r] rest IH]; intros j s c s1 c1 H.
  - simpl in H. inversion H as [p x s' c' Hp| | | | | | |]; subst. discriminate.
  - destruct rest as [|[k' r'] rest'].
    + simpl in H. inversion H; subst.
      do 3 eexists. split; [reflexivity|]. split; [lia|]. intros _. eauto.
    + rewrite ci_alternation_cons2 in H. apply mrel_alt_inv in H. destruct H as [H|H].
      * inversion H; subst.
        do 3 eexists. split; [reflexivity|]. split; [lia|]. intros _. eauto.
      * destruct (IH _ _ _ _ _ H) as [i [g [c' [-> [Le _]]]]].
        exists i, g, c'. split; [reflexivity|]. split; [lia|]. intros ->. lia.
Qed.

Lemma nth_token_rules_duration m r :
  nth_error token_rules m = Some (DURATION, r) -> m = 0.
Proof.
  destruct m as [|m]; [reflexivity|]. intros H. cbn [nth_error token_rules] in H.
  apply nth_error_In in H. simpl in H. repeat (destruct H as [H|H]; [discriminate|]). destruct H.
Qed.

Lemma token_value_duration k value v :
  token_value k value = TNode (Ast.Duration v) ->
  k = DURATION /\ v = string_of_list_ascii (Py.slice_to_last 9 (Py.upper value)).
Proof. destruct k; simpl; intros H; inversion H; auto. Qed.

Lemma slice_duration v :
  Py.slice_to_last 9 (list_ascii_of_string "DURATION'" ++ v ++ ["'"%char]) = v.
Proof.
  unfold Py.slice_to_last. simpl. rewrite length_app. simpl.
  replace (List.length v + 1 - 1) with (List.length v) by lia.
  rewrite firstn_app, firstn_all, Nat.sub_diag. simpl. apply app_nil_r.
Qed.

Lemma firstn_prefix (w s1 : list ascii) :
  firstn (List.length (w ++ s1) - List.length s1) (w ++ s1) = w.
Proof.
  rewrite length_app, Nat.add_sub, firstn_app, firstn_all, Nat.sub_diag.
  simpl. apply app_nil_r.
Qed.

(** The value of every [Duration] token the lexer makes is a text of the
    shape [dur_shape]. *)
Lemma tokenize_from_duration (f : nat) : forall s ts t v,
  tokenize_from f s = Ok ts -> List.In t ts -> tok_value t = TNode (Ast.Duration v) ->
  exists w, dur_shape w /\ v = string_of_list_ascii w.
Proof.
  induction f as [|f IH]; intros s ts t v H Hin Ht.
  - inversion H; subst. destruct Hin.
  - destruct s as [|x rest]; [inversion H; subst; destruct Hin|].
    rewrite LexerFacts.tokenize_from_step in H.
    destruct (prefix_match master_re (x :: rest)) as [[s1 [|[i g] c]]|] eqn:Em.
    + inversion H; subst. destruct Hin.
    + destruct (nth_error token_rules (i - 1)) as [[k r]|] eqn:En;
        [|inversion H; subst; destruct Hin].
      destruct (tokenize_from f s1) as [ts'|e] eqn:E; cbn [bind] in H; [|discriminate].
      inversion H; subst ts. destruct Hin as [<-|Hin]; [|exact (IH _ _ _ _ E Hin Ht)].
      cbn [tok_value] in Ht. apply token_value_duration in Ht. destruct Ht as [-> ->].
      apply nth_token_rules_duration in En.
      apply prefix_match_mrel in Em. unfold master_re in Em.
      destruct (alternation_head _ _ _ _ _ _ Em) as [i' [g' [c' [Ec [Le Hd]]]]].
      inversion Ec; subst i' g' c'.
      destruct (Hd ltac:(lia)) as [k0 [r0 [rest0 [Er M]]]].
      inversion Er; subst k0 r0 rest0.
      destruct (mrel_lang _ _ _ _ _ M) as [w [Ew L]].
      change (match List.length s1 with 0 => S (List.length rest) | S l => List.length rest - l end)
        with (List.length (x :: rest) - List.length s1).
      rewrite Ew, firstn_prefix.
      destruct (lang_duration _ L) as [v' [Eu Hs]].
      exists v'. split; [exact Hs|]. unfold Py.upper. now rewrite Eu, slice_duration.
    + destruct (existsb (Ascii.eqb x) literals).
      * destruct (tokenize_from f rest) as [ts'|e] eqn:E; simpl in H; [|discriminate].
        inversion H; subst ts. destruct Hin as [<-|Hin]; [discriminate|].
        exact (IH _ _ _ _ E Hin Ht).
      * unfold error in H. simpl in H. discriminate.
Qed.

End DurationFacts.

(** * The claims *)

Module Claims.
Import Ast Lexer Grammar Spec LexerFacts GrammarFacts SqlFacts.

(** Claim C1: printing a parsed filter with [AstToODataVisitor] and parsing
    the result again gives the first AST back. The printer writes a
    one-item list without the trailing comma that the grammar requires, and
    a string without re-doubling its quotes: [id in (1,)] prints as
    [id in (1)], which does not parse, and ['it''s'] prints as ['it's'],
    which parses to no AST at all. *)
Theorem C1_roundtrip_single_item_list :
  parse "id in (1,)" = [Ok (Compare In (Identifier "id" []) (List [Integer "1"]))] /\
  Roundtrip.visit (Compare In (Identifier "id" []) (List [Integer "1"])) =
    Ok (Some "id in (1)") /\
  parse "id in (1)" = [] /\
  parse "'it''s'" = [Ok (String "it's")] /\
  Roundtrip.visit (String "it's") = Ok (Some "'it's'") /\
  Forall (fun r => match r with Ok _ => False | Error _ => True end) (parse "'it's'").
Proof. vm_compute. repeat split; repeat constructor. Qed.

(** Claim C2: input the lexer cannot match raises a tokenizing failure
    carrying the offending text. [ODataLexer.error] raises
    [TokenizingException(text)] with [text] unbound in [grammar.py], so every
    error of the lexer is a [NameError] for [text]. *)
Theorem C2_tokenize_error_is_NameError (s : string) (e : exn) :
  tokenize s = Error e -> e = NameError "text".
Proof. apply tokenize_from_error. Qed.

Lemma C2_witness :
  tokenize "<>%&#@" = Error (NameError "text") /\ NameError "text" = NameError "text".
Proof.
  split; [vm_compute; reflexivity|].
  apply (C2_tokenize_error_is_NameError "<>%&#@"). vm_compute. reflexivity.
Defined.

(** Claim C3: [Duration.unpack] returns seven parts (sign, years, months,
    days, hours, minutes, seconds): on ["P12DT23H59M59.9S"] it is
    [(None, None, None, "12", "23", "59", "59.9")], not the five parts
    [(None, "12", "23", "59", "59.9")]; on ["-P1D"] the sign is ["-"]. *)
Theorem C3_unpack_seven_parts :
  unpack "P12DT23H59M59.9S" =
    Ok [None; None; None; Some "12"; Some "23"; Some "59"; Some "59.9"] /\
  unpack "-P1D" = Ok [Some "-"; None; None; Some "1"; None; None; None].
Proof. vm_compute. split; reflexivity. Qed.

Lemma C3_counterexample :
  unpack "P12DT23H59M59.9S" <> Ok [None; Some "12"; Some "23"; Some "59"; Some "59.9"].
Proof. vm_compute. discriminate. Qed.

(** Claim C4: in every dialect, [Compare(Eq, x, Null)] compiles to
    [<x> IS NULL] and [Compare(NotEq, x, Null)] to [<x> IS NOT NULL], with
    [<x>] the operand's SQL (in parentheses when it is a [BoolOp] or a
    [Compare]); never [= NULL] or [!= NULL]. *)
Theorem C4_compare_null_is_null (table_alias : option string)
  (sqlfunc : Sql.dialect -> string -> list node -> list (res Sql.sqlval) ->
             option (res Sql.sqlval))
  (d : Sql.dialect) (x : node) :
  Sql.visit table_alias sqlfunc d (Compare Eq x Null) =
    (vx <- Sql.visit table_alias sqlfunc d x ;;
     Ok (Sql.SStr ((if Sql.is_bool_expr x then Sql.wrap (Sql.fmt vx) else Sql.fmt vx)
                   ++ " IS NULL"))) /\
  Sql.visit table_alias sqlfunc d (Compare NotEq x Null) =
    (vx <- Sql.visit table_alias sqlfunc d x ;;
     Ok (Sql.SStr ((if Sql.is_bool_expr x then Sql.wrap (Sql.fmt vx) else Sql.fmt vx)
                   ++ " IS NOT NULL"))).
Proof.
  rewrite !visit_Compare_eq.
  destruct (Sql.visit table_alias sqlfunc d x); split; reflexivity.
Qed.

(** Claim C5: attribute paths nest to the left, and a collection lambda at
    the end of a path takes the whole prefix as its owner. Every attribute
    of a parsed AST names a string, and ["a/b/c"] and ["a/b/any()"] parse as
    stated; with three segments before the lambda the action of
    [property_path_expr] reads [owner.name] on an [Attribute] and raises. *)
Theorem C5_attribute_paths :
  (forall text n, List.In (Ok n) (parse text) -> all_nodes attr_node_ok n) /\
  parse "a/b/c" = [Ok (Attribute (Attribute (Identifier "a" []) (inl "b")) (inl "c"))] /\
  parse "a/b/any()" = [Ok (CollectionLambda (Attribute (Identifier "a" []) (inl "b")) Any None)] /\
  parse "a/b/c/any()" = [Error (AttributeError "Attribute" "name")].
Proof.
  split.
  - intros text n H. apply (wf_all_nodes attr_node_ok); [|exact (parse_wf text n H)].
    intros m Hm. apply wf_local. exact Hm.
  - vm_compute. repeat split.
Qed.

(** Claim C6: calls are checked at parse time against [ODATA_FUNCTIONS]:
    an unregistered name raises [UnknownFunctionException], a registered
    name with a number of arguments outside its arity or range raises
    [ArgumentCountException] with the name, the expected bounds and the
    given count, an admitted call becomes a [Call] node, and every [Call] in
    a parsed AST is admitted. ["now('x')"] and ["doesnotexist()"] fail in
    [parse]. *)
Theorem C6_function_calls_validated :
  (forall name ns args, lookup_function name = None ->
     _function_call (Identifier name ns) args = Error (UnknownFunctionException name)) /\
  (forall name ns args a, lookup_function name = Some a ->
     ~ arity_ok a (List.length args) ->
     exists lo hi,
       _function_call (Identifier name ns) args =
         Error (ArgumentCountException name lo hi (List.length args)) /\
       ((a = inl lo /\ hi = lo) \/ a = inr (lo, hi))) /\
  (forall name ns args a, lookup_function name = Some a ->
     arity_ok a (List.length args) ->
     _function_call (Identifier name ns) args = Ok (Call (Identifier name ns) args)) /\
  (forall text n, List.In (Ok n) (parse text) -> all_nodes call_node_ok n) /\
  parse "now('x')" = [Error (ArgumentCountException "now" 0 0 1)] /\
  parse "doesnotexist()" = [Error (UnknownFunctionException "doesnotexist")].
Proof.
  split; [|split; [|split; [|split]]].
  - intros name ns args H. unfold _function_call. simpl. now rewrite H.
  - intros name ns args [k|[lo hi]] H Ha; unfold _function_call; simpl; rewrite H; simpl in Ha.
    + exists k, k. split; [|left; auto].
      destruct (Nat.eqb (List.length args) k) eqn:E; [apply Nat.eqb_eq in E; contradiction|].
      reflexivity.
    + exists lo, hi. split; [|right; reflexivity].
      destruct (Nat.ltb (List.length args) lo || Nat.ltb hi (List.length args)) eqn:E;
        [reflexivity|].
      apply orb_false_iff in E. destruct E as [E1 E2].
      apply Nat.ltb_ge in E1. apply Nat.ltb_ge in E2. exfalso. apply Ha. lia.
  - intros name ns args [k|[lo hi]] H Ha; unfold _function_call; simpl; rewrite H; simpl in Ha.
    + subst k. now rewrite Nat.eqb_refl.
    + destruct Ha as [H1 H2].
      apply Nat.ltb_ge in H1. apply Nat.ltb_ge in H2. now rewrite H1, H2.
  - intros text n H. apply (wf_all_nodes call_node_ok); [|exact (parse_wf text n H)].
    intros m Hm. apply wf_local. exact Hm.
  - vm_compute. split; reflexivity.
Qed.

(** Claim C7 (as the code does it): [visit_BoolOp] puts a child in
    parentheses exactly when the child is a [BoolOp] with another operator,
    so a [Compare] child is not parenthesized; [visit_Compare] puts an
    operand in parentheses exactly when it is a [BoolOp] or a [Compare]. *)
Theorem C7_sql_parenthesization (table_alias : option string)
  (sqlfunc : Sql.dialect -> string -> list node -> list (res Sql.sqlval) ->
             option (res Sql.sqlval))
  (d : Sql.dialect) (op l r : node) (vl vo vr : Sql.sqlval)
  (Hl : Sql.visit table_alias sqlfunc d l = Ok vl)
  (Ho : Sql.visit table_alias sqlfunc d op = Ok vo)
  (Hr : Sql.visit table_alias sqlfunc d r = Ok vr) :
  (exists L R,
     Sql.visit table_alias sqlfunc d (BoolOp op l r) =
       Ok (Sql.SStr (L ++ " " ++ Sql.fmt vo ++ " " ++ R)) /\
     ((L = Sql.wrap (Sql.fmt vl) /\ other_boolop op l) \/
      (L = Sql.fmt vl /\ ~ other_boolop op l)) /\
     ((R = Sql.wrap (Sql.fmt vr) /\ other_boolop op r) \/
      (R = Sql.fmt vr /\ ~ other_boolop op r))) /\
  (exists L C R,
     Sql.visit table_alias sqlfunc d (Compare op l r) =
       Ok (Sql.SStr (L ++ " " ++ C ++ " " ++ R)) /\
     ((L = Sql.wrap (Sql.fmt vl) /\ bool_typed l) \/ (L = Sql.fmt vl /\ ~ bool_typed l)) /\
     ((R = Sql.wrap (Sql.fmt vr) /\ bool_typed r) \/ (R = Sql.fmt vr /\ ~ bool_typed r))).
Proof.
  split.
  - rewrite visit_BoolOp_eq, Hl, Ho, Hr. simpl. unfold Sql.visit_BoolOp.
    eexists; eexists; split; [reflexivity|]. split; apply boolop_child.
  - rewrite visit_Compare_eq, Hl, Hr, Ho. simpl. unfold Sql.visit_Compare.
    eexists; eexists; eexists; split; [reflexivity|]. split; apply compare_operand.
Qed.

Lemma C7_witness :
  Sql.visit None (fun _ _ _ _ => None) Sql.Base (Compare Eq (Identifier "a" []) (Integer "1")) =
    Ok (Sql.SStr (Sql.dq ++ "a" ++ Sql.dq ++ " = 1")) /\
  Sql.visit None (fun _ _ _ _ => None) Sql.Base And = Ok (Sql.SStr "AND") /\
  Sql.visit None (fun _ _ _ _ => None) Sql.Base
    (BoolOp Or (Identifier "b" []) (Identifier "c" [])) =
    Ok (Sql.SStr (Sql.dq ++ "b" ++ Sql.dq ++ " OR " ++ Sql.dq ++ "c" ++ Sql.dq)) /\
  (exists L R,
     Sql.visit None (fun _ _ _ _ => None) Sql.Base
       (BoolOp And (Compare Eq (Identifier "a" []) (Integer "1"))
                   (BoolOp Or (Identifier "b" []) (Identifier "c" []))) =
       Ok (Sql.SStr (L ++ " " ++ Sql.fmt (Sql.SStr "AND") ++ " " ++ R)) /\
     ((L = Sql.wrap (Sql.fmt (Sql.SStr (Sql.dq ++ "a" ++ Sql.dq ++ " = 1"))) /\
       other_boolop And (Compare Eq (Identifier "a" []) (Integer "1"))) \/
      (L = Sql.fmt (Sql.SStr (Sql.dq ++ "a" ++ Sql.dq ++ " = 1")) /\
       ~ other_boolop And (Compare Eq (Identifier "a" []) (Integer "1")))) /\
     ((R = Sql.wrap (Sql.fmt (Sql.SStr (Sql.dq ++ "b" ++ Sql.dq ++ " OR " ++ Sql.dq ++ "c" ++ Sql.dq))) /\
       other_boolop And (BoolOp Or (Identifier "b" []) (Identifier "c" []))) \/
      (R = Sql.fmt (Sql.SStr (Sql.dq ++ "b" ++ Sql.dq ++ " OR " ++ Sql.dq ++ "c" ++ Sql.dq)) /\
       ~ other_boolop And (BoolOp Or (Identifier "b" []) (Identifier "c" []))))).
Proof.
  split; [reflexivity|]. split; [reflexivity|]. split; [reflexivity|].
  apply (C7_sql_parenthesization None (fun _ _ _ _ => None) Sql.Base And
           (Compare Eq (Identifier "a" []) (Integer "1"))
           (BoolOp Or (Identifier "b" []) (Identifier "c" []))); reflexivity.
Defined.

(** Claim C7 as stated: a [Compare] child of a [BoolOp] is not put in
    parentheses. *)
Lemma C7_counterexample :
  Sql.visit None (fun _ _ _ _ => None) Sql.Base
    (BoolOp And (Compare Eq (Identifier "a" []) (Integer "1"))
                (Compare Eq (Identifier "b" []) (Integer "2"))) =
  Ok (Sql.SStr (Sql.dq ++ "a" ++ Sql.dq ++ " = 1 AND " ++ Sql.dq ++ "b" ++ Sql.dq ++ " = 2")).
Proof. vm_compute. reflexivity. Qed.

(** Claim C8: ["(1,)"] is a one-item list, ["(1,2)"] a two-item list and
    ["(1)"] the integer alone. *)
Theorem C8_list_literals :
  parse "(1,)" = [Ok (List [Integer "1"])] /\
  parse "(1,2)" = [Ok (List [Integer "1"; Integer "2"])] /\
  parse "(1)" = [Ok (Integer "1")].
Proof. vm_compute. repeat split. Qed.

(** Claim C9: in every AST the parser returns, the right operand of a
    [Compare] with comparator [In] is a [List]; an [in] with another right
    operand does not parse (an empty list of derivations is SLY's
    [ParsingException]). *)
Theorem C9_in_rhs_is_list :
  (forall text n, List.In (Ok n) (parse text) -> all_nodes in_node_ok n) /\
  parse "a in 1" = [] /\ parse "a in b" = [] /\ parse "a in (1)" = [] /\
  parse "a in (1, 2)" = [Ok (Compare In (Identifier "a" []) (List [Integer "1"; Integer "2"]))].
Proof.
  split.
  - intros text n H. apply (wf_all_nodes in_node_ok); [|exact (parse_wf text n H)].
    intros m Hm. apply wf_local. exact Hm.
  - vm_compute. repeat split.
Qed.

(** Claim C10: the [DURATION] token rule of [ODataLexer] admits a sign,
    days and a time part, but no years and no months. So for every
    [Duration] node made by tokenizing a string, [Duration.unpack] gives
    [None] for the years and for the months. *)
Theorem C10_duration_no_years_months (text : string) (ts : list token) (t : token)
  (v : string) :
  tokenize text = Ok ts -> List.In t ts -> tok_value t = TNode (Duration v) ->
  exists sign d h m s, unpack v = Ok [sign; None; None; d; h; m; s].
Proof.
  intros H Hin Ht.
  destruct (DurationFacts.tokenize_from_duration _ _ _ _ _ H Hin Ht) as [w [Hs ->]].
  exact (RegexFacts.dur_unpack w Hs).
Qed.

Lemma C10_witness :
  tokenize "duration'-P1DT2H'" = Ok [mk_token DURATION (TNode (Duration "-P1DT2H"))] /\
  exists sign d h m s, unpack "-P1DT2H" = Ok [sign; None; None; d; h; m; s].
Proof.
  split; [vm_compute; reflexivity|].
  apply (C10_duration_no_years_months "duration'-P1DT2H'"
           [mk_token DURATION (TNode (Duration "-P1DT2H"))]
           (mk_token DURATION (TNode (Duration "-P1DT2H")))).
  - vm_compute. reflexivity.
  - left. reflexivity.
  - reflexivity.
Defined.

End Claims.


(** ** Further properties: [typing.py] *)

Module ExtraTyping.
Import Ast Spec ExtraSpec.

Lemma infer_type_ok : forall n, all_nodes call_node_ok n ->
  exists t, Typing.infer_type n = Ok t /\ type_ok t.
Proof.
  fix IH 1. intros n H.
  assert (Lit : forall m, Typing.is_literal m = true -> type_ok (Some (class_name m)))
    by (intros m Hm; right; exists m; split; [exact Hm|reflexivity]).
  assert (Nn : type_ok None) by (left; reflexivity).
  destruct n eqn:En;
    try (exists None; split; [reflexivity|exact Nn]);
    try (exists (Some (class_name (Boolean ""))); split; [reflexivity|apply Lit; reflexivity]);
    try (exists (Some (class_name n)); subst n; split; [reflexivity|apply Lit; reflexivity]).
  subst n. destruct H as [[name [ns [a [-> [Hl Ha]]]]] [_ Hargs]].
  cbn [Typing.infer_type Typing.is_literal get_name bind].
  destruct (Typing.in_names name _); [eexists; split; [reflexivity|exact (Lit (Boolean "") eq_refl)]|].
  destruct (Typing.in_names name _); [eexists; split; [reflexivity|exact (Lit (Integer "") eq_refl)]|].
  destruct (Typing.in_names name _); [eexists; split; [reflexivity|exact (Lit (Float "") eq_refl)]|].
  destruct (Typing.in_names name _); [eexists; split; [reflexivity|exact (Lit (String "") eq_refl)]|].
  destruct (String.eqb name "date"); [eexists; split; [reflexivity|exact (Lit (Date "") eq_refl)]|].
  destruct (Typing.in_names name _); [eexists; split; [reflexivity|exact (Lit (DateTime "") eq_refl)]|].
  destruct (String.eqb name "concat") eqn:Ec.
  - apply String.eqb_eq in Ec. subst name. simpl in Hl. inversion Hl; subst a. simpl in Ha.
    destruct args as [|a0 [|a1 [|a2 args]]]; simpl in Ha; try discriminate.
    destruct Hargs as [H0 [H1 _]].
    destruct (IH a0 H0) as [t0 [E0 T0]]. rewrite E0. cbn [bind].
    destruct t0 as [s0|]; [exists (Some s0); split; [reflexivity|exact T0]|].
    exact (IH a1 H1).
  - destruct (String.eqb name "substring") eqn:Es; [|exists None; split; [reflexivity|exact Nn]].
    apply String.eqb_eq in Es. subst name. simpl in Hl. inversion Hl; subst a. simpl in Ha.
    destruct args as [|a0 args]; simpl in Ha; [lia|].
    destruct Hargs as [H0 _]. exact (IH a0 H0).
Qed.

(** X1: [typing.infer_type] never raises on an AST the parser returns, and the
    type it gives is [None] or the class name of a literal node. *)
Theorem parse_infer_type (text : string) (n : node) :
  List.In (Ok n) (Grammar.parse text) ->
  exists t, Typing.infer_type n = Ok t /\ type_ok t.
Proof.
  intros H. apply GrammarFacts.parse_wf in H.
  apply (GrammarFacts.wf_all_nodes call_node_ok) in H.
  - exact (infer_type_ok n H).
  - intros m Hm. apply GrammarFacts.wf_local in Hm. tauto.
Qed.

Lemma parse_infer_type_witness :
  List.In (Ok (Call (Identifier "concat" []) [Identifier "a" []; String "x"]))
          (Grammar.parse "concat(a,'x')") /\
  exists t, Typing.infer_type (Call (Identifier "concat" []) [Identifier "a" []; String "x"]) = Ok t /\ type_ok t.
Proof.
  assert (H : List.In (Ok (Call (Identifier "concat" []) [Identifier "a" []; String "x"]))
                      (Grammar.parse "concat(a,'x')")) by (vm_compute; auto).
  split; [exact H|]. exact (parse_infer_type _ _ H).
Defined.

(** X2: [infer_type] raises [IndexError] on a [concat] call with no argument,
    and on one whose only argument has no inferable type. *)
Theorem infer_type_concat_short (ns : list string) (a : node) :
  Typing.infer_type a = Ok None ->
  Typing.infer_type (Call (Identifier "concat" ns) []) = Error IndexError /\
  Typing.infer_type (Call (Identifier "concat" ns) [a]) = Error IndexError.
Proof. intros Ha. split; [reflexivity|]. simpl. rewrite Ha. reflexivity. Qed.

Lemma infer_type_concat_short_witness :
  Typing.infer_type (Identifier "a" []) = Ok None /\
  Typing.infer_type (Call (Identifier "concat" []) [Identifier "a" []]) = Error IndexError.
Proof.
  assert (H : Typing.infer_type (Identifier "a" []) = Ok None) by reflexivity.
  split; [exact H|]. exact (proj2 (infer_type_concat_short [] _ H)).
Defined.

End ExtraTyping.


(** ** Further properties: [rewrite.py] and [utils.py] *)

Module ExtraRewrite.
Import Ast Spec ExtraSpec Rewrite.

Lemma path_snoc (root : node) (l : list string) (s : string) :
  path root (l ++ [s])%list = Attribute (path root l) (inl s).
Proof. unfold path. now rewrite fold_left_app. Qed.

Lemma path_name (name : string) (ns : list string) (l : list string) :
  (exists o a, path (Identifier name ns) l = Attribute o a) \/ path (Identifier name ns) l = Identifier name ns.
Proof.
  destruct l as [|s l] using rev_ind; [right; reflexivity|].
  left. rewrite path_snoc. eauto.
Qed.

(** X3: [AliasRewriter] returns an AST unchanged when none of its names or
    attributes is a key of the replacements. *)
Lemma alias_identity (reps : list (node * node)) :
  forall n, alias_free reps n -> AliasRewriter_visit reps n = Ok n.
Proof.
  unfold alias_free. fix IH 1. intros n H.
  destruct n; cbn [all_nodes] in H; cbn [AliasRewriter_visit]; try reflexivity.
  - destruct H as [H _]. rewrite H. reflexivity.
  - destruct H as [H [H1 _]]. rewrite H. cbn [bind]. rewrite (IH _ H1). reflexivity.
  - destruct H as [_ H]. revert H. generalize val as l. fix IHl 1. intros [|x l] H; [reflexivity|].
    destruct H as [H1 H2]. cbn [bind]. rewrite (IH x H1). cbn [bind].
    specialize (IHl l H2). cbn [bind] in IHl.
    destruct ((fix visit_all (l0 : list node) : res (list node) :=
       match l0 with
       | [] => Ok []
       | x0 :: l' => a <- AliasRewriter_visit reps x0;; r <- visit_all l';; Ok (a :: r)
       end) l); inversion IHl; reflexivity.
  - destruct H as [_ [H1 [H2 H3]]]. cbn [bind]. now rewrite (IH _ H1), (IH _ H2), (IH _ H3).
  - destruct H as [_ [H1 [H2 H3]]]. cbn [bind]. now rewrite (IH _ H1), (IH _ H2), (IH _ H3).
  - destruct H as [_ [H1 [H2 H3]]]. cbn [bind]. now rewrite (IH _ H1), (IH _ H2), (IH _ H3).
  - destruct H as [_ [H1 H2]]. cbn [bind]. now rewrite (IH _ H1), (IH _ H2).
  - destruct H as [_ [H1 H2]]. cbn [bind]. now rewrite (IH _ H1), (IH _ H2).
  - destruct H as [_ [H1 H]]. cbn [bind]. rewrite (IH _ H1). cbn [bind].
    enough (E : (fix visit_all (l0 : list node) : res (list node) :=
       match l0 with
       | [] => Ok []
       | x0 :: l' => a <- AliasRewriter_visit reps x0;; r <- visit_all l';; Ok (a :: r)
       end) args = Ok args) by now rewrite E.
    revert H. generalize args as l. fix IHl 1. intros [|x l] H; [reflexivity|].
    destruct H as [H1' H2]. cbn [bind]. rewrite (IH x H1'). cbn [bind].
    now rewrite (IHl l H2).
  - destruct H as [_ [H1 H2]]. cbn [bind]. now rewrite (IH _ H1), (IH _ H2).
  - destruct H as [_ [H1 [H2 H3]]]. cbn [bind]. rewrite (IH _ H1), (IH _ H2). cbn [bind].
    destruct lambda_ as [l|]; [|reflexivity]. now rewrite (IH _ H3).
Qed.

(** X4: [AliasRewriter] replaces the longest aliased prefix of an attribute
    path and keeps the attribute names after it. *)
Theorem alias_path (reps : list (node * node)) (name : string) (ns : list string)
    (pre suf : list string) (v : node) :
  dict_get reps (path (Identifier name ns) pre) = Ok (Some v) ->
  (forall q, q <> [] -> (exists q', (q ++ q')%list = suf) ->
             dict_get reps (path (Identifier name ns) (pre ++ q)%list) = Ok None) ->
  AliasRewriter_visit reps (path (Identifier name ns) (pre ++ suf)%list) = Ok (path v suf).
Proof.
  intros Hk Hlong. induction suf as [|s suf IH] using rev_ind.
  - rewrite app_nil_r. simpl.
    destruct (path_name name ns pre) as [[o [a E]]|E]; rewrite E in *;
      cbn [AliasRewriter_visit]; rewrite Hk; reflexivity.
  - rewrite app_assoc, path_snoc. cbn [AliasRewriter_visit].
    assert (Hd : dict_get reps (Attribute (path (Identifier name ns) (pre ++ suf)) (inl s)) = Ok None).
    { rewrite <- path_snoc, <- app_assoc. apply Hlong; [destruct suf; discriminate|].
      exists []. apply app_nil_r. }
    rewrite Hd. cbn [bind]. rewrite path_snoc, IH; [reflexivity|].
    intros q Hq [q' Eq]. apply Hlong; [exact Hq|]. exists (q' ++ [s])%list.
    rewrite app_assoc, Eq. reflexivity.
Qed.

(** X5: [rewrite.IdentifierStripper] turns the path [id/s/ss...] into the
    path [s/ss...] relative to the stripped identifier [id]. *)
Theorem strip_path (name : string) (ns : list string) (s : string) (ss : list string) :
  IdentifierStripper_visit (Identifier name ns) (path (Identifier name ns) (s :: ss)) =
  Some (path (Identifier s []) ss).
Proof.
  induction ss as [|x ss IH] using rev_ind.
  - cbn. rewrite String.eqb_refl. cbn.
    rewrite (proj2 (SqlFacts.strs_eqb_eq ns ns) eq_refl). reflexivity.
  - change (s :: ss ++ [x])%list with ((s :: ss) ++ [x])%list. rewrite !path_snoc.
    cbn [IdentifierStripper_visit].
    destruct (path_name name ns (s :: ss)) as [[o [a E]]|E].
    + rewrite E. cbn [Sql.node_eqb]. rewrite <- E, IH. reflexivity.
    + exfalso. change (s :: ss) with ([s] ++ ss)%list in E. unfold path in E.
      rewrite fold_left_app in E. simpl in E.
      destruct ss as [|y ss] using rev_ind; [discriminate|].
      rewrite fold_left_app in E. discriminate.
Qed.

Lemma path_cons_attr (root : node) (s : string) (segs : list string) :
  exists o a, path root (s :: segs) = Attribute o a.
Proof.
  destruct segs as [|t segs _] using rev_ind; [simpl; eauto|].
  change (s :: segs ++ [t])%list with ((s :: segs) ++ [t])%list. rewrite path_snoc. eauto.
Qed.

(** X6: [rewrite.IdentifierStripper] leaves a nonempty attribute path that
    starts at another root unchanged. *)
Theorem strip_other_path (name : string) (ns : list string) (root : node)
    (s : string) (segs : list string) :
  ExtraSpec.is_attribute root = false -> Sql.node_eqb root (Identifier name ns) = false ->
  IdentifierStripper_visit (Identifier name ns) (path root (s :: segs)) =
  Some (path root (s :: segs)).
Proof.
  intros Hr Hne. induction segs as [|t segs IH] using rev_ind.
  - simpl. rewrite Hne. destruct root; try discriminate; reflexivity.
  - change (s :: segs ++ [t])%list with ((s :: segs) ++ [t])%list. rewrite path_snoc.
    cbn [IdentifierStripper_visit].
    destruct (path_cons_attr root s segs) as [o [a E]]. rewrite E in *.
    cbn [Sql.node_eqb]. rewrite IH. reflexivity.
Qed.

Import Utils.

Lemma then_setattr_frozen (r : outcome) (f : string) :
  r <> Unrepresented -> exists f', then_setattr r f = FrozenInstanceError f'.
Proof. destruct r; simpl; eauto. congruence. Qed.

Lemma then_setattr_not_unrep (r : outcome) (f : string) :
  r <> Unrepresented -> then_setattr r f <> Unrepresented.
Proof. destruct r; simpl; congruence. Qed.

Lemma utils_visit_not_unrep (strip : node) :
  forall n, all_nodes attr_node_ok n -> Utils.visit strip n <> Unrepresented.
Proof.
  fix IH 1. intros n H.
  destruct n; cbn [all_nodes] in H; cbn [Utils.visit]; try discriminate;
    try (apply then_setattr_not_unrep; apply IH; tauto).
  - destruct H as [[s ->] [H1 _]]. pose proof (IH n H1) as Ho.
    destruct (Sql.node_eqb n strip); [discriminate|].
    destruct n; try discriminate. apply then_setattr_not_unrep, Ho.
  - destruct H as [_ H]. revert H. generalize val as l. fix IHl 1.
    intros [|x l] H; [discriminate|]. destruct H as [H1 H2]. cbn.
    specialize (IH x H1). destruct (Utils.visit strip x); [exact (IHl l H2)|discriminate|exact IH].
Qed.

(** X7: [utils.expression_relative_to_identifier] returns a result only for
    a node without fields or an attribute whose owner is the identifier or
    not an attribute; on every other node it raises a [FrozenInstanceError]. *)
Theorem relative_to_identifier (strip n : node) :
  all_nodes attr_node_ok n ->
  if relative_ok strip n
  then expression_relative_to_identifier strip n = Returned (relative_result strip n)
  else exists f, expression_relative_to_identifier strip n = FrozenInstanceError f.
Proof.
  intros H. unfold expression_relative_to_identifier.
  pose proof (utils_visit_not_unrep strip n H) as Hn.
  destruct n; cbn [all_nodes] in H; cbn [relative_ok fieldless Utils.visit relative_result];
    try reflexivity; try (eexists; reflexivity);
    try (apply then_setattr_frozen; apply utils_visit_not_unrep; tauto).
  - destruct H as [[s ->] [H1 _]]. destruct (Sql.node_eqb n strip); [reflexivity|].
    destruct n; try reflexivity. cbn [orb negb is_attribute].
    apply then_setattr_frozen, utils_visit_not_unrep, H1.
  - cbn [Utils.visit] in Hn.
    destruct ((fix visit_items (l : list node) : option outcome :=
         match l with
         | [] => None
         | x :: l' => match Utils.visit strip x with Returned _ => visit_items l' | e => Some e end
         end) val) as [e|] eqn:E; [|eexists; reflexivity].
    destruct e; [|eexists; reflexivity|contradiction].
    exfalso. clear -E. induction val as [|x l IH]; [discriminate|].
    destruct (Utils.visit strip x) eqn:Ex; [exact (IH E)|discriminate|discriminate].
Qed.

Lemma relative_to_identifier_witness :
  all_nodes attr_node_ok
    (Compare Eq (Attribute (Identifier "id" []) (inl "name")) (String "Jozef")) /\
  exists f, expression_relative_to_identifier (Identifier "id" [])
    (Compare Eq (Attribute (Identifier "id" []) (inl "name")) (String "Jozef")) =
    FrozenInstanceError f.
Proof.
  assert (H : all_nodes attr_node_ok
    (Compare Eq (Attribute (Identifier "id" []) (inl "name")) (String "Jozef")))
    by (simpl; repeat split; eauto).
  split; [exact H|]. exact (relative_to_identifier (Identifier "id" []) _ H).
Defined.

Lemma alias_identity_witness :
  alias_free [(Identifier "author" [], Identifier "creator" [])]
    (Compare Eq (Attribute (Identifier "user" []) (inl "name")) (String "J")) /\
  AliasRewriter_visit [(Identifier "author" [], Identifier "creator" [])]
    (Compare Eq (Attribute (Identifier "user" []) (inl "name")) (String "J")) =
  Ok (Compare Eq (Attribute (Identifier "user" []) (inl "name")) (String "J")).
Proof.
  assert (H : alias_free [(Identifier "author" [], Identifier "creator" [])]
    (Compare Eq (Attribute (Identifier "user" []) (inl "name")) (String "J")))
    by (vm_compute; repeat split).
  split; [exact H|]. exact (alias_identity _ _ H).
Defined.

Lemma alias_path_witness :
  dict_get [(Identifier "author" [], Attribute (Identifier "book" []) (inl "writer"))]
    (path (Identifier "author" []) []) =
    Ok (Some (Attribute (Identifier "book" []) (inl "writer"))) /\
  AliasRewriter_visit [(Identifier "author" [], Attribute (Identifier "book" []) (inl "writer"))]
    (path (Identifier "author" []) ["name"]) =
  Ok (path (Attribute (Identifier "book" []) (inl "writer")) ["name"]).
Proof.
  assert (H : dict_get [(Identifier "author" [], Attribute (Identifier "book" []) (inl "writer"))]
    (path (Identifier "author" []) []) =
    Ok (Some (Attribute (Identifier "book" []) (inl "writer")))) by (vm_compute; reflexivity).
  split; [exact H|].
  apply (alias_path _ "author" [] [] ["name"] _ H).
  intros q Hq [q' E]. destruct q as [|x [|y q]]; [congruence| |discriminate].
  destruct q'; [|discriminate]. inversion E; subst. vm_compute. reflexivity.
Defined.

Lemma strip_other_path_witness :
  IdentifierStripper_visit (Identifier "id" []) (path (Identifier "something else" []) ["whatever"]) =
  Some (path (Identifier "something else" []) ["whatever"]).
Proof. apply strip_other_path; vm_compute; reflexivity. Defined.

End ExtraRewrite.


(** ** Further properties: [sql/] and [roundtrip.py] *)

Module ExtraSql.
Import Regex Ast Spec ExtraSpec Sql.

Lemma clean_char_ok (x : ascii) :
  is_word (clean_char (to_lower x)) = true /\ to_lower (clean_char (to_lower x)) = clean_char (to_lower x) /\
  clean_char (to_lower (clean_char (to_lower x))) = clean_char (to_lower x).
Proof.
  assert (H : forall y, (is_word (clean_char (to_lower y)) &&
    Ascii.eqb (to_lower (clean_char (to_lower y))) (clean_char (to_lower y)) &&
    Ascii.eqb (clean_char (to_lower (clean_char (to_lower y)))) (clean_char (to_lower y))) = true)
    by (apply RegexFacts.ascii_forall; vm_compute; reflexivity).
  specialize (H x). apply andb_true_iff in H. destruct H as [H H3].
  apply andb_true_iff in H. destruct H as [H1 H2].
  apply Ascii.eqb_eq in H2, H3. auto.
Qed.

Theorem clean_identifier_spec (name : string) :
  (clean_identifier name = Error IndexError <-> name = "") /\
  forall s, clean_identifier name = Ok s ->
    Forall (fun c => is_word c = true /\ to_lower c = c) (list_ascii_of_string s) /\
    clean_identifier s = Ok s.
Proof.
  assert (U : forall nm, clean_identifier nm =
    let m := map (fun x => clean_char (to_lower x)) (list_ascii_of_string nm) in
    match m with
    | [] => Error IndexError
    | _ => Ok (string_of_list_ascii m)
    end) by (intros nm; unfold clean_identifier; rewrite map_map; reflexivity).
  rewrite !U. cbv zeta.
  split.
  - destruct name; simpl; split; congruence.
  - intros s Hs.
    destruct (map (fun x => clean_char (to_lower x)) (list_ascii_of_string name)) as [|c l] eqn:E;
      [discriminate|]. inversion Hs; subst s. clear Hs.
    change (String.String c (string_of_list_ascii l)) with (string_of_list_ascii (c :: l)).
    rewrite <- E, list_ascii_of_string_of_list_ascii. split.
    + apply Forall_forall. intros y Hy. apply in_map_iff in Hy.
      destruct Hy as [x [<- _]]. destruct (clean_char_ok x) as [H1 [H2 _]]. auto.
    + rewrite U, list_ascii_of_string_of_list_ascii, map_map.
      rewrite (map_ext _ _ (fun x => proj2 (proj2 (clean_char_ok x)))). rewrite E. reflexivity.
Qed.

(** X8: The SQLite and Athena visitors raise [IndexError] on an empty name;
    otherwise they quote a cleaned name made only of the characters
    [a-z0-9_], which cleaning leaves unchanged. *)
Theorem sql_identifier_cleaned (table_alias : option string)
    (sqlfunc : dialect -> string -> list node -> list (res sqlval) -> option (res sqlval))
    (d : dialect) (name : string) (ns : list string) :
  d <> Base ->
  (visit table_alias sqlfunc d (Identifier name ns) = Error IndexError <-> name = "") /\
  forall r, visit table_alias sqlfunc d (Identifier name ns) = Ok r ->
    exists s, r = SStr (if truthy table_alias
                        then dq ++ match table_alias with Some a => a | None => "" end ++ dq ++ "." ++
                             (dq ++ s ++ dq)
                        else dq ++ s ++ dq) /\
      Forall (fun c => is_word c = true /\ to_lower c = c) (list_ascii_of_string s) /\
      clean_identifier s = Ok s.
Proof.
  intros Hd. destruct (clean_identifier_spec name) as [He Hok].
  assert (V : visit table_alias sqlfunc d (Identifier name ns) =
              (name' <- clean_identifier name ;;
               Ok (SStr (if truthy table_alias
                         then dq ++ match table_alias with Some a => a | None => "" end ++ dq ++
                              "." ++ (dq ++ name' ++ dq)
                         else dq ++ name' ++ dq))))
    by (destruct d; [congruence| |]; reflexivity).
  rewrite V. split.
  - rewrite <- He. destruct (clean_identifier name); cbn [bind]; split; congruence.
  - intros r Hr. destruct (clean_identifier name) as [s|e] eqn:Ec; [|discriminate].
    cbn [bind] in Hr. inversion Hr; subst r. exists s. split; [reflexivity|]. exact (Hok s eq_refl).
Qed.

Lemma replace_go_quote (f : nat) : forall s, List.length s <= f ->
  Py.replace_go f ["'"]%char ["'"; "'"]%char s = flat_map quote_char s.
Proof.
  induction f as [|f IH]; intros [|x s] Hl; cbn [List.length] in Hl; try reflexivity; try lia.
  cbn [Py.replace_go flat_map].
  change (Py.starts_with (x :: s) ["'"]%char) with (Ascii.eqb "'" x && Py.starts_with s []).
  unfold quote_char. destruct (Ascii.eqb_spec "'" x) as [<-|Hx].
  - replace (Py.starts_with s []) with true by (destruct s; reflexivity).
    cbn [andb skipn List.length]. rewrite IH by lia. reflexivity.
  - rewrite (proj2 (Ascii.eqb_neq x "'") (fun E => Hx (eq_sym E))).
    cbn [andb]. rewrite IH by lia. reflexivity.
Qed.

Lemma replace_quote (s : list ascii) :
  Py.replace ["'"]%char ["'"; "'"]%char s = flat_map quote_char s.
Proof. apply replace_go_quote. lia. Qed.

Lemma sql_unescape_qq (r : list ascii) :
  sql_unescape ("'" :: "'" :: r)%char = option_map (cons "'"%char) (sql_unescape r).
Proof. reflexivity. Qed.

Lemma sql_unescape_other (x : ascii) (r : list ascii) :
  x <> "'"%char -> sql_unescape (x :: r) = option_map (cons x) (sql_unescape r).
Proof. intros Hx. cbn [sql_unescape]. now rewrite (proj2 (Ascii.eqb_neq x "'") Hx). Qed.

Lemma sql_unescape_quote (l : list ascii) : sql_unescape (flat_map quote_char l) = Some l.
Proof.
  induction l as [|x l IH]; [reflexivity|]. cbn [flat_map]. unfold quote_char at 1.
  destruct (Ascii.eqb_spec x "'") as [->|Hx].
  - cbn [app]. rewrite sql_unescape_qq, IH. reflexivity.
  - cbn [app]. rewrite sql_unescape_other, IH by exact Hx. reflexivity.
Qed.

(** X9: The SQL visitors quote a string with every quote doubled, and SQL
    reads that literal back as the original string. *)
Theorem sql_string_literal (table_alias : option string)
    (sqlfunc : dialect -> string -> list node -> list (res sqlval) -> option (res sqlval))
    (d : dialect) (v : string) :
  exists body,
    visit table_alias sqlfunc d (String v) = Ok (SStr ("'" ++ string_of_list_ascii body ++ "'")) /\
    body = flat_map quote_char (list_ascii_of_string v) /\
    sql_unescape body = Some (list_ascii_of_string v).
Proof.
  exists (flat_map quote_char (list_ascii_of_string v)). split; [|split].
  - cbn [visit]. rewrite replace_quote. reflexivity.
  - reflexivity.
  - apply sql_unescape_quote.
Qed.

Lemma sql_identifier_cleaned_witness :
  Sqlite <> Base /\
  visit None (fun _ _ _ _ => None) Sqlite (Identifier "Ab-c" []) = Ok (SStr (dq ++ "ab_c" ++ dq)) /\
  ((visit None (fun _ _ _ _ => None) Sqlite (Identifier "Ab-c" []) = Error IndexError <-> "Ab-c" = "") /\
   forall r, visit None (fun _ _ _ _ => None) Sqlite (Identifier "Ab-c" []) = Ok r ->
    exists s, r = SStr (if truthy None
                        then dq ++ match @None string with Some a => a | None => "" end ++ dq ++ "." ++
                             (dq ++ s ++ dq)
                        else dq ++ s ++ dq) /\
      Forall (fun c => is_word c = true /\ to_lower c = c) (list_ascii_of_string s) /\
      clean_identifier s = Ok s).
Proof.
  assert (Hd : Sqlite <> Base) by discriminate.
  split; [exact Hd|]. split; [vm_compute; reflexivity|].
  exact (sql_identifier_cleaned None (fun _ _ _ _ => None) Sqlite "Ab-c" [] Hd).
Defined.

(** X10: The SQLite visitor writes a boolean as 0 only when its text is
    exactly [false]; [FALSE], which the parser accepts, becomes 1. *)
Theorem sqlite_boolean (table_alias : option string)
    (sqlfunc : dialect -> string -> list node -> list (res sqlval) -> option (res sqlval))
    (val : string) :
  (visit table_alias sqlfunc Sqlite (Boolean val) = Ok (SInt 0) <-> val = "false") /\
  Grammar.parse "flag eq FALSE" = [Ok (Compare Eq (Identifier "flag" []) (Boolean "FALSE"))] /\
  AstProps.Boolean_py_val "FALSE" = false /\
  visit table_alias sqlfunc Sqlite (Boolean "FALSE") = Ok (SInt 1).
Proof.
  split; [|split; [vm_compute; reflexivity|split; reflexivity]].
  cbn [visit]. destruct (String.eqb_spec val "false") as [->|Hv].
  - split; reflexivity.
  - split; [intros E; inversion E|congruence].
Qed.

Lemma join_not_str (sep : string) (vs : list sqlval) (k : nat) :
  List.In (SInt k) vs -> join sep vs = Error (TypeError "sequence item: expected str instance").
Proof.
  intros H. unfold join.
  enough (E : fold_right (fun v acc => match v, acc with
                                       | SStr x, Some l => Some (x :: l)
                                       | _, _ => None
                                       end) (Some []) vs = None) by now rewrite E.
  induction vs as [|v vs IH]; [destruct H|]. destruct H as [->|H]; [reflexivity|].
  cbn [fold_right]. rewrite (IH H). destruct v; reflexivity.
Qed.

(** X11: The SQLite visitor raises [TypeError] on a list holding a boolean,
    since [str.join] receives an [int]. *)
Theorem sqlite_list_boolean (table_alias : option string)
    (sqlfunc : dialect -> string -> list node -> list (res sqlval) -> option (res sqlval))
    (l : list node) (b : string) :
  (forall x, List.In x l -> exists v, visit table_alias sqlfunc Sqlite x = Ok v) ->
  List.In (Boolean b) l ->
  visit table_alias sqlfunc Sqlite (List l) =
    Error (TypeError "sequence item: expected str instance").
Proof.
  intros Hok Hb. cbn [visit].
  enough (E : exists vs k, (fix visit_all (l0 : list node) : res (list sqlval) :=
       match l0 with
       | [] => Ok []
       | x :: l' => a <- visit table_alias sqlfunc Sqlite x;; r <- visit_all l';; Ok (a :: r)
       end) l = Ok vs /\ List.In (SInt k) vs).
  { destruct E as [vs [k [E Hk]]]. rewrite E. cbn [bind]. now rewrite (join_not_str _ _ k Hk). }
  induction l as [|x l IH]; [destruct Hb|].
  destruct (Hok x (or_introl eq_refl)) as [v Hv]. rewrite Hv. cbn [bind].
  destruct Hb as [Ex|Hb]; [subst x|].
  - assert (Hr : forall l', (forall y, List.In y l' -> exists v, visit table_alias sqlfunc Sqlite y = Ok v) ->
                 exists vs, (fix visit_all (l0 : list node) : res (list sqlval) :=
       match l0 with
       | [] => Ok []
       | x :: l' => a <- visit table_alias sqlfunc Sqlite x;; r <- visit_all l';; Ok (a :: r)
       end) l' = Ok vs).
    { induction l' as [|y l' IHl]; intros Hy; [eexists; reflexivity|].
      destruct (Hy y (or_introl eq_refl)) as [w Hw]. rewrite Hw. cbn [bind].
      destruct IHl as [ws Hws]; [intros z Hz; apply Hy; right; exact Hz|]. rewrite Hws.
      eexists; reflexivity. }
    destruct (Hr l) as [vs Hvs]; [intros y Hy; apply Hok; right; exact Hy|].
    rewrite Hvs. cbn [bind]. cbn [visit] in Hv. inversion Hv.
    eexists; eexists; split; [reflexivity|left; reflexivity].
  - destruct IH as [vs [k [E Hk]]]; [intros y Hy; apply Hok; right; exact Hy|exact Hb|].
    rewrite E. cbn [bind]. exists (v :: vs), k. split; [reflexivity|right; exact Hk].
Qed.

Lemma sqlite_list_boolean_witness :
  Grammar.parse "a in (true, 1)" =
    [Ok (Compare In (Identifier "a" []) (List [Boolean "true"; Integer "1"]))] /\
  visit None (fun _ _ _ _ => None) Sqlite (List [Boolean "true"; Integer "1"]) =
    Error (TypeError "sequence item: expected str instance").
Proof.
  split; [vm_compute; reflexivity|].
  apply (sqlite_list_boolean None (fun _ _ _ _ => None) [Boolean "true"; Integer "1"] "true").
  - intros x [<-|[<-|[]]]; eexists; reflexivity.
  - left. reflexivity.
Defined.

(** X12: On a duration the lexer produces, the base SQL visitor writes a
    string, the Athena visitor raises [ValueError] and the SQLite visitor
    returns [None]. *)
Theorem lexed_duration_dialects (table_alias : option string)
    (sqlfunc : dialect -> string -> list node -> list (res sqlval) -> option (res sqlval))
    (text : string) (ts : list Lexer.token) (t : Lexer.token) (v : string) :
  Lexer.tokenize text = Ok ts -> List.In t ts -> Lexer.tok_value t = Lexer.TNode (Duration v) ->
  (exists s, visit table_alias sqlfunc Base (Duration v) = Ok (SStr s)) /\
  visit table_alias sqlfunc Athena (Duration v) =
    Error (ValueError "wrong number of values to unpack (expected 5)") /\
  visit table_alias sqlfunc Sqlite (Duration v) = Ok SNone.
Proof.
  intros H Hin Ht.
  destruct (DurationFacts.tokenize_from_duration _ _ _ _ _ H Hin Ht) as [w [Hs ->]].
  destruct (RegexFacts.dur_unpack w Hs) as [sign [d [h [m [s E]]]]].
  split; [|split; [|reflexivity]]; cbn [visit]; rewrite E; cbn [bind].
  - eexists. reflexivity.
  - reflexivity.
Qed.

Lemma lexed_duration_dialects_witness :
  Lexer.tokenize "duration'P1D'" =
    Ok [Lexer.mk_token Lexer.DURATION (Lexer.TNode (Duration "P1D"))] /\
  visit None (fun _ _ _ _ => None) Athena (Duration "P1D") =
    Error (ValueError "wrong number of values to unpack (expected 5)").
Proof.
  split; [vm_compute; reflexivity|].
  apply (lexed_duration_dialects None (fun _ _ _ _ => None) "duration'P1D'"
           [Lexer.mk_token Lexer.DURATION (Lexer.TNode (Duration "P1D"))]
           (Lexer.mk_token Lexer.DURATION (Lexer.TNode (Duration "P1D"))) "P1D").
  - vm_compute. reflexivity.
  - left. reflexivity.
  - reflexivity.
Defined.

Lemma str_app_assoc (a b c : string) : ((a ++ b) ++ c)%string = (a ++ b ++ c)%string.
Proof. induction a as [|x a IH]; simpl; congruence. Qed.

(** X13: The SQL visitors write nested arithmetic without parentheses, so
    the two groupings of [a o1 b o2 c] give the same text. *)
Theorem sql_binop_regroup (table_alias : option string)
    (sqlfunc : dialect -> string -> list node -> list (res sqlval) -> option (res sqlval))
    (d : dialect) (o1 o2 a b c : node) (so1 so2 sa sb sc : sqlval) :
  visit table_alias sqlfunc d o1 = Ok so1 -> visit table_alias sqlfunc d o2 = Ok so2 ->
  visit table_alias sqlfunc d a = Ok sa -> visit table_alias sqlfunc d b = Ok sb ->
  visit table_alias sqlfunc d c = Ok sc ->
  visit table_alias sqlfunc d (BinOp o2 (BinOp o1 a b) c) =
  visit table_alias sqlfunc d (BinOp o1 a (BinOp o2 b c)) /\
  visit table_alias sqlfunc d (BinOp o1 a (BinOp o2 b c)) =
    Ok (SStr (fmt sa ++ " " ++ fmt so1 ++ " " ++ fmt sb ++ " " ++ fmt so2 ++ " " ++ fmt sc)).
Proof.
  intros H1 H2 Ha Hb Hc.
  cbn [visit]. rewrite H1, H2, Ha, Hb, Hc. cbn [bind fmt].
  rewrite !str_app_assoc. split; reflexivity.
Qed.

Lemma sql_binop_regroup_witness :
  List.In (Ok (BinOp Mult (BinOp Add (Integer "1") (Integer "2")) (Integer "3")))
          (Grammar.parse "(1 add 2) mul 3") /\
  visit None (fun _ _ _ _ => None) Base
        (BinOp Mult (BinOp Add (Integer "1") (Integer "2")) (Integer "3")) =
  visit None (fun _ _ _ _ => None) Base
        (BinOp Add (Integer "1") (BinOp Mult (Integer "2") (Integer "3"))) /\
  visit None (fun _ _ _ _ => None) Base
        (BinOp Add (Integer "1") (BinOp Mult (Integer "2") (Integer "3"))) =
    Ok (SStr (fmt (SStr "1") ++ " " ++ fmt (SStr "+") ++ " " ++ fmt (SStr "2") ++ " " ++
              fmt (SStr "*") ++ " " ++ fmt (SStr "3"))).
Proof.
  split; [vm_compute; auto|].
  apply (sql_binop_regroup None (fun _ _ _ _ => None) Base Add Mult
           (Integer "1") (Integer "2") (Integer "3")); reflexivity.
Defined.

Lemma join_str_cons (sep y : string) (w : list string) :
  w <> [] -> Roundtrip.join_str sep (y :: w) = (y ++ sep ++ Roundtrip.join_str sep w)%string.
Proof. destruct w; [congruence|reflexivity]. Qed.

Lemma join_str_snoc (sep : string) (l : list string) (x : string) :
  l <> [] -> Roundtrip.join_str sep (l ++ [x])%list = (Roundtrip.join_str sep l ++ sep ++ x)%string.
Proof.
  intros Hl. induction l as [|y l IH]; [congruence|].
  destruct l as [|z l]; [reflexivity|].
  change ((y :: z :: l) ++ [x])%list with (y :: ((z :: l) ++ [x]))%list.
  rewrite join_str_cons by (destruct l; discriminate).
  rewrite (IH ltac:(discriminate)), (join_str_cons sep y (z :: l)) by discriminate.
  rewrite !str_app_assoc. reflexivity.
Qed.

(** X14: The OData printer writes an identifier as its [full_name]. *)
Theorem roundtrip_identifier (name : string) (ns : list string) :
  Roundtrip.visit (Identifier name ns) = Ok (Some (AstProps.full_name name ns)).
Proof.
  unfold AstProps.full_name. destruct ns as [|x ns]; [reflexivity|].
  rewrite join_str_snoc by discriminate. cbn [Roundtrip.visit].
  unfold Roundtrip.plus, Roundtrip.s_. cbn [bind]. rewrite !str_app_assoc. reflexivity.
Qed.

(** X15: The OData printer gives the same text for [a o (b o' c)] and
    [(a o b) o' c] when [o] and [o'] have the same precedence. *)
Theorem roundtrip_same_precedence (o o' a b c : node) (so so' sa sb sc : string) :
  Roundtrip.PRECEDENCE o = Roundtrip.PRECEDENCE o' ->
  Roundtrip.visit o = Ok (Some so) -> Roundtrip.visit o' = Ok (Some so') ->
  Roundtrip.visit a = Ok (Some sa) -> Roundtrip.visit b = Ok (Some sb) ->
  Roundtrip.visit c = Ok (Some sc) ->
  Roundtrip.visit (BinOp o a (BinOp o' b c)) = Roundtrip.visit (BinOp o' (BinOp o a b) c).
Proof.
  intros Hp Ho Ho' Ha Hb Hc. cbn [Roundtrip.visit].
  rewrite Ho, Ho', Ha, Hb, Hc. unfold Roundtrip.paren_if_lower. cbn [Roundtrip.node_op].
  rewrite !Hp, (proj2 (Nat.ltb_ge _ _) (le_n _)).
  destruct (Nat.ltb (Roundtrip.PRECEDENCE (Roundtrip.node_op a)) (Roundtrip.PRECEDENCE o'));
  destruct (Nat.ltb (Roundtrip.PRECEDENCE (Roundtrip.node_op b)) (Roundtrip.PRECEDENCE o'));
  destruct (Nat.ltb (Roundtrip.PRECEDENCE (Roundtrip.node_op c)) (Roundtrip.PRECEDENCE o'));
  unfold Roundtrip.plus, Roundtrip.s_; cbn [bind]; rewrite ?str_app_assoc; reflexivity.
Qed.

Lemma roundtrip_same_precedence_witness :
  Grammar.parse "a sub (b sub c)" =
    [Ok (BinOp Sub (Identifier "a" []) (BinOp Sub (Identifier "b" []) (Identifier "c" [])))] /\
  Roundtrip.visit (BinOp Sub (Identifier "a" []) (BinOp Sub (Identifier "b" []) (Identifier "c" []))) =
    Ok (Some "a sub b sub c") /\
  Roundtrip.visit (BinOp Sub (Identifier "a" []) (BinOp Sub (Identifier "b" []) (Identifier "c" []))) =
  Roundtrip.visit (BinOp Sub (BinOp Sub (Identifier "a" []) (Identifier "b" [])) (Identifier "c" [])).
Proof.
  split; [vm_compute; reflexivity|]. split; [vm_compute; reflexivity|].
  apply (roundtrip_same_precedence Sub Sub _ _ _ "sub" "sub" "a" "b" "c"); reflexivity.
Defined.

End ExtraSql.


(** ** Further properties: the parser's output and [AstToODataVisitor] *)

Module ExtraPrint.
Import Ast Lexer Grammar Spec GrammarFacts ExtraSpec.

Lemma tokval_printable (k : tkind) (n : node) : tokval_of k n -> printable n.
Proof. intros [v H]. unfold printable. destruct k; simpl in H; inversion H; simpl; repeat split. Qed.

Lemma printable_List (l : list node) : printable (List l) <-> Forall printable l.
Proof.
  unfold printable. induction l as [|x l IH]; simpl.
  - split; auto.
  - rewrite Forall_cons_iff. simpl in IH. rewrite <- IH. tauto.
Qed.

Lemma function_call_printable (f : node) (args : list node) (b : node) :
  tokval_of ODATA_IDENTIFIER f -> Forall printable args -> _function_call f args = Ok b ->
  printable b.
Proof.
  intros Hf Hargs E. apply tokval_identifier in Hf. destruct Hf as [name ->].
  assert (Hc : printable (Call (Identifier name []) args)).
  { apply printable_List in Hargs. unfold printable in *. simpl in Hargs |- *.
    split; [exact I|]. split; [auto|]. exact (proj2 Hargs). }
  unfold _function_call in E. simpl in E.
  destruct (lookup_function name) as [[k|[lo hi]]|]; [| |discriminate].
  - destruct (negb (Nat.eqb (List.length args) k)); [discriminate|]. inversion E; subst. exact Hc.
  - destruct (Nat.ltb (List.length args) lo || Nat.ltb hi (List.length args)); [discriminate|].
    inversion E; subst. exact Hc.
Qed.

Lemma fold_attributes_printable (inters : list string) (o : node) :
  printable o -> printable (fold_left (fun owner inter => Attribute owner (inl inter)) inters o).
Proof.
  revert o. induction inters as [|x inters IH]; intros o Ho; simpl; auto.
  apply IH. unfold printable in *. simpl. auto.
Qed.

Lemma reverse_attributes_printable (x b : node) : _reverse_attributes x = Ok b -> printable b.
Proof.
  unfold _reverse_attributes. intros E.
  destruct (_explode_attr x) as [ex|e]; simpl in E; [|discriminate].
  destruct (rev ex) as [|leaf rinit]; [discriminate|].
  destruct (rev rinit) as [|first inters]; [discriminate|].
  inversion E; subst. unfold printable. simpl. split; [exact I|]. split; [|exact I].
  apply fold_attributes_printable. unfold printable. simpl. repeat split.
Qed.

Lemma navigation_action_printable (p0 p1 b : node) :
  tokval_of ODATA_IDENTIFIER p0 -> printable p1 -> navigation_action p0 p1 = Ok b ->
  printable b.
Proof.
  intros H0 H1 E. apply tokval_identifier in H0. destruct H0 as [name0 ->].
  destruct p1; simpl in E; try discriminate.
  - inversion E; subst. unfold printable. simpl. repeat split.
  - exact (reverse_attributes_printable _ _ E).
  - destruct H1 as [[] _].
  - destruct p1_1; simpl in E; try discriminate.
    + inversion E; subst. unfold printable in *. simpl in H1 |- *. intuition.
    + destruct H1 as [_ [[[] _] _]].
Qed.

Section PrintLevel.
Variable prev : tables.
Hypothesis Hprev : tables_printable prev.

Lemma lambda_printable : POk printable (lambda_ prev).
Proof.
  unfold lambda_. eapply POk_act.
  - apply POk_seq_n, POk_seq_bws, POk_seq_l, POk_seq_bws, (pr_common_expr _ Hprev).
  - intros [id e] b [H1 H2] E. inversion E; subst. unfold printable in *. simpl.
    split; [exact I|]. split; [exact (tokval_printable _ _ H1)|exact H2].
Qed.

Lemma collection_path_printable : POk lam_printable (collection_path_expr prev).
Proof.
  unfold collection_path_expr. apply POk_seq_l, POk_alt.
  intros p [<-|[<-|[]]]; [unfold any_expr; apply POk_alt; intros p [<-|[<-|[]]]|].
  - eapply POk_act.
    + apply POk_seq_n, POk_seq_l, POk_seq_bws, POk_seq; [exact (pr_lambda _ Hprev)|].
      apply (POk_true _).
    + intros [op [l u]] b [H1 [H2 _]] E. inversion E; subst.
      split; [exact (tokval_printable _ _ H1)|exact H2].
  - eapply POk_act; [apply POk_seq_n, (POk_true _)|].
    intros [op u] b [H1 _] E. inversion E; subst.
    split; [exact (tokval_printable _ _ H1)|exact I].
  - unfold all_expr. eapply POk_act.
    + apply POk_seq_n, POk_seq_l, POk_seq_bws, POk_seq; [exact (pr_lambda _ Hprev)|].
      apply (POk_true _).
    + intros [op [l u]] b [H1 [H2 _]] E. inversion E; subst.
      split; [exact (tokval_printable _ _ H1)|exact H2].
Qed.

Lemma property_path_printable : POk printable (property_path_expr prev).
Proof.
  unfold property_path_expr. apply POk_alt. intros p [<-|[<-|[<-|[]]]].
  - eapply POk_weaken; [|apply POk_term]. apply tokval_printable.
  - eapply POk_act; [apply POk_seq_n, POk_seq_l, (pr_member_expr _ Hprev)|].
    intros [p0 p1] b [H0 H1] E. exact (navigation_action_printable p0 p1 b H0 H1 E).
  - eapply POk_act; [apply POk_seq_n, collection_path_printable|].
    intros [p0 [op lam]] b [H0 H1] E. inversion E; subst.
    unfold lam_printable in H1. simpl in H0, H1. destruct H1 as [H1 H2].
    pose proof (tokval_printable _ _ H0) as H3.
    unfold printable in *. simpl. split; [exact I|]. auto.
Qed.

Lemma list_items_printable : POk (Forall printable) (list_items prev).
Proof.
  unfold list_items. apply POk_alt. intros p [<-|[<-|[]]].
  - eapply POk_act.
    + apply POk_seq; [exact (pr_common_expr _ Hprev)|].
      apply POk_seq_bws, POk_seq_l, POk_seq_bws, (pr_common_expr _ Hprev).
    + intros [a c] b [H1 H2] E. inversion E; subst. simpl in *. auto.
  - eapply POk_act.
    + apply POk_seq; [exact (pr_list_items _ Hprev)|].
      apply POk_seq_bws, POk_seq_l, POk_seq_bws, (pr_common_expr _ Hprev).
    + intros [l c] b [H1 H2] E. inversion E; subst. simpl in *.
      apply Forall_app. auto.
Qed.

Lemma list_expr_printable :
  POk (fun n => printable n /\ exists val, n = List val) (list_expr prev).
Proof.
  unfold list_expr. apply POk_alt. intros p [<-|[<-|[]]].
  - eapply POk_act.
    + apply POk_seq_l, POk_seq_bws, POk_seq; [exact (pr_common_expr _ Hprev)|].
      apply (POk_true _).
    + intros [e u] b [H1 _] E. inversion E; subst. split; [|eauto].
      apply printable_List. auto.
  - eapply POk_act.
    + apply POk_seq_l, POk_seq_bws, POk_seq; [exact (pr_list_items _ Hprev)|].
      apply (POk_true _).
    + intros [l u] b [H1 _] E. inversion E; subst. split; [|eauto].
      now apply printable_List.
Qed.

Lemma binop_printable (mk : node -> node -> node -> node) (k : tkind) :
  (forall op l r, tokval_of k op -> printable l -> printable r -> printable (mk op l r)) ->
  POk printable (binop prev mk k).
Proof.
  intros Hmk. unfold binop. eapply POk_act.
  - apply POk_seq; [exact (pr_common_expr _ Hprev)|].
    apply POk_seq_n, (pr_common_expr _ Hprev).
  - intros [l [op r]] b [H1 [H2 H3]] E. inversion E; subst. simpl in *. auto.
Qed.

Lemma common_expr_printable : POk printable (common_expr prev).
Proof.
  pose proof (pr_common_expr _ Hprev) as Hc.
  unfold common_expr. apply POk_alt.
  intros p Hp. cbn [List.In] in Hp.
  destruct Hp as [<-|[<-|[<-|[<-|[<-|[<-|[<-|[<-|[<-|[<-|[<-|[<-|[<-|[]]]]]]]]]]]]]].
  - eapply POk_act; [apply POk_seq_l, POk_seq_bws, POk_seq, (POk_true _); exact Hc|].
    intros [e u] b [H _] E. inversion E; now subst.
  - unfold primitive_literal. apply POk_alt. intros p Hp.
    apply in_map_iff in Hp. destruct Hp as [k [<- _]].
    eapply POk_weaken; [|apply POk_term]. apply tokval_printable.
  - exact property_path_printable.
  - eapply POk_weaken; [|exact list_expr_printable]. now intros n [H _].
  - eapply POk_act; [apply POk_seq_n, POk_seq_bws, Hc|].
    intros [op e] b [H1 H2] E. inversion E; subst. pose proof (tokval_printable _ _ H1).
    unfold printable in *. simpl in *. auto.
  - apply POk_alt. intros p Hp. apply in_map_iff in Hp. destruct Hp as [k [<- _]].
    apply binop_printable. intros op l r H1 Hl Hr. pose proof (tokval_printable _ _ H1).
    unfold printable in *. simpl in *. auto.
  - apply POk_alt. intros p Hp. apply in_map_iff in Hp. destruct Hp as [k [<- _]].
    apply binop_printable. intros op l r H1 Hl Hr. pose proof (tokval_printable _ _ H1).
    unfold printable in *. simpl in *. auto.
  - eapply POk_act; [apply POk_seq; [exact Hc|apply POk_seq_n, (pr_list_expr _ Hprev)]|].
    intros [l [op r]] b [H1 [H2 [H4 _]]] E. inversion E; subst. simpl in *.
    pose proof (tokval_printable _ _ H2). unfold printable in *. simpl. auto.
  - apply POk_alt. intros p Hp. apply in_map_iff in Hp. destruct Hp as [k [<- _]].
    apply binop_printable. intros op l r H1 Hl Hr. pose proof (tokval_printable _ _ H1).
    unfold printable in *. simpl in *. auto.
  - eapply POk_act; [apply POk_seq_n, Hc|].
    intros [op e] b [H1 H2] E. inversion E; subst. pose proof (tokval_printable _ _ H1).
    unfold printable in *. simpl in *. auto.
  - eapply POk_act; [apply POk_seq_n, (POk_true _)|].
    intros [f u] b [H1 _] E. exact (function_call_printable f [] b H1 (Forall_nil _) E).
  - eapply POk_act;
      [apply POk_seq_n, POk_seq_l, POk_seq_bws, POk_seq, (POk_true _); exact Hc|].
    intros [f [e u]] b [H1 [H2 _]] E. simpl in *.
    exact (function_call_printable f [e] b H1 (Forall_cons _ H2 (Forall_nil _)) E).
  - eapply POk_act; [apply POk_seq_n, (pr_list_expr _ Hprev)|].
    intros [f l] b [H1 H2] E. simpl in H1, H2, E. destruct H2 as [H2 [val ->]].
    simpl in E. apply printable_List in H2. exact (function_call_printable f val b H1 H2 E).
Qed.

Lemma build_printable : tables_printable (build prev).
Proof.
  constructor; simpl.
  - exact common_expr_printable.
  - exact list_items_printable.
  - exact list_expr_printable.
  - exact property_path_printable.
  - exact lambda_printable.
Qed.

End PrintLevel.

Lemma level_printable (n : nat) : tables_printable (level n).
Proof.
  induction n as [|n IH]; simpl.
  - constructor; apply POk_nil.
  - now apply build_printable.
Qed.

Lemma parse_printable (text : string) (n : node) : List.In (Ok n) (parse text) -> printable n.
Proof.
  unfold parse. destruct (tokenize text) as [ts|e] eqn:Et.
  - intros H. apply (pr_common_expr _ (level_printable (List.length ts)) ts); [|exact H].
    exact (LexerFacts.tokenize_ok text ts Et).
  - intros [H|[]]. discriminate.
Qed.

Lemma join_map_some (sep : string) (xs : list string) :
  Roundtrip.join sep (map Some xs) = Ok (Some (Roundtrip.join_str sep xs)).
Proof.
  unfold Roundtrip.join.
  assert (E : fold_right (fun o acc => match o, acc with
                                   | Some x, Some l => Some (x :: l)
                                   | _, _ => None
                                   end) (Some []) (map Some xs) = Some xs).
  { induction xs as [|x xs IH]; simpl; [reflexivity|]. rewrite IH. reflexivity. }
  rewrite E. reflexivity.
Qed.

Lemma paren_if_lower_some (s : string) (n p : node) :
  exists s', Roundtrip.paren_if_lower (Ok (Some s)) n p = Ok (Some s').
Proof.
  unfold Roundtrip.paren_if_lower. destruct (Nat.ltb _ _); simpl; eexists; reflexivity.
Qed.

Lemma visit_some : forall n, printable n -> exists s, Roundtrip.visit n = Ok (Some s).
Proof.
  fix IH 1. intros n Hn. unfold printable in Hn.
  destruct n; simpl in Hn |- *;
    try (eexists; reflexivity).
  - (* Identifier *) destruct namespace; eexists; reflexivity.
  - destruct Hn as [Hna [Ho Ha]]. destruct attr as [a|a]; [|destruct Hna].
    destruct (IH n Ho) as [so ->]. eexists; reflexivity.
  - destruct Hn as [[] _].
  - (* List *)
    destruct Hn as [_ Hl].
    match goal with |- context [?F val] =>
      assert (HF : exists xs, F val = Ok (map Some xs)) end.
    { revert Hl. generalize val as l. fix IHl 1. intros [|x l] Hl; [exists []; reflexivity|].
      destruct Hl as [Hx Hl]. destruct (IH x Hx) as [sx Ex]. destruct (IHl l Hl) as [xs Exs].
      exists (sx :: xs). simpl. rewrite Ex. simpl. rewrite Exs. reflexivity. }
    destruct HF as [xs ->]. simpl. rewrite join_map_some. eexists; reflexivity.
  - destruct Hn as [_ [H1 [H2 H3]]].
    destruct (IH n1 H1) as [s1 E1], (IH n2 H2) as [s2 E2], (IH n3 H3) as [s3 E3].
    rewrite E2, E3. destruct (paren_if_lower_some s2 n2 n1) as [t2 ->].
    destruct (paren_if_lower_some s3 n3 n1) as [t3 ->]. simpl. rewrite E1.
    eexists; reflexivity.
  - destruct Hn as [_ [H1 [H2 H3]]].
    destruct (IH n1 H1) as [s1 E1], (IH n2 H2) as [s2 E2], (IH n3 H3) as [s3 E3].
    rewrite E2, E3. destruct (paren_if_lower_some s2 n2 n1) as [t2 ->].
    destruct (paren_if_lower_some s3 n3 n1) as [t3 ->]. simpl. rewrite E1.
    eexists; reflexivity.
  - destruct Hn as [_ [H1 [H2 H3]]].
    destruct (IH n1 H1) as [s1 E1], (IH n2 H2) as [s2 E2], (IH n3 H3) as [s3 E3].
    rewrite E2, E3. destruct (paren_if_lower_some s2 n2 n1) as [t2 ->].
    destruct (paren_if_lower_some s3 n3 n1) as [t3 ->]. simpl. rewrite E1.
    eexists; reflexivity.
  - destruct Hn as [_ [H1 H2]].
    destruct (IH n1 H1) as [s1 E1], (IH n2 H2) as [s2 E2].
    rewrite E2. destruct (paren_if_lower_some s2 n2 n1) as [t2 ->]. simpl. rewrite E1.
    eexists; reflexivity.
  - destruct Hn as [[] _].
  - (* Call *)
    destruct Hn as [_ [Hf Hl]]. destruct (IH n Hf) as [sf ->].
    match goal with |- context [?F args] =>
      assert (HF : exists xs, F args = Ok (map Some xs)) end.
    { revert Hl. generalize args as l. fix IHl 1. intros [|x l] Hl; [exists []; reflexivity|].
      destruct Hl as [Hx Hl]. destruct (IH x Hx) as [sx Ex]. destruct (IHl l Hl) as [xs Exs].
      exists (sx :: xs). simpl. rewrite Ex. simpl. rewrite Exs. reflexivity. }
    destruct HF as [xs ->]. simpl. rewrite join_map_some. eexists; reflexivity.
  - destruct Hn as [_ [H1 H2]].
    destruct (IH n1 H1) as [s1 ->], (IH n2 H2) as [s2 ->]. eexists; reflexivity.
  - destruct Hn as [_ [H1 [H2 H3]]].
    destruct (IH n1 H1) as [s1 ->], (IH n2 H2) as [s2 ->].
    match goal with |- context [match ?o with Some _ => _ | None => _ end] => destruct o as [l|] end; [destruct (IH l H3) as [s3 ->]|]; eexists; reflexivity.
Qed.

(** X16: The OData printer never raises and never returns [None] on an AST
    the parser returns. *)
Theorem parse_roundtrip_prints (text : string) (n : node) :
  List.In (Ok n) (Grammar.parse text) -> exists s, Roundtrip.visit n = Ok (Some s).
Proof. intros H. apply visit_some. exact (parse_printable text n H). Qed.

Lemma parse_roundtrip_prints_witness :
  List.In (Ok (CollectionLambda (Identifier "tags" []) Any
                 (Some (Lambda (Identifier "t" []) (Compare Eq (Identifier "t" []) (String "x"))))))
          (Grammar.parse "tags/any(t: t eq 'x')") /\
  exists s, Roundtrip.visit (CollectionLambda (Identifier "tags" []) Any
                 (Some (Lambda (Identifier "t" []) (Compare Eq (Identifier "t" []) (String "x")))))
            = Ok (Some s).
Proof.
  split; [vm_compute; left; reflexivity|].
  apply (parse_roundtrip_prints "tags/any(t: t eq 'x')"). vm_compute. left. reflexivity.
Defined.

End ExtraPrint.
